(** * FractalTracer: the per-pixel path tracer of [src/Renderer.h]

    A shallow embedding of [Scene::nearestIntersection], [hash],
    [RadicalInverse], [uintToUnitReal], [wrap01] and [generateColour].

    Numbers are modelled the way the C++ has them:
    - [int] and [uint32_t] are integers of [Z] with the wrap-around written
      out ([wrap_int], [to_uint32]);
    - [float], [double] and [real] are IEEE-754 binary floating-point values,
      [spec_float] of the standard library, with the operations of
      [SpecFloat] at precision 24 (binary32) or 53 (binary64), rounding to
      nearest even.  Infinities, signed zeros and NaN are values of the type,
      as they are in the program. *)

From Stdlib Require Import ZArith List Bool Lia SpecFloat.
Import ListNotations.
Local Open Scope Z_scope.

(* ================================================================== *)
(** ** Machine integers *)

(** [int]: 32-bit two's complement. *)
Definition INT_MIN : Z := - 2 ^ 31.
Definition INT_MAX : Z := 2 ^ 31 - 1.
Definition in_int (z : Z) : Prop := INT_MIN <= z <= INT_MAX.
Definition wrap_int (z : Z) : Z := (z + 2 ^ 31) mod 2 ^ 32 - 2 ^ 31.

(** The 64-bit signed type of the literal [2654435769], which does not fit
    an [int]. *)
Definition wrap_int64 (z : Z) : Z := (z + 2 ^ 63) mod 2 ^ 64 - 2 ^ 63.

(** Conversion to [uint32_t]. *)
Definition to_uint32 (z : Z) : Z := z mod 2 ^ 32.
Definition in_uint32 (z : Z) : Prop := 0 <= z < 2 ^ 32.

(* ================================================================== *)
(** ** IEEE-754 arithmetic *)

Module IEEE.

Record format : Set := Format { fprec : Z; femax : Z }.

Definition binary32 : format := Format 24 128.
Definition binary64 : format := Format 53 1024.

Section Ops.
Variable f : format.

Definition add : spec_float -> spec_float -> spec_float := SFadd (fprec f) (femax f).
Definition sub : spec_float -> spec_float -> spec_float := SFsub (fprec f) (femax f).
Definition mul : spec_float -> spec_float -> spec_float := SFmul (fprec f) (femax f).
Definition div : spec_float -> spec_float -> spec_float := SFdiv (fprec f) (femax f).
Definition sqrt : spec_float -> spec_float := SFsqrt (fprec f) (femax f).

(** Conversion of an integer. *)
Definition of_Z (z : Z) : spec_float := binary_normalize (fprec f) (femax f) z 0 false.

(** Conversion of a value of another format: rounding to this one. *)
Definition round (x : spec_float) : spec_float :=
  match x with
  | S754_finite s m e => binary_round (fprec f) (femax f) s m e
  | _ => x
  end.

(** The decimal literal [n / d], correctly rounded. *)
Definition literal (n d : positive) : spec_float :=
  SFdiv (fprec f) (femax f) (S754_finite false n 0) (S754_finite false d 0).

Definition valid (x : spec_float) : bool := valid_binary (fprec f) (femax f) x.
End Ops.

Definition opp : spec_float -> spec_float := SFopp.

(** The comparisons of C++: all are false when an operand is NaN. *)
Definition lt (a b : spec_float) : bool := SFltb a b.
Definition gt (a b : spec_float) : bool := SFltb b a.
Definition le (a b : spec_float) : bool := SFleb a b.
Definition ge (a b : spec_float) : bool := SFleb b a.

(** [std::max (a, b)] is [(a < b) ? b : a]; [std::min (a, b)] is
    [(b < a) ? b : a]. *)
Definition max (a b : spec_float) : spec_float := if lt a b then b else a.
Definition min (a b : spec_float) : spec_float := if lt b a then b else a.

Definition pinf : spec_float := S754_infinity false.
Definition zero : spec_float := S754_zero false.

(** A binary32 value from its bit pattern. *)
Definition float_of_bits (u : Z) : spec_float :=
  let s := Z.testbit u 31 in
  let e := Z.land (Z.shiftr u 23) 255 in
  let m := Z.land u (2 ^ 23 - 1) in
  if e =? 0 then
    match m with Zpos p => S754_finite s p (-149) | _ => S754_zero s end
  else if e =? 255 then
    match m with Z0 => S754_infinity s | _ => S754_nan end
  else
    match m + 2 ^ 23 with Zpos p => S754_finite s p (e - 150) | _ => S754_nan end.

(** Sign classes used by the invariants of the integrator. *)
Definition is_nan (x : spec_float) : bool :=
  match x with S754_nan => true | _ => false end.

(** [x] is not below zero: [x < 0] is false.  NaN is in this class. *)
Definition not_negative (x : spec_float) : bool :=
  match x with
  | S754_zero _ | S754_nan => true
  | S754_infinity s | S754_finite s _ _ => negb s
  end.

(** The sign bit of [x] is clear, or [x] is NaN: as [not_negative], without
    the negative zero. *)
Definition sign_clear (x : spec_float) : bool :=
  match x with
  | S754_nan => true
  | S754_zero s | S754_infinity s | S754_finite s _ _ => negb s
  end.

(** [x] is a zero, an infinity or a finite value of sign [s]. *)
Definition has_sign (s : bool) (x : spec_float) : bool :=
  match x with
  | S754_nan => false
  | S754_zero s' | S754_infinity s' | S754_finite s' _ _ => Bool.eqb s s'
  end.

(** [x] is zero or finite. *)
Definition is_finite (x : spec_float) : bool :=
  match x with
  | S754_zero _ | S754_finite _ _ _ => true
  | _ => false
  end.

End IEEE.

(* ================================================================== *)
(** ** [hash] *)

Definition hash (x : Z) : Z :=
  let x := to_uint32 (wrap_int64 (Z.lxor x 12345391 * 2654435769)) in
  let x := Z.lxor x (Z.lxor (to_uint32 (Z.shiftl x 6)) (Z.shiftr x 26)) in
  let x := to_uint32 (wrap_int64 (x * 2654435769)) in
  let x := to_uint32 (x + Z.lxor (to_uint32 (Z.shiftl x 5)) (Z.shiftr x 12)) in
  x.

(** Another 32-bit value with the same hash: the one that the first
    multiplication sends to the complement of what it makes of [x]
    (340573321 is the inverse of the multiplier modulo [2 ^ 32]). *)
Definition hash_twin (x : Z) : Z :=
  let a := to_uint32 (Z.lxor x 12345391 * 2654435769) in
  Z.lxor (to_uint32 (Z.lxor a 4294967295 * 340573321)) 12345391.

(** The mix as the specification words it: multiply, xor-shift, multiply,
    add-shift, every stage reduced modulo [2 ^ 32]. *)
Module HashSpec.
Definition multiplier : Z := 2654435769.
Definition xor_constant : Z := 12345391.
Definition modulus : Z := 2 ^ 32.

Definition multiply (x : Z) : Z := (x * multiplier) mod modulus.
Definition shl (x k : Z) : Z := (x * 2 ^ k) mod modulus.
Definition shr (x k : Z) : Z := x / 2 ^ k.
Definition xor_shift (x : Z) : Z := Z.lxor x (Z.lxor (shl x 6) (shr x 26)).
Definition add_shift (x : Z) : Z := (x + Z.lxor (shl x 5) (shr x 12)) mod modulus.

Definition integerHash (x : Z) : Z :=
  add_shift (multiply (xor_shift (multiply (Z.lxor x xor_constant)))).
End HashSpec.

(* ================================================================== *)
(** ** [RadicalInverse] *)

(** Modelled from the spec: the constant [DoubleOneMinusEpsilon] is declared
    in a header that is not among the sources; it is the largest double
    below one, [1 - 2 ^ -53]. *)
Definition DoubleOneMinusEpsilon : spec_float :=
  S754_finite false (2 ^ 53 - 1) (-53).

Definition double_one : spec_float := Eval vm_compute in IEEE.of_Z IEEE.binary64 1.

(** The [while (a)] loop.  [None] when the fuel runs out, and when the
    integer division has no result (a zero divisor, or [INT_MIN / -1]). *)
Fixpoint RadicalInverse_loop (fuel : nat) (base : Z) (invBase : spec_float)
    (a reversedDigits : Z) (invBaseN : spec_float) : option (Z * spec_float) :=
  match fuel with
  | O => None
  | S fuel' =>
      if a =? 0 then Some (reversedDigits, invBaseN)
      else if (base =? 0) || ((a =? INT_MIN) && (base =? -1)) then None
      else
        let next := Z.quot a base in
        let digit := wrap_int (a - wrap_int (base * next)) in
        RadicalInverse_loop fuel' base invBase next
          (wrap_int (wrap_int (reversedDigits * base) + digit))
          (IEEE.mul IEEE.binary64 invBaseN invBase)
  end.

Definition RadicalInverse (fuel : nat) (a base : Z) : option spec_float :=
  let invBase := IEEE.div IEEE.binary64 double_one (IEEE.of_Z IEEE.binary64 base) in
  match RadicalInverse_loop fuel base invBase a 0 double_one with
  | Some (reversedDigits, invBaseN) =>
      Some (IEEE.min
              (IEEE.mul IEEE.binary64 (IEEE.of_Z IEEE.binary64 reversedDigits) invBaseN)
              DoubleOneMinusEpsilon)
  | None => None
  end.

(** [invBaseN] after [n] runs of the loop body. *)
Definition scale_by (invBase : spec_float) (n : nat) (x : spec_float) : spec_float :=
  Nat.iter n (fun y => IEEE.mul IEEE.binary64 y invBase) x.

(** Digit reversal as the specification words it: the base-[b] digits of the
    index, least significant first, read back as a number with the first of
    them the most significant. *)
Module RadicalSpec.
Fixpoint digits (fuel : nat) (b a : Z) : list Z :=
  match fuel with
  | O => []
  | S fuel' => if a =? 0 then [] else (a mod b) :: digits fuel' b (a / b)
  end.

Definition number_of (b : Z) (ds : list Z) : Z :=
  fold_left (fun acc d => acc * b + d) ds 0.

Definition reversed (fuel : nat) (b a : Z) : Z := number_of b (digits fuel b a).
End RadicalSpec.

(* ================================================================== *)
(** ** Vectors, rays and scene objects *)

(** Modelled from the spec: the vector header is not among the sources.  A
    vector is three components with componentwise arithmetic; [dot], [cross]
    and [normalise] are the textbook formulas, evaluated left to right. *)
Module Vec3.
Record t : Set := make { x : spec_float; y : spec_float; z : spec_float }.
End Vec3.
Definition vec3 : Set := Vec3.t.

Section VecOps.
Variable f : IEEE.format.

Definition vmap2 (op : spec_float -> spec_float -> spec_float) (a b : vec3) : vec3 :=
  Vec3.make (op (Vec3.x a) (Vec3.x b)) (op (Vec3.y a) (Vec3.y b)) (op (Vec3.z a) (Vec3.z b)).

Definition vsplat (s : spec_float) : vec3 := Vec3.make s s s.

Definition vadd : vec3 -> vec3 -> vec3 := vmap2 (IEEE.add f).
Definition vsub : vec3 -> vec3 -> vec3 := vmap2 (IEEE.sub f).
Definition vmul : vec3 -> vec3 -> vec3 := vmap2 (IEEE.mul f).
Definition vscale (a : vec3) (s : spec_float) : vec3 := vmul a (vsplat s).
Definition vdiv (a : vec3) (s : spec_float) : vec3 := vmap2 (IEEE.div f) a (vsplat s).

Definition dot (a b : vec3) : spec_float :=
  IEEE.add f
    (IEEE.add f (IEEE.mul f (Vec3.x a) (Vec3.x b)) (IEEE.mul f (Vec3.y a) (Vec3.y b)))
    (IEEE.mul f (Vec3.z a) (Vec3.z b)).

Definition cross (a b : vec3) : vec3 :=
  Vec3.make
    (IEEE.sub f (IEEE.mul f (Vec3.y a) (Vec3.z b)) (IEEE.mul f (Vec3.z a) (Vec3.y b)))
    (IEEE.sub f (IEEE.mul f (Vec3.z a) (Vec3.x b)) (IEEE.mul f (Vec3.x a) (Vec3.z b)))
    (IEEE.sub f (IEEE.mul f (Vec3.x a) (Vec3.y b)) (IEEE.mul f (Vec3.y a) (Vec3.x b))).

Definition normalise (a : vec3) : vec3 :=
  vscale a (IEEE.div f (IEEE.of_Z f 1) (IEEE.sqrt f (dot a a))).
End VecOps.

Definition vforall (p : spec_float -> bool) (a : vec3) : bool :=
  p (Vec3.x a) && p (Vec3.y a) && p (Vec3.z a).

Module Ray.
Record t : Set := make { o : vec3; d : vec3 }.
End Ray.

(** The capabilities of [SceneObject.h], which is not among the sources:
    [intersect], [getNormal] and the [colour] member. *)
Record SceneObject : Set := {
  intersect : Ray.t -> spec_float;
  getNormal : vec3 -> vec3;
  colour : vec3
}.

Record Scene : Set := { objects : list SceneObject }.

(** Modelled from the spec: [real_inf] is declared in a header that is not
    among the sources; it is positive infinity. *)
Definition real_inf : spec_float := IEEE.pinf.

Definition max_bounces : Z := 3.
Definition num_primes : Z := 6.
Definition primes : list Z := [2; 3; 5; 7; 11; 13].

(** The state of the [while (true)] loop of [generateColour], and what one
    run of its body does to it. *)
Record PathState : Set := {
  ray : Ray.t;
  throughput : vec3;
  contribution : vec3;
  bounce : Z
}.

Inductive Step : Set :=
| Break (c : vec3)
| Continue (st : PathState).

(* ================================================================== *)
(** ** The renderer *)

Section Renderer.

(** The configuration macro [USE_DOUBLE], the constant [ray_epsilon] of a
    header that is not among the sources, and the functions of the C
    mathematical library. *)
Variable USE_DOUBLE : bool.
Variable ray_epsilon : spec_float.
Variables std_cos std_sin std_tan : spec_float -> spec_float.

Definition real : IEEE.format := if USE_DOUBLE then IEEE.binary64 else IEEE.binary32.

Definition real_of_double (v : spec_float) : spec_float :=
  if USE_DOUBLE then v else IEEE.round IEEE.binary32 v.
Definition real_of_float (v : spec_float) : spec_float :=
  if USE_DOUBLE then IEEE.round IEEE.binary64 v else v.
Definition float_of_real (v : spec_float) : spec_float :=
  if USE_DOUBLE then IEEE.round IEEE.binary32 v else v.

(** *** [Scene::nearestIntersection] *)

Definition nearest_update (r : Ray.t) (acc : option SceneObject * spec_float)
    (o : SceneObject) : option SceneObject * spec_float :=
  let hit_t := intersect o r in
  if IEEE.gt hit_t ray_epsilon && IEEE.lt hit_t (snd acc)
  then (Some o, hit_t)
  else acc.

Definition nearestIntersection (world : Scene) (r : Ray.t)
    : option SceneObject * spec_float :=
  fold_left (nearest_update r) (objects world) (None, real_inf).

(** *** [uintToUnitReal] and [wrap01] *)

Definition uint32_double_scale : spec_float :=
  IEEE.div IEEE.binary64 double_one (IEEE.of_Z IEEE.binary64 (2 ^ 32)).

Definition uintToUnitReal (v : Z) : spec_float :=
  if USE_DOUBLE then
    IEEE.mul IEEE.binary64 (IEEE.of_Z IEEE.binary64 v) uint32_double_scale
  else
    IEEE.sub IEEE.binary32
      (IEEE.float_of_bits (Z.lor (Z.shiftr v 9) 1065353216 (* 0x3f800000 *)))
      (IEEE.of_Z IEEE.binary32 1).

Definition wrap01 (u v : spec_float) : spec_float :=
  if IEEE.lt (IEEE.add real u v) (IEEE.of_Z real 1)
  then IEEE.add real u v
  else IEEE.sub real (IEEE.add real u v) (IEEE.of_Z real 1).

(** *** [generateColour]: sampling *)

Definition prime_at (k : Z) : Z := nth (Z.to_nat k) primes 0.

(** [wrap01((real)RadicalInverse(pass, primes[k]), hash_random)] *)
Definition halton_sample (fuel : nat) (pass k : Z) (hash_random : spec_float)
    : option spec_float :=
  match RadicalInverse fuel pass (prime_at k) with
  | Some r => Some (wrap01 (real_of_double r) hash_random)
  | None => None
  end.

Definition pixel_hash (x y frame width height : Z) : spec_float :=
  uintToUnitReal (hash (to_uint32 (frame * width * height + y * width + x))).

(** *** [generateColour]: the camera *)

Definition pi_f : spec_float := IEEE.literal IEEE.binary32 314159265359 100000000000.

Definition camera_ray (x y frame width height frames : Z)
    (pixel_sample_x pixel_sample_y pixel_sample_t : spec_float) : Ray.t :=
  let aspect_ratio := IEEE.div real (IEEE.of_Z real width) (IEEE.of_Z real height) in
  let fov_deg := real_of_float (IEEE.of_Z IEEE.binary32 80) in
  let fov_rad :=
    IEEE.div real (IEEE.mul real fov_deg (real_of_float pi_f)) (IEEE.of_Z real 180) in
  let sensor_width :=
    IEEE.mul real (IEEE.of_Z real 2) (std_tan (IEEE.div real fov_rad (IEEE.of_Z real 2))) in
  let sensor_height := IEEE.div real sensor_width aspect_ratio in
  let cam_lookat := vsplat (IEEE.of_Z real 0) in
  let world_up := Vec3.make (IEEE.of_Z real 0) (IEEE.of_Z real 1) (IEEE.of_Z real 0) in
  let time :=
    if frames <=? 0 then IEEE.of_Z real 0
    else
      IEEE.div real
        (IEEE.mul real
           (real_of_float (IEEE.mul IEEE.binary32 (IEEE.of_Z IEEE.binary32 2) pi_f))
           (IEEE.add real (IEEE.of_Z real frame) pixel_sample_t))
        (IEEE.of_Z real frames) in
  let cos_t := std_cos time in
  let sin_t := std_sin time in
  let cam_pos :=
    vscale real
      (Vec3.make
         (IEEE.add real (IEEE.mul real (IEEE.of_Z real 4) cos_t)
                        (IEEE.mul real (IEEE.of_Z real 10) sin_t))
         (IEEE.of_Z real 5)
         (IEEE.add real (IEEE.mul real (IEEE.of_Z real (-10)) cos_t)
                        (IEEE.mul real (IEEE.of_Z real 4) sin_t)))
      (real_of_float (IEEE.literal IEEE.binary32 25 100)) in
  let cam_forward := normalise real (vsub real cam_lookat cam_pos) in
  let cam_right := cross real world_up cam_forward in
  let cam_up := cross real cam_forward cam_right in
  let pixel_x := vscale real cam_right (IEEE.div real sensor_width (IEEE.of_Z real width)) in
  let pixel_y :=
    vscale real cam_up (IEEE.opp (IEEE.div real sensor_height (IEEE.of_Z real height))) in
  let half := IEEE.literal IEEE.binary32 5 10 in
  let offset_x :=
    IEEE.add real
      (real_of_float
         (IEEE.sub IEEE.binary32 (IEEE.of_Z IEEE.binary32 x)
            (IEEE.mul IEEE.binary32 (IEEE.of_Z IEEE.binary32 width) half)))
      pixel_sample_x in
  let offset_y :=
    IEEE.add real
      (real_of_float
         (IEEE.sub IEEE.binary32 (IEEE.of_Z IEEE.binary32 y)
            (IEEE.mul IEEE.binary32 (IEEE.of_Z IEEE.binary32 height) half)))
      pixel_sample_y in
  let pixel_v :=
    vadd real (vadd real cam_forward (vscale real pixel_x offset_x))
              (vscale real pixel_y offset_y) in
  Ray.make cam_pos (normalise real pixel_v).

(** *** [generateColour]: the body of the bounce loop *)

(** The sky gradient of a ray that leaves the scene. *)
Definition sky_colour (dir : vec3) : vec3 :=
  let two := IEEE.of_Z IEEE.binary32 2 in
  let sky_up :=
    vscale IEEE.binary32
      (Vec3.make (IEEE.literal IEEE.binary32 2 100) (IEEE.literal IEEE.binary32 5 100)
                 (IEEE.literal IEEE.binary32 1 10)) two in
  let sky_hz :=
    vscale IEEE.binary32
      (Vec3.make (IEEE.literal IEEE.binary32 5 100) (IEEE.literal IEEE.binary32 7 100)
                 (IEEE.literal IEEE.binary32 1 10)) two in
  vadd IEEE.binary32 sky_hz
    (vscale IEEE.binary32 (vsub IEEE.binary32 sky_up sky_hz)
       (float_of_real (IEEE.max (IEEE.of_Z real 0) (Vec3.y dir)))).

Definition light_pos : vec3 :=
  Vec3.make (IEEE.of_Z real 8) (IEEE.of_Z real 12) (IEEE.of_Z real (-6)).

Definition light_vec (hit_p : vec3) : vec3 := vsub real light_pos hit_p.
Definition light_ln2 (hit_p : vec3) : spec_float := dot real (light_vec hit_p) (light_vec hit_p).
Definition light_len (hit_p : vec3) : spec_float := IEEE.sqrt real (light_ln2 hit_p).
Definition light_dir (hit_p : vec3) : vec3 :=
  vscale real (light_vec hit_p) (IEEE.div real (IEEE.of_Z real 1) (light_len hit_p)).

(** The reflected light of the fixed point light, [refl_colour]. *)
Definition refl_colour (obj : SceneObject) (normal hit_p : vec3) : vec3 :=
  let n_dot_l := dot real normal (light_dir hit_p) in
  vscale IEEE.binary32
    (vdiv IEEE.binary32
       (vscale IEEE.binary32 (colour obj)
          (IEEE.max (IEEE.of_Z IEEE.binary32 0) (float_of_real n_dot_l)))
       (float_of_real (light_ln2 hit_p)))
    (IEEE.of_Z IEEE.binary32 420).

Definition shadow_ray (hit_p : vec3) : Ray.t := Ray.make hit_p (light_dir hit_p).

(** The test of the [if] that guards the direct light. *)
Definition unoccluded (world : Scene) (hit_p : vec3) : bool :=
  match nearestIntersection world (shadow_ray hit_p) with
  | (None, _) => true
  | (Some _, shadow_nearest_hit_t) => IEEE.ge shadow_nearest_hit_t (light_len hit_p)
  end.

Definition direct_light (world : Scene) (st : PathState) (obj : SceneObject)
    (normal hit_p : vec3) : vec3 :=
  if unoccluded world hit_p
  then vadd IEEE.binary32 (contribution st)
         (vmul IEEE.binary32 (throughput st) (refl_colour obj normal hit_p))
  else contribution st.

(** The cosine-weighted direction of the next bounce. *)
Definition scatter_dir (normal : vec3) (refl_sample_x refl_sample_y : spec_float) : vec3 :=
  let a :=
    IEEE.mul real refl_sample_x
      (real_of_double
         (IEEE.literal IEEE.binary64
            6283185307179586476925286766559 1000000000000000000000000000000)) in
  let s :=
    IEEE.mul real (IEEE.of_Z real 2)
      (IEEE.sqrt real
         (IEEE.max (IEEE.of_Z real 0)
            (IEEE.mul real refl_sample_y
               (IEEE.sub real (IEEE.of_Z real 1) refl_sample_y)))) in
  let sphere :=
    Vec3.make (IEEE.mul real (std_cos a) s) (IEEE.mul real (std_sin a) s)
      (IEEE.sub real (IEEE.of_Z real 1) (IEEE.mul real (IEEE.of_Z real 2) refl_sample_y)) in
  normalise real (vadd real normal sphere).

Definition hit_point (r : Ray.t) (t : spec_float) : vec3 :=
  vadd real (Ray.o r) (vscale real (Ray.d r) t).

Definition loop_body (fuel : nat) (pass : Z) (hash_random : spec_float)
    (world : Scene) (st : PathState) : option Step :=
  match nearestIntersection world (ray st) with
  | (None, _) =>
      Some (Break (vadd IEEE.binary32 (contribution st)
                     (vmul IEEE.binary32 (throughput st) (sky_colour (Ray.d (ray st))))))
  | (Some nearest_hit_obj, nearest_hit_t) =>
      let hit_p := hit_point (ray st) nearest_hit_t in
      let normal := getNormal nearest_hit_obj hit_p in
      let contribution' := direct_light world st nearest_hit_obj normal hit_p in
      let bounce' := bounce st + 1 in
      if bounce' >? max_bounces then Some (Break contribution')
      else
        match halton_sample fuel pass (Z.rem (3 + bounce' * 2 + 0) num_primes) hash_random,
              halton_sample fuel pass (Z.rem (3 + bounce' * 2 + 1) num_primes) hash_random with
        | Some refl_sample_x, Some refl_sample_y =>
            Some (Continue
                    {| ray := Ray.make hit_p (scatter_dir normal refl_sample_x refl_sample_y);
                       throughput := vmul IEEE.binary32 (throughput st) (colour nearest_hit_obj);
                       contribution := contribution';
                       bounce := bounce' |})
        | _, _ => None
        end
  end.

(** The [while (true)] loop: the colour it leaves, and how many times the
    body ran, that is how many intersection tests of the path's own ray
    were made.  [None] when [iterations] runs out first. *)
Fixpoint bounce_loop (fuel : nat) (pass : Z) (hash_random : spec_float)
    (world : Scene) (iterations : nat) (st : PathState) : option (vec3 * nat) :=
  match iterations with
  | O => None
  | S iterations' =>
      match loop_body fuel pass hash_random world st with
      | None => None
      | Some (Break c) => Some (c, 1%nat)
      | Some (Continue st') =>
          match bounce_loop fuel pass hash_random world iterations' st' with
          | Some (c, n) => Some (c, S n)
          | None => None
          end
      end
  end.

(** The accumulated [contribution] when a run of the body is over. *)
Definition contribution_after (step : Step) : vec3 :=
  match step with
  | Break c => c
  | Continue st => contribution st
  end.

Definition initial_state (camera : Ray.t) : PathState :=
  {| ray := camera;
     throughput := vsplat (IEEE.of_Z IEEE.binary32 1);
     contribution := vsplat (IEEE.of_Z IEEE.binary32 0);
     bounce := 0 |}.

(** The primary ray of a pixel. *)
Definition primary_ray (fuel : nat) (x y frame pass width height frames : Z)
    : option Ray.t :=
  let hash_random := pixel_hash x y frame width height in
  match halton_sample fuel pass 0 hash_random,
        halton_sample fuel pass 1 hash_random,
        halton_sample fuel pass 2 hash_random with
  | Some pixel_sample_x, Some pixel_sample_y, Some pixel_sample_t =>
      Some (camera_ray x y frame width height frames
              pixel_sample_x pixel_sample_y pixel_sample_t)
  | _, _, _ => None
  end.

(** [generateColour], with the fuel of its loops: [fuel] for every
    [while (a)] of [RadicalInverse], [iterations] for the bounce loop.
    The second component counts the runs of the bounce loop's body. *)
Definition generateColour_counted (fuel iterations : nat)
    (x y frame pass width height frames : Z) (world : Scene) : option (vec3 * nat) :=
  match primary_ray fuel x y frame pass width height frames with
  | Some camera =>
      bounce_loop fuel pass (pixel_hash x y frame width height) world iterations
        (initial_state camera)
  | None => None
  end.

Definition generateColour (fuel iterations : nat)
    (x y frame pass width height frames : Z) (world : Scene) : option vec3 :=
  option_map fst (generateColour_counted fuel iterations x y frame pass width height frames world).

(** The states that the bounce loop goes through, from a first one. *)
Inductive reaches (fuel : nat) (pass : Z) (hash_random : spec_float) (world : Scene)
  : PathState -> PathState -> Prop :=
| reaches_here (st : PathState) : reaches fuel pass hash_random world st st
| reaches_next (st st' st'' : PathState) :
    loop_body fuel pass hash_random world st = Some (Continue st') ->
    reaches fuel pass hash_random world st' st'' ->
    reaches fuel pass hash_random world st st''.

End Renderer.

(** No channel of the colour of any object of the scene is below zero. *)
Definition colours_not_negative (world : Scene) : Prop :=
  forall o, In o (objects world) -> vforall IEEE.not_negative (colour o) = true.


(* ================================================================== *)
(** ** What [nearestIntersection] returns *)

(** The hit [t] passes the test of the loop against the initial
    [nearest_t = real_inf]: [t > ray_epsilon && t < real_inf]. *)
Definition hit_in_range (ray_epsilon t : spec_float) : bool :=
  IEEE.gt t ray_epsilon && IEEE.lt t real_inf.

(** The result of the query over [objs], as a relation: either no object
    reports a distance in range, or the object at a position of the list
    that is strictly nearer than every object before it that reports a
    distance above [ray_epsilon], and at least as near as every one after. *)
Inductive nearest_spec (ray_epsilon : spec_float) (r : Ray.t) (objs : list SceneObject)
  : option SceneObject * spec_float -> Prop :=
| nearest_none :
    (forall o, In o objs -> hit_in_range ray_epsilon (intersect o r) = false) ->
    nearest_spec ray_epsilon r objs (None, real_inf)
| nearest_some (before : list SceneObject) (o : SceneObject) (after : list SceneObject) :
    objs = before ++ o :: after ->
    hit_in_range ray_epsilon (intersect o r) = true ->
    (forall o', In o' before -> IEEE.gt (intersect o' r) ray_epsilon = true ->
                IEEE.lt (intersect o r) (intersect o' r) = true) ->
    (forall o', In o' after -> IEEE.gt (intersect o' r) ray_epsilon = true ->
                IEEE.le (intersect o r) (intersect o' r) = true) ->
    nearest_spec ray_epsilon r objs (Some o, intersect o r).

(** The last clause of the invariant of the query as it is worded: the hit
    point of a hit that is returned is off the origin of the ray. *)
Definition hit_point_off_origin (USE_DOUBLE : bool) (ray_epsilon : spec_float) : Prop :=
  forall (world : Scene) (r : Ray.t) (o : SceneObject) (t : spec_float),
    nearestIntersection ray_epsilon world r = (Some o, t) ->
    hit_point USE_DOUBLE r t <> Ray.o r.

(* ================================================================== *)
(** ** Example scenes *)

Module Examples.

Definition f32 (n d : positive) : spec_float := IEEE.literal IEEE.binary32 n d.
Definition origin : vec3 := vsplat IEEE.zero.
Definition unit_z : vec3 := Vec3.make IEEE.zero IEEE.zero (IEEE.of_Z IEEE.binary32 1).
Definition white : vec3 := vsplat (IEEE.of_Z IEEE.binary32 1).
Definition ray_z : Ray.t := Ray.make origin unit_z.

(** An object that reports the same distance [t] for every ray. *)
Definition at_distance (t : spec_float) : SceneObject :=
  {| intersect := fun _ => t; getNormal := fun _ => unit_z; colour := white |}.

Definition epsilon : spec_float := f32 1 10000.
Definition one : spec_float := IEEE.of_Z IEEE.binary32 1.
Definition two : spec_float := IEEE.of_Z IEEE.binary32 2.

Definition half : spec_float := f32 1 2.
Definition three_quarters : spec_float := f32 3 4.

Definition two_walls : Scene := {| objects := [at_distance two; at_distance one; at_distance one] |}.

(** A scene that encloses the camera: every ray hits at distance one. *)
Definition enclosing : Scene := {| objects := [at_distance one] |}.

(** Stand-ins for the functions of the C library with the values that a
    still camera ([frames = 0]) asks of them: [cos 0 = 1], [sin 0 = 0], and
    the tangent of half the field of view, forty degrees. *)
Definition cos_still (_ : spec_float) : spec_float := one.
Definition sin_still (_ : spec_float) : spec_float := IEEE.zero.
Definition tan_still (_ : spec_float) : spec_float := f32 8391 10000.

(** The first run of the loop body in the enclosing scene, for the pixel
    [(0, 0)] of a 4 x 4 image at pass 1, and the state it leaves. *)
Definition first_state : PathState :=
  match primary_ray false cos_still sin_still tan_still 33 0 0 0 1 4 4 0 with
  | Some camera => initial_state camera
  | None => initial_state ray_z
  end.

Definition first_hash : spec_float := pixel_hash false 0 0 0 4 4.

Definition second_state : PathState :=
  match loop_body false epsilon cos_still sin_still 33 1 first_hash enclosing first_state with
  | Some (Continue st) => st
  | _ => first_state
  end.

(** A ray along the x axis that starts far from the origin of the scene,
    where the values of the type [real] are four apart ([2 ^ 25] in single
    precision, [2 ^ 54] in double precision), and a wall that every ray
    reaches at distance one. *)
Definition far_ray (USE_DOUBLE : bool) : Ray.t :=
  Ray.make
    (Vec3.make (IEEE.of_Z (real USE_DOUBLE) (if USE_DOUBLE then 2 ^ 54 else 2 ^ 25))
       (IEEE.of_Z (real USE_DOUBLE) 0) (IEEE.of_Z (real USE_DOUBLE) 0))
    (Vec3.make (IEEE.of_Z (real USE_DOUBLE) 1)
       (IEEE.of_Z (real USE_DOUBLE) 0) (IEEE.of_Z (real USE_DOUBLE) 0)).

Definition unit_wall (USE_DOUBLE : bool) : SceneObject :=
  at_distance (IEEE.of_Z (real USE_DOUBLE) 1).

End Examples.

(* ================================================================== *)
(** ** Proof automation *)

(** Comparisons of values whose constructors are known, by their signs. *)
Ltac by_signs :=
  unfold SFltb, SFleb, SFcompare;
  repeat match goal with s : bool |- _ => destruct s end;
  simpl; intros; try discriminate; try reflexivity; auto.

(* ================================================================== *)
(** ** Auxiliary definitions for the rounding lemmas *)

(** The round and sticky bits of a rounding record: something was lost. *)
Definition sticky (mrs : shr_record) : bool := shr_r mrs || shr_s mrs.

(** What [binary_round_aux] builds from the rounded mantissa [m2] at the
    exponent [e1] of the first shift. *)
Definition round_result (prec emax : Z) (sx : bool) (m2 e1 : Z) : spec_float :=
  let e2 := Z.max e1 (fexp prec emax (Zdigits2 m2 + e1)) in
  match m2 / 2 ^ (e2 - e1) with
  | Z0 => S754_zero sx
  | Zpos m => if e2 <=? emax - prec then S754_finite sx m e2 else S754_infinity sx
  | Zneg _ => S754_nan
  end.

(** [x] is zero, or finite and below [2 ^ l] in magnitude. *)
Definition below_pow (l : Z) (x : spec_float) : bool :=
  match x with
  | S754_zero _ => true
  | S754_finite _ m e => Zpos (digits2_pos m) + e <=? l
  | _ => false
  end.

(** [x] is exactly [n / 2 ^ k], for an integer [n] that is not negative. *)
Definition dyadic (x : spec_float) (n k : Z) : bool :=
  match x with
  | S754_zero false => n =? 0
  | S754_finite false m e => (e <=? - k) && (Zpos m =? n * 2 ^ (- k - e))
  | _ => false
  end.

(** [m * 2 ^ e <= n * 2 ^ f], on integers. *)
Definition scaled_le (m e n f : Z) : Prop :=
  m * 2 ^ (e - Z.min e f) <= n * 2 ^ (f - Z.min e f).

(* ================================================================== *)
(** * Properties *)

(* ================================================================== *)
(** ** The order of floating-point values *)

Module IEEEFacts.

Lemma ltb_finite s1 m1 e1 s2 m2 e2 :
  SFltb (S754_finite s1 m1 e1) (S754_finite s2 m2 e2) = true <->
  (s1 = true /\ s2 = false) \/
  (s1 = false /\ s2 = false /\ (e1 < e2 \/ (e1 = e2 /\ (m1 < m2)%positive))) \/
  (s1 = true /\ s2 = true /\ (e2 < e1 \/ (e1 = e2 /\ (m2 < m1)%positive))).
Proof.
  unfold SFltb, SFcompare.
  destruct s1, s2; destruct (Z.compare_spec e1 e2);
    try (change (Pos.compare_cont Eq m1 m2) with (Pos.compare m1 m2);
         destruct (Pos.compare_spec m1 m2)); simpl;
    split; intros; try discriminate; try reflexivity; try lia;
    intuition (try congruence; try lia).
Qed.

Lemma leb_finite s1 m1 e1 s2 m2 e2 :
  SFleb (S754_finite s1 m1 e1) (S754_finite s2 m2 e2) = true <->
  (s1 = true /\ s2 = false) \/
  (s1 = false /\ s2 = false /\ (e1 < e2 \/ (e1 = e2 /\ (m1 <= m2)%positive))) \/
  (s1 = true /\ s2 = true /\ (e2 < e1 \/ (e1 = e2 /\ (m2 <= m1)%positive))).
Proof.
  unfold SFleb, SFcompare.
  destruct s1, s2; destruct (Z.compare_spec e1 e2);
    try (change (Pos.compare_cont Eq m1 m2) with (Pos.compare m1 m2);
         destruct (Pos.compare_spec m1 m2)); simpl;
    split; intros; try discriminate; try reflexivity; try lia;
    intuition (try congruence; try lia).
Qed.

Lemma ltb_trans a b c : SFltb a b = true -> SFltb b c = true -> SFltb a c = true.
Proof.
  destruct a as [sa|sa| |sa ma ea], b as [sb|sb| |sb mb eb], c as [sc|sc| |sc mc ec];
    try (intros H1 H2; apply ltb_finite in H1; apply ltb_finite in H2; apply ltb_finite;
         destruct sa, sb, sc; intuition (try discriminate; try lia));
    by_signs.
Qed.

Lemma ltb_leb_trans a b c : SFltb a b = true -> SFleb b c = true -> SFltb a c = true.
Proof.
  destruct a as [sa|sa| |sa ma ea], b as [sb|sb| |sb mb eb], c as [sc|sc| |sc mc ec];
    try (intros H1 H2; apply ltb_finite in H1; apply leb_finite in H2; apply ltb_finite;
         destruct sa, sb, sc; intuition (try discriminate; try lia));
    by_signs.
Qed.

Lemma leb_ltb_trans a b c : SFleb a b = true -> SFltb b c = true -> SFltb a c = true.
Proof.
  destruct a as [sa|sa| |sa ma ea], b as [sb|sb| |sb mb eb], c as [sc|sc| |sc mc ec];
    try (intros H1 H2; apply leb_finite in H1; apply ltb_finite in H2; apply ltb_finite;
         destruct sa, sb, sc; intuition (try discriminate; try lia));
    by_signs.
Qed.

Lemma ltb_not_nan a b : SFltb a b = true -> IEEE.is_nan a = false /\ IEEE.is_nan b = false.
Proof. destruct a, b; unfold SFltb; simpl; intros; split; congruence. Qed.

Lemma ltb_leb a b : SFltb a b = true -> SFleb a b = true.
Proof.
  unfold SFltb, SFleb. destruct (SFcompare a b) as [[]|]; congruence.
Qed.

Lemma ltb_irrefl a : SFltb a a = false.
Proof.
  destruct a as [sa|sa| |sa ma ea]; try (destruct sa; reflexivity); try reflexivity.
  apply not_true_iff_false. rewrite ltb_finite. destruct sa; intuition (try discriminate; try lia).
Qed.

(** Without NaN the order is total. *)
Lemma not_ltb_leb a b :
  IEEE.is_nan a = false -> IEEE.is_nan b = false -> SFltb a b = false -> SFleb b a = true.
Proof.
  destruct a as [sa|sa| |sa ma ea], b as [sb|sb| |sb mb eb]; try discriminate; intros _ _;
    try (intros H; apply leb_finite; apply not_true_iff_false in H; rewrite ltb_finite in H;
         destruct sa, sb; intuition (try discriminate; try lia));
    by_signs.
Qed.

(** What is not below infinity, and is not NaN, is infinity. *)
Lemma not_below_inf a :
  IEEE.is_nan a = false -> SFltb a IEEE.pinf = false -> a = IEEE.pinf.
Proof. destruct a as [sa|sa| |sa ma ea]; try destruct sa; by_signs. Qed.

End IEEEFacts.

(* ================================================================== *)
(** ** [Scene::nearestIntersection] *)

Section NearestIntersection.

Variable ray_epsilon : spec_float.
Variable r : Ray.t.

Lemma above_epsilon_not_nan t :
  IEEE.gt t ray_epsilon = true -> IEEE.is_nan t = false.
Proof. intros H. apply IEEEFacts.ltb_not_nan in H. tauto. Qed.

(** An object out of range that still reports a distance above
    [ray_epsilon] reports infinity. *)
Lemma out_of_range_above_epsilon t :
  hit_in_range ray_epsilon t = false -> IEEE.gt t ray_epsilon = true -> t = real_inf.
Proof.
  unfold hit_in_range. intros H G. rewrite G in H. simpl in H.
  apply IEEEFacts.not_below_inf; [ now apply above_epsilon_not_nan | exact H ].
Qed.

(** One more object keeps the relation. *)
Lemma nearest_update_spec objs acc o :
  nearest_spec ray_epsilon r objs acc ->
  nearest_spec ray_epsilon r (objs ++ [o]) (nearest_update ray_epsilon r acc o).
Proof.
  intros Hacc. unfold nearest_update.
  destruct (IEEE.gt (intersect o r) ray_epsilon) eqn:Hgt; simpl.
  2:{ destruct Hacc as [Hnone | before o0 after Heq Hin Hb Ha].
      - apply nearest_none. intros o' Ho'. apply in_app_or in Ho' as [Ho' | [<- | []]].
        + now apply Hnone.
        + unfold hit_in_range. now rewrite Hgt.
      - apply nearest_some with (before := before) (after := after ++ [o]);
          [ subst objs; now rewrite <- app_assoc | exact Hin | exact Hb | ].
        intros o' Ho' G. apply in_app_or in Ho' as [Ho' | [<- | []]]; [ now apply Ha | ].
        unfold IEEE.gt in *. congruence. }
  destruct Hacc as [Hnone | before o0 after Heq Hin Hb Ha]; simpl.
  - destruct (IEEE.lt (intersect o r) real_inf) eqn:Hlt.
    + apply nearest_some with (before := objs) (after := []);
        [ reflexivity | unfold hit_in_range; now rewrite Hgt, Hlt | | intros o' [] ].
      intros o' Ho' G.
      rewrite (out_of_range_above_epsilon _ (Hnone o' Ho') G). exact Hlt.
    + apply nearest_none. intros o' Ho'. apply in_app_or in Ho' as [Ho' | [<- | []]].
      * now apply Hnone.
      * unfold hit_in_range. now rewrite Hgt, Hlt.
  - unfold hit_in_range in Hin. apply andb_true_iff in Hin as [Hin1 Hin2].
    destruct (IEEE.lt (intersect o r) (intersect o0 r)) eqn:Hlt.
    + apply nearest_some with (before := objs) (after := []);
        [ reflexivity | | | intros o' [] ].
      * unfold hit_in_range. rewrite Hgt. simpl.
        exact (IEEEFacts.ltb_trans _ _ _ Hlt Hin2).
      * intros o' Ho' G. subst objs.
        apply in_app_or in Ho' as [Ho' | [<- | Ho']].
        -- exact (IEEEFacts.ltb_trans _ _ _ Hlt (Hb o' Ho' G)).
        -- exact Hlt.
        -- exact (IEEEFacts.ltb_leb_trans _ _ _ Hlt (Ha o' Ho' G)).
    + apply nearest_some with (before := before) (after := after ++ [o]);
        [ subst objs; now rewrite <- app_assoc
        | unfold hit_in_range; now rewrite Hin1, Hin2 | exact Hb | ].
      intros o' Ho' G. apply in_app_or in Ho' as [Ho' | [<- | []]]; [ now apply Ha | ].
      apply IEEEFacts.not_ltb_leb; auto; now apply above_epsilon_not_nan.
Qed.

Lemma nearest_fold_spec objs :
  nearest_spec ray_epsilon r objs
    (fold_left (nearest_update ray_epsilon r) objs (None, real_inf)).
Proof.
  induction objs as [| o objs IH] using rev_ind.
  - apply nearest_none. intros o [].
  - rewrite fold_left_app. simpl. now apply nearest_update_spec.
Qed.

End NearestIntersection.

(** Among reports other than infinity, the value that stands for no hit,
    a distance in range is a distance above [ray_epsilon]. *)
Lemma in_range_without_infinity (ray_epsilon t : spec_float) :
  t <> real_inf -> hit_in_range ray_epsilon t = IEEE.gt t ray_epsilon.
Proof.
  intros Ht. unfold hit_in_range.
  destruct (IEEE.gt t ray_epsilon) eqn:G; [ | reflexivity ]. cbn [andb].
  destruct (IEEE.lt t real_inf) eqn:L; [ reflexivity | ].
  exfalso. apply Ht. apply IEEEFacts.not_below_inf; [ | exact L ].
  exact (above_epsilon_not_nan ray_epsilon t G).
Qed.

(** The query in a scene where no object reports infinity: no object and
    [real_inf] when no object reports a distance above [ray_epsilon];
    otherwise the first of the objects whose distance is the least of those
    above [ray_epsilon], with that distance. *)
Lemma nearest_above_epsilon (ray_epsilon : spec_float) (world : Scene) (r : Ray.t) :
  (forall o, In o (objects world) -> intersect o r <> real_inf) ->
  ((forall o, In o (objects world) -> IEEE.gt (intersect o r) ray_epsilon = false) ->
   nearestIntersection ray_epsilon world r = (None, real_inf)) /\
  (forall o, In o (objects world) -> IEEE.gt (intersect o r) ray_epsilon = true ->
   exists before o_min after,
     objects world = before ++ o_min :: after /\
     nearestIntersection ray_epsilon world r = (Some o_min, intersect o_min r) /\
     IEEE.gt (intersect o_min r) ray_epsilon = true /\
     (forall o', In o' before -> IEEE.gt (intersect o' r) ray_epsilon = true ->
                 IEEE.lt (intersect o_min r) (intersect o' r) = true) /\
     (forall o', In o' after -> IEEE.gt (intersect o' r) ray_epsilon = true ->
                 IEEE.le (intersect o_min r) (intersect o' r) = true)).
Proof.
  intros Hfin. unfold nearestIntersection.
  pose proof (nearest_fold_spec ray_epsilon r (objects world)) as S.
  inversion S as [Hnone Heq | before o_min after Hobjs Hrange Hbefore Hafter Heq].
  - split; [ reflexivity | ]. intros o Hin G. exfalso.
    specialize (Hnone o Hin). rewrite in_range_without_infinity in Hnone by auto.
    congruence.
  - assert (Hin : In o_min (objects world))
      by (rewrite Hobjs; apply in_or_app; right; left; reflexivity).
    rewrite in_range_without_infinity in Hrange by auto.
    split.
    + intros Hno. rewrite (Hno o_min Hin) in Hrange. discriminate.
    + intros o _ _. exists before, o_min, after. repeat split; assumption.
Qed.

(** C1.  For every ray and every scene, [nearestIntersection] returns
    either no object together with [real_inf], and then no object reports a
    distance strictly between [ray_epsilon] and infinity (infinity is the
    value that stands for no hit); or an object of the scene together with
    the distance it reports, which is strictly between [ray_epsilon] and
    infinity, strictly below the distance of every object before it in
    iteration order that reports one above [ray_epsilon] (so the first of
    equal minima wins), and not above the distance of any such object after
    it. *)
Theorem nearestIntersection_minimum_in_range (ray_epsilon : spec_float) (world : Scene) (r : Ray.t) :
  nearest_spec ray_epsilon r (objects world) (nearestIntersection ray_epsilon world r).
Proof. apply nearest_fold_spec. Qed.

(** C9 (as amended).  When [nearestIntersection] returns an object, the
    object is one of the scene, the distance returned is the one its
    [intersect] reports for the ray, it is strictly above [ray_epsilon] and
    strictly below infinity, and it is strictly positive as soon as
    [ray_epsilon] is not negative; when it returns no object, the distance
    is [real_inf]. *)
Theorem nearestIntersection_result_invariant
    (ray_epsilon : spec_float) (world : Scene) (r : Ray.t)
    (res : option SceneObject) (t : spec_float) :
  nearestIntersection ray_epsilon world r = (res, t) ->
  match res with
  | Some o =>
      In o (objects world) /\ t = intersect o r /\
      IEEE.gt t ray_epsilon = true /\ IEEE.lt t real_inf = true /\
      (IEEE.le IEEE.zero ray_epsilon = true -> IEEE.gt t IEEE.zero = true)
  | None => t = real_inf
  end.
Proof.
  intros H.
  pose proof (nearest_fold_spec ray_epsilon r (objects world)) as S.
  fold (nearestIntersection ray_epsilon world r) in S. rewrite H in S. inversion S as [Hnone | before o after Heq Hin Hb Ha]; subst.
  - reflexivity.
  - unfold hit_in_range in Hin. apply andb_true_iff in Hin as [Hin1 Hin2].
    repeat split; auto.
    + rewrite Heq. apply in_or_app. right. now left.
    + intros Hz. exact (IEEEFacts.leb_ltb_trans _ _ _ Hz Hin1).
Qed.

Lemma nearestIntersection_result_invariant_witness :
  let world := Examples.two_walls in
  In (Examples.at_distance Examples.one) (objects world) /\
  Examples.one = intersect (Examples.at_distance Examples.one) Examples.ray_z /\
  IEEE.gt Examples.one Examples.epsilon = true /\
  IEEE.lt Examples.one real_inf = true /\
  (IEEE.le IEEE.zero Examples.epsilon = true -> IEEE.gt Examples.one IEEE.zero = true).
Proof.
  exact (nearestIntersection_result_invariant Examples.epsilon Examples.two_walls
           Examples.ray_z (Some (Examples.at_distance Examples.one)) Examples.one
           eq_refl).
Defined.

(** C9, the last clause as it is worded, fails: the hit point
    [ray.o + ray.d * t] of a hit that is returned can be the origin of the
    ray.  In the arithmetic of the type [real], a ray that starts where the
    values are four apart and hits at distance one has its hit point rounded
    back to its origin; this holds in single and in double precision, and
    whatever the value of [ray_epsilon] below one. *)
Lemma nearestIntersection_hit_point_at_origin :
  ~ (exists USE_DOUBLE ray_epsilon,
        IEEE.lt ray_epsilon (IEEE.of_Z (real USE_DOUBLE) 1) = true /\
        hit_point_off_origin USE_DOUBLE ray_epsilon).
Proof.
  intros [USE_DOUBLE [eps [Heps Hclaim]]].
  apply (Hclaim {| objects := [Examples.unit_wall USE_DOUBLE] |} (Examples.far_ray USE_DOUBLE)
           (Examples.unit_wall USE_DOUBLE) (IEEE.of_Z (real USE_DOUBLE) 1)).
  - unfold nearestIntersection, nearest_update, IEEE.gt.
    cbn [objects fold_left Examples.unit_wall Examples.at_distance intersect snd].
    unfold IEEE.lt in Heps. rewrite Heps. destruct USE_DOUBLE; reflexivity.
  - destruct USE_DOUBLE; vm_compute; reflexivity.
Qed.

(* ================================================================== *)
(** ** [hash] *)

Module HashFacts.

(** Truncating the 64-bit product to 32 bits forgets the 64-bit wrap. *)
Lemma to_uint32_wrap_int64 z : to_uint32 (wrap_int64 z) = z mod 2 ^ 32.
Proof.
  unfold to_uint32, wrap_int64.
  rewrite Zminus_mod, Z.mod_mod_divide by (exists (2 ^ 32); reflexivity).
  rewrite <- Zminus_mod. f_equal. lia.
Qed.

Lemma to_uint32_range z : in_uint32 (to_uint32 z).
Proof. unfold in_uint32, to_uint32. apply Z.mod_pos_bound. lia. Qed.

Lemma in_uint32_testbit z :
  0 <= z -> (in_uint32 z <-> forall n, 32 <= n -> Z.testbit z n = false).
Proof.
  intros Hz. unfold in_uint32. split.
  - intros [_ H] n Hn.
    destruct (Z.eq_dec z 0) as [-> | Hnz]; [ apply Z.bits_0 | ].
    apply Z.bits_above_log2; [ lia | ].
    assert (Z.log2 z < 32) by (apply Z.log2_lt_pow2; lia). lia.
  - intros H. split; [ exact Hz | ].
    destruct (Z.eq_dec z 0) as [-> | Hnz]; [ lia | ].
    apply Z.log2_lt_pow2; [ lia | ].
    destruct (Z_lt_ge_dec (Z.log2 z) 32) as [Hl | Hl]; [ exact Hl | ].
    pose proof (Z.bit_log2 z ltac:(lia)) as B. rewrite H in B by lia. discriminate.
Qed.

Lemma lxor_uint32 a b : in_uint32 a -> in_uint32 b -> in_uint32 (Z.lxor a b).
Proof.
  intros Ha Hb.
  assert (Pa : 0 <= a) by (unfold in_uint32 in Ha; lia).
  assert (Pb : 0 <= b) by (unfold in_uint32 in Hb; lia).
  assert (0 <= Z.lxor a b) by (apply Z.lxor_nonneg; lia).
  apply in_uint32_testbit; [ assumption | ].
  intros n Hn. rewrite Z.lxor_spec.
  rewrite (proj1 (in_uint32_testbit a Pa) Ha n Hn).
  rewrite (proj1 (in_uint32_testbit b Pb) Hb n Hn). reflexivity.
Qed.

Lemma shiftr_uint32 a k : 0 <= k -> in_uint32 a -> in_uint32 (Z.shiftr a k).
Proof.
  intros Hk [Ha0 Ha]. rewrite Z.shiftr_div_pow2 by lia. unfold in_uint32. split.
  - apply Z.div_pos; lia.
  - apply Z.le_lt_trans with a; [ | lia ].
    apply Z.div_le_upper_bound; [ lia | ].
    assert (1 <= 2 ^ k) by (apply Z.pow_le_mono_r with (b := 0) (c := k) (a := 2); lia).
    nia.
Qed.

(** The xor-shift stage stays within 32 bits, as the [uint32_t] it is
    stored in. *)
Lemma xor_shift_range x k1 k2 :
  0 <= k2 -> in_uint32 x ->
  in_uint32 (Z.lxor x (Z.lxor (to_uint32 (Z.shiftl x k1)) (Z.shiftr x k2))).
Proof.
  intros Hk Hx. apply lxor_uint32; [ exact Hx | ].
  apply lxor_uint32; [ apply to_uint32_range | now apply shiftr_uint32 ].
Qed.

(** Xor with a 32-bit constant commutes with the conversion to [uint32_t]. *)
Lemma lxor_to_uint32 x c :
  in_uint32 c -> to_uint32 (Z.lxor (to_uint32 x) c) = to_uint32 (Z.lxor x c).
Proof.
  intros Hc. unfold to_uint32. apply Z.bits_inj'. intros n Hn.
  change (2 ^ 32) with (2 ^ 32).
  destruct (Z_lt_ge_dec n 32) as [Hl | Hl].
  - rewrite !Z.mod_pow2_bits_low, !Z.lxor_spec, Z.mod_pow2_bits_low by lia. reflexivity.
  - rewrite !Z.mod_pow2_bits_high by lia. reflexivity.
Qed.

End HashFacts.

(** C6.  [hash] is the fixed mix of the specification: multiply by
    2654435769 after xor with 12345391, xor with the shifts by 6 and 26,
    multiply by 2654435769 again, add the xor of the shifts by 5 and 12,
    every stage modulo [2 ^ 32].  Its result is a 32-bit value that depends
    on the 32 bits of its argument only, and three of its values are
    fixed here bit for bit. *)
Theorem hash_is_integerHash (x : Z) :
  hash x = HashSpec.integerHash x /\
  in_uint32 (hash x) /\
  hash (to_uint32 x) = hash x /\
  (hash 0 = 155489619 /\ hash 1 = 548517411 /\ hash 4294967295 = 3295136063).
Proof.
  assert (E : forall y, hash y = HashSpec.integerHash y).
  { intros y. unfold hash, HashSpec.integerHash, HashSpec.add_shift, HashSpec.multiply,
      HashSpec.xor_shift, HashSpec.shl, HashSpec.shr, HashSpec.multiplier,
      HashSpec.xor_constant, HashSpec.modulus.
    rewrite !HashFacts.to_uint32_wrap_int64.
    unfold to_uint32.
    rewrite !Z.shiftl_mul_pow2, !Z.shiftr_div_pow2 by lia. reflexivity. }
  split; [ apply E | ].
  split; [ unfold hash; apply HashFacts.to_uint32_range | ].
  split; [ | repeat split; vm_compute; reflexivity ].
  rewrite !E. unfold HashSpec.integerHash. do 3 f_equal.
  unfold HashSpec.multiply, HashSpec.xor_constant, HashSpec.modulus.
  rewrite <- Zmult_mod_idemp_l.
  rewrite <- (Zmult_mod_idemp_l (Z.lxor x 12345391)).
  f_equal. f_equal.
  apply (HashFacts.lxor_to_uint32 x 12345391). unfold in_uint32. lia.
Qed.

(* ================================================================== *)
(** ** Rounding *)

Module ShiftFacts.

(** The number of binary digits. *)
Lemma digits2_pos_bounds (m : positive) :
  2 ^ (Zpos (digits2_pos m) - 1) <= Zpos m < 2 ^ Zpos (digits2_pos m).
Proof.
  induction m as [m IH | m IH |]; simpl digits2_pos.
  - rewrite Pos2Z.inj_succ. change (Zpos m~1) with (2 * Zpos m + 1).
    replace (Z.succ (Zpos (digits2_pos m)) - 1) with (Z.succ (Zpos (digits2_pos m) - 1)) by lia.
    rewrite !Z.pow_succ_r by lia. lia.
  - rewrite Pos2Z.inj_succ. change (Zpos m~0) with (2 * Zpos m).
    replace (Z.succ (Zpos (digits2_pos m)) - 1) with (Z.succ (Zpos (digits2_pos m) - 1)) by lia.
    rewrite !Z.pow_succ_r by lia. lia.
  - simpl. lia.
Qed.

Lemma Zdigits2_bounds m : 0 < m -> 2 ^ (Zdigits2 m - 1) <= m < 2 ^ Zdigits2 m.
Proof. destruct m; try lia. intros _. apply digits2_pos_bounds. Qed.

Lemma Zdigits2_pos m : 0 < m -> 0 < Zdigits2 m.
Proof. destruct m; simpl; lia. Qed.

Lemma Zdigits2_nonneg m : 0 <= Zdigits2 m.
Proof. destruct m; simpl; lia. Qed.

Lemma Zdigits2_unique m d : 0 < d -> 2 ^ (d - 1) <= m < 2 ^ d -> Zdigits2 m = d.
Proof.
  intros Hd [Hl Hu].
  assert (Hm : 0 < m) by (assert (0 < 2 ^ (d - 1)) by (apply Z.pow_pos_nonneg; lia); lia).
  destruct (Zdigits2_bounds m Hm) as [Bl Bu].
  pose proof (Zdigits2_pos m Hm) as Hp.
  destruct (Z.lt_trichotomy (Zdigits2 m) d) as [H | [H | H]]; [ | exact H | ].
  - assert (2 ^ Zdigits2 m <= 2 ^ (d - 1)) by (apply Z.pow_le_mono_r; lia). lia.
  - assert (2 ^ d <= 2 ^ (Zdigits2 m - 1)) by (apply Z.pow_le_mono_r; lia). lia.
Qed.

(** [m < 2 ^ d] says that [m] has at most [d] digits. *)
Lemma Zdigits2_le m d : 0 <= m -> 0 <= d -> (Zdigits2 m <= d <-> m < 2 ^ d).
Proof.
  intros Hm Hd.
  destruct (Z.eq_dec m 0) as [-> | Hnz].
  { simpl. split; intros; [ apply Z.pow_pos_nonneg; lia | lia ]. }
  destruct (Zdigits2_bounds m ltac:(lia)) as [Bl Bu].
  pose proof (Zdigits2_pos m ltac:(lia)) as Hp.
  split; intros H.
  - assert (2 ^ Zdigits2 m <= 2 ^ d) by (apply Z.pow_le_mono_r; lia). lia.
  - destruct (Z_le_gt_dec (Zdigits2 m) d) as [L | L]; [ exact L | ].
    assert (2 ^ d <= 2 ^ (Zdigits2 m - 1)) by (apply Z.pow_le_mono_r; lia). lia.
Qed.

Lemma Zdigits2_mono a b : 0 <= a <= b -> Zdigits2 a <= Zdigits2 b.
Proof.
  intros [Ha Hab].
  destruct (Z.eq_dec b 0) as [-> | Hb]; [ replace a with 0 by lia; lia | ].
  apply Zdigits2_le; [ lia | apply Zdigits2_nonneg | ].
  destruct (Zdigits2_bounds b ltac:(lia)). lia.
Qed.

Lemma Zdigits2_mul_pow m k : 0 < m -> 0 <= k -> Zdigits2 (m * 2 ^ k) = Zdigits2 m + k.
Proof.
  intros Hm Hk. destruct (Zdigits2_bounds m Hm) as [Bl Bu].
  pose proof (Zdigits2_pos m Hm) as Hp.
  assert (0 < 2 ^ k) by (apply Z.pow_pos_nonneg; lia).
  apply Zdigits2_unique; [ lia | ].
  replace (Zdigits2 m + k - 1) with ((Zdigits2 m - 1) + k) by lia.
  rewrite !Z.pow_add_r by lia. nia.
Qed.

(** Dropping [k] low digits. *)
Lemma Zdigits2_div_pow m k :
  0 < m -> 0 <= k -> k < Zdigits2 m -> Zdigits2 (m / 2 ^ k) = Zdigits2 m - k.
Proof.
  intros Hm Hk Hlt. destruct (Zdigits2_bounds m Hm) as [Bl Bu].
  assert (P : 0 < 2 ^ k) by (apply Z.pow_pos_nonneg; lia).
  apply Zdigits2_unique; [ lia | ]. split.
  - apply Z.div_le_lower_bound; [ exact P | ].
    rewrite <- Z.pow_add_r by lia. replace (k + (Zdigits2 m - k - 1)) with (Zdigits2 m - 1) by lia.
    exact Bl.
  - apply Z.div_lt_upper_bound; [ exact P | ].
    rewrite <- Z.pow_add_r by lia. replace (k + (Zdigits2 m - k)) with (Zdigits2 m) by lia.
    exact Bu.
Qed.

Lemma div_pow_small m k : 0 <= m -> 0 <= k -> Zdigits2 m <= k -> m / 2 ^ k = 0.
Proof.
  intros Hm Hk H. apply Z.div_small. split; [ exact Hm | ].
  now apply Zdigits2_le.
Qed.

(** One more: the number of digits grows by one at a power of two only. *)
Lemma Zdigits2_succ m :
  0 <= m -> Zdigits2 (m + 1) = Zdigits2 m \/ (m + 1 = 2 ^ Zdigits2 m /\ Zdigits2 (m + 1) = Zdigits2 m + 1).
Proof.
  intros Hm. destruct (Z.eq_dec m 0) as [-> | Hnz]; [ right; split; reflexivity | ].
  destruct (Zdigits2_bounds m ltac:(lia)) as [Bl Bu].
  pose proof (Zdigits2_pos m ltac:(lia)) as Hp.
  destruct (Z.eq_dec (m + 1) (2 ^ Zdigits2 m)) as [E | N].
  - right. split; [ exact E | ]. apply Zdigits2_unique; [ lia | ].
    replace (Zdigits2 m + 1 - 1) with (Zdigits2 m) by lia.
    rewrite Z.pow_add_r by lia. lia.
  - left. apply Zdigits2_unique; [ lia | ]. lia.
Qed.

(** One shift of the rounding record. *)
Lemma shr_1_spec mrs :
  0 <= shr_m mrs ->
  shr_m (shr_1 mrs) = shr_m mrs / 2 /\
  (sticky (shr_1 mrs) = false <-> sticky mrs = false /\ shr_m mrs mod 2 = 0).
Proof.
  destruct mrs as [m r s]. unfold sticky. simpl shr_m. intros Hm.
  rewrite <- Z.div2_div.
  destruct m as [| [q | q |] | q]; try lia; simpl; (split; [ reflexivity | ]);
    try change (Zpos q~1) with (2 * Zpos q + 1);
    try change (Zpos q~0) with (2 * Zpos q);
    rewrite ?orb_false_iff;
    try (replace (2 * Zpos q + 1) with (1 + Zpos q * 2) by lia; rewrite Z_mod_plus_full);
    try (replace (2 * Zpos q) with (0 + Zpos q * 2) by lia; rewrite Z_mod_plus_full);
    change (1 mod 2) with 1; change (0 mod 2) with 0;
    destruct r, s; simpl; intuition (try discriminate; try lia).
Qed.

Lemma iter_shr_1_spec (n : positive) : forall mrs,
  0 <= shr_m mrs ->
  shr_m (iter_pos shr_1 n mrs) = shr_m mrs / 2 ^ Zpos n /\
  (sticky (iter_pos shr_1 n mrs) = false <->
   sticky mrs = false /\ shr_m mrs mod 2 ^ Zpos n = 0).
Proof.
  assert (Step : forall a b (f g : shr_record -> shr_record),
    0 < a -> 0 < b ->
    (forall mrs, 0 <= shr_m mrs ->
       shr_m (f mrs) = shr_m mrs / 2 ^ a /\
       (sticky (f mrs) = false <-> sticky mrs = false /\ shr_m mrs mod 2 ^ a = 0)) ->
    (forall mrs, 0 <= shr_m mrs ->
       shr_m (g mrs) = shr_m mrs / 2 ^ b /\
       (sticky (g mrs) = false <-> sticky mrs = false /\ shr_m mrs mod 2 ^ b = 0)) ->
    forall mrs, 0 <= shr_m mrs ->
       shr_m (g (f mrs)) = shr_m mrs / 2 ^ (a + b) /\
       (sticky (g (f mrs)) = false <-> sticky mrs = false /\ shr_m mrs mod 2 ^ (a + b) = 0)).
  { intros a b f g Ha Hb Hf Hg mrs Hm.
    destruct (Hf mrs Hm) as [Fm Fs].
    assert (Pa : 0 < 2 ^ a) by (apply Z.pow_pos_nonneg; lia).
    assert (Pb : 0 < 2 ^ b) by (apply Z.pow_pos_nonneg; lia).
    assert (Hfm : 0 <= shr_m (f mrs)) by (rewrite Fm; apply Z.div_pos; lia).
    destruct (Hg (f mrs) Hfm) as [Gm Gs].
    rewrite Gm, Gs, Fm, Fs, Z.pow_add_r, Z.div_div by lia.
    split; [ reflexivity | ].
    rewrite Z.rem_mul_r by lia.
    pose proof (Z.mod_pos_bound (shr_m mrs) (2 ^ a) Pa).
    pose proof (Z.mod_pos_bound (shr_m mrs / 2 ^ a) (2 ^ b) Pb).
    intuition nia. }
  induction n as [n IH | n IH |]; intros mrs Hm.
  - simpl iter_pos.
    replace (Zpos n~1) with ((1 + Zpos n) + Zpos n) by lia.
    apply (Step (1 + Zpos n) (Zpos n) (fun x => iter_pos shr_1 n (shr_1 x)) (iter_pos shr_1 n));
      try lia; auto.
    apply (Step 1 (Zpos n) shr_1 (iter_pos shr_1 n)); try lia; auto.
    intros x Hx. change (2 ^ 1) with 2. now apply shr_1_spec.
  - simpl iter_pos.
    replace (Zpos n~0) with (Zpos n + Zpos n) by lia.
    apply (Step (Zpos n) (Zpos n) (iter_pos shr_1 n) (iter_pos shr_1 n)); try lia; auto.
  - simpl iter_pos. change (2 ^ 1) with 2. now apply shr_1_spec.
Qed.

(** [shr] by [k] binary places. *)
Lemma shr_spec mrs e k :
  0 <= shr_m mrs ->
  let '(mrs', e') := shr mrs e k in
  e' = e + Z.max 0 k /\
  shr_m mrs' = shr_m mrs / 2 ^ Z.max 0 k /\
  (sticky mrs' = false <-> sticky mrs = false /\ shr_m mrs mod 2 ^ Z.max 0 k = 0).
Proof.
  intros Hm. unfold shr. destruct k as [| k | k].
  - simpl Z.max. rewrite Z.add_0_r. change (2 ^ 0) with 1. rewrite Z.div_1_r, Z.mod_1_r. tauto.
  - rewrite Z.max_r by lia. destruct (iter_shr_1_spec k mrs Hm) as [Im Is]. tauto.
  - rewrite Z.max_l by lia. rewrite Z.add_0_r. change (2 ^ 0) with 1.
    rewrite Z.div_1_r, Z.mod_1_r. tauto.
Qed.

Lemma sticky_of_loc m l : sticky (shr_record_of_loc m l) = false <-> l = loc_Exact.
Proof. destruct l as [| []]; unfold sticky; simpl; intuition discriminate. Qed.

Lemma shr_m_of_loc m l : shr_m (shr_record_of_loc m l) = m.
Proof. destruct l as [| []]; reflexivity. Qed.

Lemma loc_of_sticky mrs : sticky mrs = false -> loc_of_shr_record mrs = loc_Exact.
Proof. destruct mrs as [m [] []]; unfold sticky; simpl; intros; try discriminate; reflexivity. Qed.

Lemma round_nearest_even_bounds m l :
  m <= round_nearest_even m l <= m + 1 /\ (l = loc_Exact -> round_nearest_even m l = m).
Proof.
  destruct l as [| []]; simpl; try destruct (Z.even m); split; intros; try discriminate; try lia.
Qed.

Section Format.

Variables prec emax : Z.

(** The first shift of [binary_round_aux]: to the exponent [fexp] asks for,
    when that is above the present one. *)
Lemma shr_fexp_spec m e l :
  0 <= m ->
  let '(mrs', e') := shr_fexp prec emax m e l in
  e' = Z.max e (fexp prec emax (Zdigits2 m + e)) /\
  shr_m mrs' = m / 2 ^ (e' - e) /\
  (sticky mrs' = false <-> l = loc_Exact /\ m mod 2 ^ (e' - e) = 0).
Proof.
  intros Hm. unfold shr_fexp.
  pose proof (shr_spec (shr_record_of_loc m l) e (fexp prec emax (Zdigits2 m + e) - e)) as S.
  rewrite shr_m_of_loc in S. specialize (S Hm).
  destruct (shr (shr_record_of_loc m l) e (fexp prec emax (Zdigits2 m + e) - e)) as [mrs' e'].
  destruct S as [Se [Sm Ss]].
  assert (K : e' - e = Z.max 0 (fexp prec emax (Zdigits2 m + e) - e)) by lia.
  rewrite K. split; [ lia | ]. split; [ exact Sm | ].
  rewrite Ss, sticky_of_loc. tauto.
Qed.

(** The shape of a rounding: the mantissa is shifted to the exponent [e1],
    moved up by at most one, and never when nothing was lost. *)
Lemma binary_round_aux_spec sx m e l :
  0 <= m ->
  let e1 := Z.max e (fexp prec emax (Zdigits2 m + e)) in
  exists m2,
    m / 2 ^ (e1 - e) <= m2 <= m / 2 ^ (e1 - e) + 1 /\
    (l = loc_Exact -> m mod 2 ^ (e1 - e) = 0 -> m2 = m / 2 ^ (e1 - e)) /\
    binary_round_aux prec emax sx m e l = round_result prec emax sx m2 e1.
Proof.
  intros Hm e1. unfold binary_round_aux.
  pose proof (shr_fexp_spec m e l Hm) as S1.
  destruct (shr_fexp prec emax m e l) as [mrs' e'].
  destruct S1 as [E1 [M1 S1]]. fold e1 in E1. subst e'.
  set (m2 := round_nearest_even (shr_m mrs') (loc_of_shr_record mrs')).
  destruct (round_nearest_even_bounds (shr_m mrs') (loc_of_shr_record mrs')) as [B1 B2].
  fold m2 in B1, B2.
  assert (P : 0 < 2 ^ (e1 - e)) by (apply Z.pow_pos_nonneg; unfold e1; lia).
  assert (H1 : 0 <= shr_m mrs') by (rewrite M1; apply Z.div_pos; lia).
  exists m2. split; [ rewrite <- M1; exact B1 | ]. split.
  - intros -> Hz. rewrite <- M1. apply B2. apply loc_of_sticky. apply S1. tauto.
  - pose proof (shr_fexp_spec m2 e1 loc_Exact ltac:(lia)) as S2.
    destruct (shr_fexp prec emax m2 e1 loc_Exact) as [mrs'' e''].
    destruct S2 as [E2 [M2 _]]. unfold round_result. rewrite <- E2, M2. reflexivity.
Qed.

End Format.

End ShiftFacts.

Module RoundFacts.

Import ShiftFacts.

Section Format.

Variables prec emax : Z.
Hypothesis prec_pos : 0 < prec.

Local Abbreviation fexp := (SpecFloat.fexp prec emax).
Local Abbreviation emin := (SpecFloat.emin prec emax).

Lemma fexp_eq x : fexp x = Z.max (x - prec) emin.
Proof. reflexivity. Qed.

Lemma emin_eq : emin = 3 - emax - prec.
Proof. reflexivity. Qed.

Lemma round_result_cases sx m2 e1 :
  0 <= m2 ->
  let e2 := Z.max e1 (fexp (Zdigits2 m2 + e1)) in
  (m2 / 2 ^ (e2 - e1) = 0 /\ round_result prec emax sx m2 e1 = S754_zero sx) \/
  (exists m3, Zpos m3 = m2 / 2 ^ (e2 - e1) /\ e2 <= emax - prec /\
              round_result prec emax sx m2 e1 = S754_finite sx m3 e2) \/
  (0 < m2 / 2 ^ (e2 - e1) /\ emax - prec < e2 /\
   round_result prec emax sx m2 e1 = S754_infinity sx).
Proof.
  intros Hm e2. unfold round_result. fold e2.
  assert (P : 0 < 2 ^ (e2 - e1)) by (apply Z.pow_pos_nonneg; unfold e2; lia).
  pose proof (Z.div_pos m2 (2 ^ (e2 - e1)) Hm P) as D.
  destruct (m2 / 2 ^ (e2 - e1)) as [| m3 | m3] eqn:E; [ left; tauto | | lia ].
  right. destruct (Z.leb_spec e2 (emax - prec)).
  - left. exists m3. tauto.
  - right. split; [ lia | tauto ].
Qed.

(** The mantissa after the first shift, when the exponent is not above the
    one [fexp] asks for: either it keeps room for the exponent [e1], or it
    is gone and [e1] is the least exponent. *)
Lemma first_shift_digits m e :
  0 <= m -> e <= fexp (Zdigits2 m + e) ->
  let e1 := fexp (Zdigits2 m + e) in
  let m1 := m / 2 ^ (e1 - e) in
  (0 < m1 /\ Zdigits2 m1 + e1 = Zdigits2 m + e) \/ (m1 = 0 /\ e1 = emin).
Proof.
  intros Hm He e1 m1.
  destruct (Z_lt_ge_dec (e1 - e) (Zdigits2 m)) as [L | G].
  - left. assert (Hm' : 0 < m) by (destruct m; simpl in L; lia).
    unfold m1. rewrite Zdigits2_div_pow by (unfold e1 in *; lia).
    split; [ | lia ].
    assert (D : 0 < Zdigits2 (m / 2 ^ (e1 - e))) by (rewrite Zdigits2_div_pow; unfold e1 in *; lia).
    assert (0 <= m / 2 ^ (e1 - e))
      by (apply Z.div_pos; [ lia | apply Z.pow_pos_nonneg; unfold e1 in *; lia ]).
    destruct (Z.eq_dec (m / 2 ^ (e1 - e)) 0) as [Z0 | N]; [ rewrite Z0 in D; simpl in D; lia | lia ].
  - right. split.
    + apply div_pow_small; unfold e1 in *; lia.
    + pose proof (Zdigits2_nonneg m). unfold e1 in *. rewrite fexp_eq in *. lia.
Qed.

Lemma Zdigits2_pow2 d : 0 <= d -> Zdigits2 (2 ^ d) = d + 1.
Proof.
  intros Hd. apply Zdigits2_unique; [ lia | ].
  replace (d + 1 - 1) with d by lia. rewrite Z.pow_add_r by lia. 
  assert (0 < 2 ^ d) by (apply Z.pow_pos_nonneg; lia). lia.
Qed.

(** A rounding that starts at or below the exponent [fexp] asks for ends
    on a value of the format. *)
Lemma binary_round_aux_valid sx m e l :
  0 <= m -> e <= fexp (Zdigits2 m + e) ->
  valid_binary prec emax (binary_round_aux prec emax sx m e l) = true.
Proof.
  intros Hm He.
  destruct (binary_round_aux_spec prec emax sx m e l Hm) as [m2 [B [_ ->]]].
  rewrite Z.max_r in * by exact He.
  pose proof (first_shift_digits m e Hm He) as F. cbv zeta in F.
  pose proof (fexp_eq (Zdigits2 m + e)) as D1.
  assert (P : 0 < 2 ^ (fexp (Zdigits2 m + e) - e)) by (apply Z.pow_pos_nonneg; lia).
  pose proof (Z.div_pos m _ Hm P) as Hm1.
  revert B F D1 Hm1. clear P.
  generalize (fexp (Zdigits2 m + e)) (m / 2 ^ (fexp (Zdigits2 m + e) - e)).
  intros e1 m1 B F D1 Hm1.
  assert (Hm2 : 0 <= m2) by lia.
  destruct (round_result_cases sx m2 e1 Hm2) as [[_ ->] | [[m3 [E3 [Le ->]]] | [_ [_ ->]]]];
    try reflexivity.
  simpl. unfold bounded, canonical_mantissa. apply andb_true_iff. split; [ | now apply Z.leb_le ].
  apply Z.eqb_eq. change (Zpos (digits2_pos m3)) with (Zdigits2 (Zpos m3)). rewrite E3.
  clear E3 m3 Le.
  destruct F as [[P1 F] | [Z1 F]].
  - (* the shifted mantissa is positive *)
    assert (C : m2 = m1 \/ m2 = m1 + 1) by lia.
    destruct C as [-> | ->].
    + assert (E2 : Z.max e1 (fexp (Zdigits2 m1 + e1)) = e1) by (rewrite fexp_eq; lia).
      rewrite E2, Z.sub_diag, Z.div_1_r, fexp_eq. lia.
    + destruct (Zdigits2_succ m1 ltac:(lia)) as [S | [S1 S2]].
      * assert (E2 : Z.max e1 (fexp (Zdigits2 (m1 + 1) + e1)) = e1) by (rewrite fexp_eq; lia).
        rewrite E2, Z.sub_diag, Z.div_1_r, fexp_eq. lia.
      * pose proof (Zdigits2_pos m1 P1) as Dp.
        destruct (Z_le_gt_dec emin (Zdigits2 m1 + e1 - prec)) as [N | N].
        -- (* a normal number: one more shift *)
           assert (Dm : Zdigits2 m1 = prec) by lia.
           assert (E2 : Z.max e1 (fexp (Zdigits2 (m1 + 1) + e1)) = e1 + 1)
             by (rewrite fexp_eq; lia).
           rewrite E2. replace (e1 + 1 - e1) with 1 by lia.
           rewrite S1. change (2 ^ 1) with 2.
           replace (2 ^ Zdigits2 m1) with (2 ^ (Zdigits2 m1 - 1) * 2).
           2:{ rewrite Z.mul_comm, <- Z.pow_succ_r by lia. f_equal. lia. }
           rewrite Z.div_mul by lia.
           rewrite Zdigits2_pow2, fexp_eq by lia. lia.
        -- (* a subnormal number: it stays at the least exponent *)
           assert (E2 : Z.max e1 (fexp (Zdigits2 (m1 + 1) + e1)) = e1)
             by (rewrite fexp_eq; lia).
           rewrite E2, Z.sub_diag, Z.div_1_r, fexp_eq. lia.
  - (* nothing is left of the mantissa but the rounding *)
    assert (C : m2 = 0 \/ m2 = 1) by lia.
    destruct C as [-> | ->].
    + rewrite Z.div_0_l by (apply Z.pow_nonzero; [ lia | rewrite fexp_eq; lia ]).
      simpl Zdigits2. rewrite !fexp_eq. lia.
    + assert (E2 : Z.max e1 (fexp (Zdigits2 1 + e1)) = e1)
        by (rewrite fexp_eq; simpl Zdigits2; lia).
      rewrite E2, Z.sub_diag, Z.div_1_r. rewrite fexp_eq. simpl Zdigits2. lia.
Qed.

End Format.

End RoundFacts.

Module AlignFacts.

Import ShiftFacts RoundFacts.

Lemma iter_xO m d : Zpos (Pos.iter xO m d) = Zpos m * 2 ^ Zpos d.
Proof.
  change (Pos.iter xO m d) with (Zpower.shift_pos d m).
  rewrite Zpower.shift_pos_correct. change (Z.pow_pos 2 d) with (2 ^ Zpos d). lia.
Qed.

(** [shl_align] brings a mantissa down to the lower of two exponents. *)
Lemma shl_align_spec m e e' :
  let '(mz, ez) := shl_align m e e' in
  ez = Z.min e e' /\ Zpos mz = Zpos m * 2 ^ (e - ez).
Proof.
  unfold shl_align. destruct (e' - e) as [| d | d] eqn:D.
  - rewrite Z.min_l by lia. rewrite Z.sub_diag. split; [ reflexivity | simpl; lia ].
  - rewrite Z.min_l by lia. rewrite Z.sub_diag. split; [ reflexivity | simpl; lia ].
  - rewrite Z.min_r by lia. split; [ reflexivity | ].
    rewrite iter_xO. f_equal. f_equal. lia.
Qed.

Lemma fst_shl_align m e e' :
  e' <= e -> Zpos (fst (shl_align m e e')) = Zpos m * 2 ^ (e - e').
Proof.
  intros H. pose proof (shl_align_spec m e e') as S.
  destruct (shl_align m e e') as [mz ez]. destruct S as [-> S]. simpl.
  rewrite S. rewrite Z.min_r by lia. reflexivity.
Qed.

Section Format.

Variables prec emax : Z.
Hypothesis prec_pos : 0 < prec.

Local Abbreviation fexp := (SpecFloat.fexp prec emax).
Local Abbreviation emin := (SpecFloat.emin prec emax).

(** [binary_round] is [binary_round_aux] on the aligned mantissa. *)
Lemma binary_round_eq sx m e :
  let e' := Z.min e (fexp (Zdigits2 (Zpos m) + e)) in
  binary_round prec emax sx m e =
  binary_round_aux prec emax sx (Zpos m * 2 ^ (e - e')) e' loc_Exact /\
  Zdigits2 (Zpos m * 2 ^ (e - e')) + e' = Zdigits2 (Zpos m) + e.
Proof.
  intros e'. unfold binary_round.
  pose proof (shl_align_spec m e (fexp (Zpos (digits2_pos m) + e))) as S.
  destruct (shl_align m e (fexp (Zpos (digits2_pos m) + e))) as [mz ez].
  destruct S as [-> S]. fold e'. rewrite S. split; [ reflexivity | ].
  rewrite Zdigits2_mul_pow by (unfold e'; lia). lia.
Qed.

Lemma binary_round_valid sx m e :
  valid_binary prec emax (binary_round prec emax sx m e) = true.
Proof.
  destruct (binary_round_eq sx m e) as [-> D].
  apply binary_round_aux_valid; [ exact prec_pos | | ].
  - apply Z.mul_nonneg_nonneg; [ lia | apply Z.pow_nonneg; lia ].
  - rewrite D. lia.
Qed.

(** A value that fits the format is rounded to itself. *)
Lemma binary_round_exact sx m e :
  fexp (Zdigits2 (Zpos m) + e) <= e ->
  binary_round prec emax sx m e =
  if fexp (Zdigits2 (Zpos m) + e) <=? emax - prec
  then S754_finite sx (Z.to_pos (Zpos m * 2 ^ (e - fexp (Zdigits2 (Zpos m) + e))))
         (fexp (Zdigits2 (Zpos m) + e))
  else S754_infinity sx.
Proof.
  intros He. set (e' := fexp (Zdigits2 (Zpos m) + e)).
  destruct (binary_round_eq sx m e) as [-> D].
  rewrite Z.min_r in * by exact He. fold e' in D |- *.
  assert (P : 0 < Zpos m * 2 ^ (e - e')).
  { apply Z.mul_pos_pos; [ lia | apply Z.pow_pos_nonneg; unfold e'; lia ]. }
  destruct (binary_round_aux_spec prec emax sx (Zpos m * 2 ^ (e - e')) e' loc_Exact ltac:(lia))
    as [m2 [_ [Ex ->]]].
  rewrite D in *. fold e' in Ex |- *. rewrite Z.max_id in *.
  rewrite Z.sub_diag in Ex. change (2 ^ 0) with 1 in Ex.
  rewrite Z.mod_1_r, Z.div_1_r in Ex. rewrite (Ex eq_refl eq_refl).
  unfold round_result. rewrite D. fold e'. rewrite Z.max_id, Z.sub_diag, Z.div_1_r.
  destruct (Zpos m * 2 ^ (e - e')) as [| q | q] eqn:Q; try lia. reflexivity.
Qed.

End Format.

End AlignFacts.

Module BoundFacts.

Import ShiftFacts RoundFacts AlignFacts.

Lemma scaled_le_iff g m e n f :
  g <= e -> g <= f -> (scaled_le m e n f <-> m * 2 ^ (e - g) <= n * 2 ^ (f - g)).
Proof.
  intros He Hf. unfold scaled_le.
  set (g0 := Z.min e f).
  assert (P : 0 < 2 ^ (g0 - g)) by (apply Z.pow_pos_nonneg; unfold g0; lia).
  replace (e - g) with ((e - g0) + (g0 - g)) by lia.
  replace (f - g) with ((f - g0) + (g0 - g)) by lia.
  rewrite !Z.pow_add_r by (unfold g0; lia).
  rewrite !Z.mul_assoc.
  split; intros H.
  - apply Z.mul_le_mono_nonneg_r; [ lia | exact H ].
  - apply Z.mul_le_mono_pos_r in H; [ exact H | exact P ].
Qed.

(** The order of magnitude follows the order. *)
Lemma scaled_le_digits m e n f :
  0 < m -> scaled_le m e n f -> Zdigits2 m + e <= Zdigits2 n + f.
Proof.
  intros Hm H. unfold scaled_le in H. set (g := Z.min e f) in *.
  assert (Pe : 0 < 2 ^ (e - g)) by (apply Z.pow_pos_nonneg; unfold g; lia).
  assert (Pf : 0 < 2 ^ (f - g)) by (apply Z.pow_pos_nonneg; unfold g; lia).
  assert (Hn : 0 < n) by nia.
  destruct (Zdigits2_bounds m Hm) as [Ml _].
  destruct (Zdigits2_bounds n Hn) as [_ Nu].
  pose proof (Zdigits2_pos m Hm). pose proof (Zdigits2_pos n Hn).
  assert (L : 2 ^ (Zdigits2 m - 1 + (e - g)) < 2 ^ (Zdigits2 n + (f - g))).
  { rewrite !Z.pow_add_r by (unfold g; lia). nia. }
  apply Z.pow_lt_mono_r_iff in L; unfold g in *; lia.
Qed.

Section Format.

Variables prec emax : Z.
Hypothesis prec_pos : 0 < prec.

Local Abbreviation fexp := (SpecFloat.fexp prec emax).
Local Abbreviation emin := (SpecFloat.emin prec emax).

(** Rounding does not step over a value of the format: what is at most
    [n * 2 ^ f] is rounded to at most [n * 2 ^ f]. *)
Lemma binary_round_aux_le sx m e n f :
  0 < m -> e <= fexp (Zdigits2 m + e) ->
  Zdigits2 n <= prec -> emin <= f -> f <= emax - prec ->
  scaled_le m e n f ->
  binary_round_aux prec emax sx m e loc_Exact = S754_zero sx \/
  exists m3 e2,
    binary_round_aux prec emax sx m e loc_Exact = S754_finite sx m3 e2 /\
    scaled_le (Zpos m3) e2 n f /\ e2 <= f.
Proof.
  intros Hm He Hn Hf1 Hf2 Hle.
  destruct (binary_round_aux_spec prec emax sx m e loc_Exact ltac:(lia)) as [m2 [B [Ex ->]]].
  rewrite Z.max_r in * by exact He.
  pose proof (scaled_le_digits m e n f Hm Hle) as Lv.
  pose proof (fexp_eq prec emax (Zdigits2 m + e)) as D1.
  set (e1 := fexp (Zdigits2 m + e)) in *.
  assert (E1f : e1 <= f) by lia.
  specialize (Ex eq_refl).
  assert (Pk : 0 < 2 ^ (e1 - e)) by (apply Z.pow_pos_nonneg; lia).
  (* the rounded mantissa is below the bound, at the exponent [e1] *)
  assert (B2 : m2 <= n * 2 ^ (f - e1)).
  { apply (scaled_le_iff e) in Hle; [ | lia | lia ].
    rewrite Z.sub_diag, Z.mul_1_r in Hle.
    replace (f - e) with ((f - e1) + (e1 - e)) in Hle by lia.
    rewrite Z.pow_add_r, Z.mul_assoc in Hle by lia.
    set (b := n * 2 ^ (f - e1)) in *.
    assert (M1 : m / 2 ^ (e1 - e) <= b).
    { apply Z.div_le_upper_bound; [ exact Pk | lia ]. }
    destruct (Z.eq_dec (m / 2 ^ (e1 - e)) b) as [E | N]; [ | lia ].
    assert (m mod 2 ^ (e1 - e) = 0).
    { pose proof (Z.div_mod m (2 ^ (e1 - e)) ltac:(lia)) as DM.
      pose proof (Z.mod_pos_bound m (2 ^ (e1 - e)) Pk). rewrite E in DM. lia. }
    rewrite Ex by assumption. lia. }
  assert (Hm1 : 0 <= m / 2 ^ (e1 - e)) by (apply Z.div_pos; lia).
  assert (Hm2 : 0 <= m2) by lia.
  destruct (round_result_cases prec emax sx m2 e1 Hm2) as [[_ ->] | [[m3 [E3 [Le ->]]] | [Pos3 [Ov _]]]].
  - left. reflexivity.
  - right. exists m3, (Z.max e1 (fexp (Zdigits2 m2 + e1))).
    set (e2 := Z.max e1 (fexp (Zdigits2 m2 + e1))) in *.
    assert (Hm2' : 0 < m2).
    { destruct (Z.eq_dec m2 0) as [Z0 | N0]; [ | lia ].
      rewrite Z0, Z.div_0_l in E3 by (apply Z.pow_nonzero; unfold e2; lia). lia. }
    assert (S2 : scaled_le m2 e1 n f).
    { apply (scaled_le_iff e1); [ lia | lia | ]. rewrite Z.sub_diag, Z.mul_1_r. exact B2. }
    pose proof (scaled_le_digits m2 e1 n f Hm2' S2) as Lv2.
    assert (E2f : e2 <= f) by (unfold e2; rewrite fexp_eq; lia).
    split; [ reflexivity | ]. split; [ | exact E2f ].
    apply (scaled_le_iff e1); [ unfold e2; lia | lia | ].
    rewrite E3.
    assert (P2 : 0 < 2 ^ (e2 - e1)) by (apply Z.pow_pos_nonneg; unfold e2; lia).
    pose proof (Z.mul_div_le m2 (2 ^ (e2 - e1)) P2). lia.
  - exfalso.
    assert (Hm2' : 0 < m2).
    { destruct (Z.eq_dec m2 0) as [Z0 | N0]; [ | lia ].
      rewrite Z0, Z.div_0_l in Pos3 by (apply Z.pow_nonzero; lia). lia. }
    assert (S2 : scaled_le m2 e1 n f).
    { apply (scaled_le_iff e1); [ lia | lia | ]. rewrite Z.sub_diag, Z.mul_1_r. exact B2. }
    pose proof (scaled_le_digits m2 e1 n f Hm2' S2) as Lv2.
    rewrite fexp_eq in Ov. lia.
Qed.

Lemma binary_round_le sx m e n f :
  Zdigits2 n <= prec -> emin <= f -> f <= emax - prec ->
  scaled_le (Zpos m) e n f ->
  binary_round prec emax sx m e = S754_zero sx \/
  exists m3 e2,
    binary_round prec emax sx m e = S754_finite sx m3 e2 /\
    scaled_le (Zpos m3) e2 n f /\ e2 <= f.
Proof.
  intros Hn Hf1 Hf2 Hle.
  destruct (binary_round_eq prec emax sx m e) as [-> D].
  set (e' := Z.min e (fexp (Zdigits2 (Zpos m) + e))) in *.
  assert (P : 0 < 2 ^ (e - e')) by (apply Z.pow_pos_nonneg; unfold e'; lia).
  apply binary_round_aux_le; try assumption.
  - nia.
  - rewrite D. unfold e'. lia.
  - set (g := Z.min e' f).
    apply (scaled_le_iff g); [ unfold g; lia | unfold g; lia | ].
    apply (scaled_le_iff g) in Hle; [ | unfold g, e'; lia | unfold g; lia ].
    rewrite <- Z.mul_assoc, <- Z.pow_add_r by (unfold g, e'; lia).
    replace (e - e' + (e' - g)) with (e - g) by lia. exact Hle.
Qed.

(** The order of magnitude of a rounded value, whatever was lost before:
    at most one binary place above that of the value rounded, or above the
    least exponent. *)
Lemma binary_round_aux_below sx m e l :
  0 <= m -> Z.max (Zdigits2 m + e) emin + 1 <= emax - prec ->
  below_pow (Z.max (Zdigits2 m + e) emin + 1) (binary_round_aux prec emax sx m e l) = true.
Proof.
  intros Hm Hl.
  destruct (binary_round_aux_spec prec emax sx m e l Hm) as [m2 [B [_ ->]]].
  set (e1 := Z.max e (fexp (Zdigits2 m + e))) in *.
  assert (E1 : e1 = Z.max e (Z.max (Zdigits2 m + e - prec) emin))
    by (unfold e1; rewrite fexp_eq; reflexivity).
  clearbody e1.
  assert (Pk : 0 < 2 ^ (e1 - e)) by (apply Z.pow_pos_nonneg; lia).
  assert (Hm1 : 0 <= m / 2 ^ (e1 - e)) by (apply Z.div_pos; lia).
  assert (Hm2 : 0 <= m2) by lia.
  pose proof (Zdigits2_nonneg m) as Dm.
  (* the order of magnitude after the first shift and the rounding *)
  assert (L2 : m2 = 0 \/ Zdigits2 m2 + e1 <= Z.max (Zdigits2 m + e) emin + 1).
  { destruct (Z_lt_ge_dec (e1 - e) (Zdigits2 m)) as [L | G].
    - assert (Hm' : 0 < m) by (destruct m; simpl in L; lia).
      pose proof (Zdigits2_div_pow m (e1 - e) Hm' ltac:(lia) L) as D.
      right.
      assert (Zdigits2 m2 <= Zdigits2 (m / 2 ^ (e1 - e)) + 1).
      { destruct (Zdigits2_succ (m / 2 ^ (e1 - e)) Hm1) as [S | [_ S]];
          pose proof (Zdigits2_mono m2 (m / 2 ^ (e1 - e) + 1) ltac:(lia)); lia. }
      lia.
    - assert (Z1 : m / 2 ^ (e1 - e) = 0) by (apply div_pow_small; lia).
      assert (C : m2 = 0 \/ m2 = 1) by lia.
      destruct C as [-> | ->]; [ now left | right ].
      simpl Zdigits2. lia. }
  pose proof (round_result_cases prec emax sx m2 e1 Hm2) as R. cbv zeta in R.
  set (e2 := Z.max e1 (fexp (Zdigits2 m2 + e1))) in *.
  assert (E2 : e2 = Z.max e1 (Z.max (Zdigits2 m2 + e1 - prec) emin))
    by (unfold e2; rewrite fexp_eq; reflexivity).
  clearbody e2.
  assert (P2 : 2 ^ (e2 - e1) <> 0) by (apply Z.pow_nonzero; lia).
  destruct R as [[_ ->] | [[m3 [E3 [Le ->]]] | [Pos3 [Ov _]]]].
  - reflexivity.
  - unfold below_pow. apply Z.leb_le. change (Zpos (digits2_pos m3)) with (Zdigits2 (Zpos m3)).
    rewrite E3.
    destruct L2 as [Z0 | L2].
    + rewrite Z0, Z.div_0_l in E3 by exact P2. lia.
    + destruct (Z_lt_ge_dec (e2 - e1) (Zdigits2 m2)) as [L | G].
      * assert (Hm2' : 0 < m2) by (destruct m2; simpl in L; lia).
        rewrite Zdigits2_div_pow by lia. lia.
      * rewrite div_pow_small in E3 by lia. lia.
  - exfalso.
    destruct L2 as [Z0 | L2].
    + rewrite Z0, Z.div_0_l in Pos3 by exact P2. lia.
    + assert (Hm2' : 0 < m2).
      { destruct (Z.eq_dec m2 0) as [Z0 | N0]; [ | lia ].
        rewrite Z0, Z.div_0_l in Pos3 by exact P2. lia. }
      pose proof (Zdigits2_pos m2 Hm2'). lia.
Qed.

End Format.

End BoundFacts.

(* ================================================================== *)
(** ** Signs of the results of the operations *)

Module SignFacts.

Import ShiftFacts RoundFacts AlignFacts.

Section Format.

Variables prec emax : Z.

Lemma round_result_sign sx m2 e1 :
  0 <= m2 -> IEEE.has_sign sx (round_result prec emax sx m2 e1) = true.
Proof.
  intros Hm.
  destruct (round_result_cases prec emax sx m2 e1 Hm) as [[_ ->] | [[m3 [_ [_ ->]]] | [_ [_ ->]]]];
    simpl; apply eqb_reflx.
Qed.

Lemma binary_round_aux_sign sx m e l :
  0 <= m -> IEEE.has_sign sx (binary_round_aux prec emax sx m e l) = true.
Proof.
  intros Hm.
  destruct (binary_round_aux_spec prec emax sx m e l Hm) as [m2 [B [_ ->]]].
  apply round_result_sign.
  assert (0 <= m / 2 ^ (Z.max e (fexp prec emax (Zdigits2 m + e)) - e)).
  { apply Z.div_pos; [ exact Hm | apply Z.pow_pos_nonneg; lia ]. }
  lia.
Qed.

Lemma binary_round_sign sx m e :
  IEEE.has_sign sx (binary_round prec emax sx m e) = true.
Proof.
  destruct (binary_round_eq prec emax sx m e) as [-> _].
  apply binary_round_aux_sign.
  apply Z.mul_nonneg_nonneg; [ lia | apply Z.pow_nonneg; lia ].
Qed.

Lemma has_sign_false_clear x : IEEE.has_sign false x = true -> IEEE.sign_clear x = true.
Proof. destruct x as [[]|[]| |[] ? ?]; simpl; congruence. Qed.

Lemma sign_clear_not_negative x : IEEE.sign_clear x = true -> IEEE.not_negative x = true.
Proof. destruct x as [[]|[]| |[] ? ?]; simpl; congruence. Qed.

Lemma has_sign_false_not_negative x : IEEE.has_sign false x = true -> IEEE.not_negative x = true.
Proof. intros H. now apply sign_clear_not_negative, has_sign_false_clear. Qed.

(** Products. *)
Lemma SFmul_not_negative x y :
  IEEE.not_negative x = true -> IEEE.not_negative y = true ->
  IEEE.not_negative (SFmul prec emax x y) = true.
Proof.
  destruct x as [[]|[]| |[] mx ex], y as [[]|[]| |[] my ey]; simpl; try congruence; intros _ _.
  apply has_sign_false_not_negative, binary_round_aux_sign. lia.
Qed.

Lemma SFmul_square_sign_clear x : IEEE.sign_clear (SFmul prec emax x x) = true.
Proof.
  destruct x as [[]|[]| |[] mx ex]; simpl; try reflexivity;
    apply has_sign_false_clear, binary_round_aux_sign; lia.
Qed.

(** Sums. *)
Lemma SFadd_not_negative x y :
  IEEE.not_negative x = true -> IEEE.not_negative y = true ->
  IEEE.not_negative (SFadd prec emax x y) = true.
Proof.
  destruct x as [[]|[]| |[] mx ex], y as [[]|[]| |[] my ey]; simpl; try congruence; intros _ _.
  apply has_sign_false_not_negative, binary_round_sign.
Qed.

Lemma SFadd_sign_clear x y :
  IEEE.sign_clear x = true -> IEEE.sign_clear y = true ->
  IEEE.sign_clear (SFadd prec emax x y) = true.
Proof.
  destruct x as [[]|[]| |[] mx ex], y as [[]|[]| |[] my ey]; simpl; try congruence; intros _ _.
  apply has_sign_false_clear, binary_round_sign.
Qed.

(** Quotients, by a divisor whose sign bit is clear. *)
Lemma SFdiv_core_binary_nonneg m1 e1 m2 e2 :
  0 <= m1 -> 0 < m2 ->
  0 <= fst (fst (SFdiv_core_binary prec emax m1 e1 m2 e2)).
Proof.
  intros H1 H2. unfold SFdiv_core_binary.
  set (e' := Z.min _ _). set (s := e1 - e2 - e').
  set (m' := match s with Z0 => m1 | Zpos _ => Z.shiftl m1 s | Zneg _ => 0 end).
  assert (Hm' : 0 <= m').
  { unfold m'. destruct s; try lia. apply Z.shiftl_nonneg. exact H1. }
  pose proof (Z_div_mod m' m2 ltac:(lia)) as D.
  destruct (Z.div_eucl m' m2) as [q r]. simpl.
  destruct D as [D1 D2]. nia.
Qed.

Lemma SFdiv_not_negative x y :
  IEEE.not_negative x = true -> IEEE.sign_clear y = true ->
  IEEE.not_negative (SFdiv prec emax x y) = true.
Proof.
  destruct x as [[]|[]| |[] mx ex], y as [[]|[]| |[] my ey]; simpl; try congruence; intros _ _.
  pose proof (SFdiv_core_binary_nonneg (Zpos mx) ex (Zpos my) ey ltac:(lia) ltac:(lia)) as Q.
  destruct (SFdiv_core_binary prec emax (Zpos mx) ex (Zpos my) ey) as [[q e'] l]. simpl in Q.
  apply has_sign_false_not_negative, binary_round_aux_sign. exact Q.
Qed.

(** Conversions. *)
Lemma round_not_negative x :
  IEEE.not_negative x = true ->
  IEEE.not_negative (IEEE.round (IEEE.Format prec emax) x) = true.
Proof.
  destruct x as [[]|[]| |[] mx ex]; simpl; try congruence; intros _.
  apply has_sign_false_not_negative, binary_round_sign.
Qed.

Lemma round_sign_clear x :
  IEEE.sign_clear x = true ->
  IEEE.sign_clear (IEEE.round (IEEE.Format prec emax) x) = true.
Proof.
  destruct x as [[]|[]| |[] mx ex]; simpl; try congruence; intros _.
  apply has_sign_false_clear, binary_round_sign.
Qed.

Lemma of_Z_sign_clear z : 0 <= z -> IEEE.sign_clear (IEEE.of_Z (IEEE.Format prec emax) z) = true.
Proof.
  intros Hz. unfold IEEE.of_Z, binary_normalize. simpl.
  destruct z as [| p | p]; try lia; [ reflexivity | ].
  apply has_sign_false_clear, binary_round_sign.
Qed.

End Format.

(** [std::max] against zero. *)
Lemma max_zero_sign_clear x : IEEE.sign_clear (IEEE.max IEEE.zero x) = true.
Proof.
  unfold IEEE.max, IEEE.lt, IEEE.zero.
  destruct x as [[]|[]| |[] mx ex]; reflexivity.
Qed.

Lemma max_zero_cases x :
  IEEE.max IEEE.zero x = IEEE.zero \/ (IEEE.max IEEE.zero x = x /\ IEEE.lt IEEE.zero x = true).
Proof.
  unfold IEEE.max. destruct (IEEE.lt IEEE.zero x); [ right | left ]; tauto.
Qed.

End SignFacts.

(* ================================================================== *)
(** ** [wrap01] *)

Module WrapFacts.

Import ShiftFacts RoundFacts AlignFacts BoundFacts.

Section Format.

Variables prec emax : Z.
Hypothesis prec_pos : 0 < prec.
Hypothesis emax_min : 3 <= emax.

Local Abbreviation fexp := (SpecFloat.fexp prec emax).
Local Abbreviation emin := (SpecFloat.emin prec emax).

Lemma cond_Zopp_false x : cond_Zopp false x = x.
Proof. reflexivity. Qed.

(** The value one of the format. *)
Lemma pow_prec_pos : 0 < 2 ^ (prec - 1).
Proof. apply Z.pow_pos_nonneg; lia. Qed.

Lemma one_mantissa : Zpos (Z.to_pos (2 ^ (prec - 1))) = 2 ^ (prec - 1).
Proof. apply Z2Pos.id. apply pow_prec_pos. Qed.

Lemma pow_prec_double : 2 ^ prec = 2 * 2 ^ (prec - 1).
Proof. rewrite <- Z.pow_succ_r by lia. f_equal. lia. Qed.

(** A value of the format that is at least zero and below one: a zero, or
    a positive mantissa below [2 ^ prec] at an exponent of at most
    [- prec]. *)
Lemma unit_interval_shape u :
  valid_binary prec emax u = true ->
  SFleb (S754_zero false) u = true ->
  SFltb u (S754_finite false (Z.to_pos (2 ^ (prec - 1))) (1 - prec)) = true ->
  (exists s, u = S754_zero s) \/
  (exists m e, u = S754_finite false m e /\ e <= - prec /\ Zpos m < 2 ^ prec).
Proof.
  destruct u as [s | [] | | [] m e]; try discriminate.
  - intros _ _ _. left. now exists s.
  - intros V _ L. right. exists m, e. split; [ reflexivity | ].
    apply IEEEFacts.ltb_finite in L.
    simpl in V. unfold bounded, canonical_mantissa in V.
    apply andb_true_iff in V as [C _]. apply Z.eqb_eq in C.
    rewrite fexp_eq, emin_eq in C.
    change (Z.pos (digits2_pos m)) with (Zdigits2 (Zpos m)) in C.
    assert (D : Zdigits2 (Zpos m) <= prec) by lia.
    apply Zdigits2_le in D; try lia. split; [ | exact D ].
    destruct L as [[? ?] | [[_ [_ L]] | [? _]]]; try discriminate.
    destruct L as [L | [E L]]; [ lia | ].
    exfalso.
    assert (Zpos m < 2 ^ (prec - 1)).
    { rewrite <- one_mantissa. exact L. }
    assert (Zdigits2 (Zpos m) <= prec - 1) by (apply Zdigits2_le; lia).
    lia.
Qed.

Lemma digits_pred_pow : Zdigits2 (2 ^ prec - 1) <= prec.
Proof.
  pose proof pow_prec_pos. pose proof pow_prec_double.
  apply Zdigits2_le; lia.
Qed.

(** The sum of two positive values below one is below two. *)
Lemma sum_below_two mu eu mv ev :
  eu <= - prec -> Zpos mu < 2 ^ prec ->
  ev <= - prec -> Zpos mv < 2 ^ prec ->
  let s := SFadd prec emax (S754_finite false mu eu) (S754_finite false mv ev) in
  s = S754_zero false \/
  exists m3 e2,
    s = S754_finite false m3 e2 /\ e2 <= 1 - prec /\ (e2 = 1 - prec -> Zpos m3 < 2 ^ prec).
Proof.
  intros Eu Mu Ev Mv. unfold SFadd. rewrite !cond_Zopp_false.
  set (ez := Z.min eu ev).
  rewrite !fst_shl_align by (unfold ez; lia).
  assert (Pu : 0 < 2 ^ (eu - ez)) by (apply Z.pow_pos_nonneg; unfold ez; lia).
  assert (Pv : 0 < 2 ^ (ev - ez)) by (apply Z.pow_pos_nonneg; unfold ez; lia).
  set (M := Zpos mu * 2 ^ (eu - ez) + Zpos mv * 2 ^ (ev - ez)).
  assert (HM : 0 < M) by (unfold M; nia).
  destruct M as [| M' | M'] eqn:EM; try lia. unfold binary_normalize.
  assert (Hem : emin <= 1 - prec) by (rewrite emin_eq; lia).
  assert (S : scaled_le (Zpos M') ez (2 ^ prec - 1) (1 - prec)).
  { apply (scaled_le_iff ez); [ lia | unfold ez; lia | ].
    rewrite Z.sub_diag, Z.mul_1_r, <- EM. unfold M.
    replace (1 - prec - ez) with (1 + (- prec - ez)) by lia.
    rewrite Z.pow_add_r by (unfold ez; lia). change (2 ^ 1) with 2.
    assert (Qu : 2 ^ (eu - ez) <= 2 ^ (- prec - ez)) by (apply Z.pow_le_mono_r; lia).
    assert (Qv : 2 ^ (ev - ez) <= 2 ^ (- prec - ez)) by (apply Z.pow_le_mono_r; lia).
    assert (Zpos mu * 2 ^ (eu - ez) <= (2 ^ prec - 1) * 2 ^ (- prec - ez)) by nia.
    assert (Zpos mv * 2 ^ (ev - ez) <= (2 ^ prec - 1) * 2 ^ (- prec - ez)) by nia.
    lia. }
  destruct (binary_round_le prec emax false M' ez (2 ^ prec - 1) (1 - prec)
              digits_pred_pow Hem ltac:(lia) S) as [Z0 | [m3 [e2 [R [S3 E2]]]]].
  - left. exact Z0.
  - right. exists m3, e2. split; [ exact R | ]. split; [ exact E2 | ].
    intros ->. apply (scaled_le_iff (1 - prec)) in S3; try lia.
    rewrite Z.sub_diag, !Z.mul_1_r in S3. lia.
Qed.

(** Taking one away from a value between one and two is exact, and leaves a
    value that is at least zero and below one. *)
Lemma minus_one_in_unit_interval m3 :
  2 ^ (prec - 1) <= Zpos m3 < 2 ^ prec ->
  let one := S754_finite false (Z.to_pos (2 ^ (prec - 1))) (1 - prec) in
  let d := SFsub prec emax (S754_finite false m3 (1 - prec)) one in
  SFleb (S754_zero false) d = true /\ SFltb d one = true.
Proof.
  intros [Lo Hi] one d. unfold d, one, SFsub. rewrite !cond_Zopp_false.
  replace (IntDef.Z.min (1 - prec) (1 - prec)) with (1 - prec) by (symmetry; apply Z.min_id).
  rewrite !fst_shl_align by lia.
  rewrite Z.sub_diag, !Z.mul_1_r, one_mantissa.
  pose proof pow_prec_pos as P. pose proof pow_prec_double as P2.
  destruct (Zpos m3 - 2 ^ (prec - 1)) as [| D | D] eqn:ED; try lia.
  - simpl. split; reflexivity.
  - unfold binary_normalize.
    assert (Dd : Zdigits2 (Zpos D) <= prec - 1) by (apply Zdigits2_le; lia).
    pose proof (Zdigits2_pos (Zpos D) ltac:(lia)) as Dp.
    assert (F : fexp (Zdigits2 (Zpos D) + (1 - prec)) <= - prec)
      by (rewrite fexp_eq, emin_eq; lia).
    rewrite binary_round_exact by lia.
    assert (Fe : fexp (Zdigits2 (Zpos D) + (1 - prec)) <= emax - prec) by lia.
    apply Z.leb_le in Fe. rewrite Fe. split; [ reflexivity | ].
    apply IEEEFacts.ltb_finite. right. left. repeat split. left. lia.
Qed.

(** [wrap01] on the unit interval, at any format: the sum when it is below
    one, the sum less one otherwise, and in both cases a value that is at
    least zero and below one. *)
Lemma wrap_closed u v :
  let one := S754_finite false (Z.to_pos (2 ^ (prec - 1))) (1 - prec) in
  let w :=
    if SFltb (SFadd prec emax u v) one
    then SFadd prec emax u v
    else SFsub prec emax (SFadd prec emax u v) one in
  valid_binary prec emax u = true -> valid_binary prec emax v = true ->
  SFleb (S754_zero false) u = true -> SFltb u one = true ->
  SFleb (S754_zero false) v = true -> SFltb v one = true ->
  SFleb (S754_zero false) w = true /\ SFltb w one = true.
Proof.
  intros one w Vu Vv Pu Lu Pv Lv.
  destruct (unit_interval_shape u Vu Pu Lu) as [[su ->] | [mu [eu [-> [Eu Mu]]]]];
    destruct (unit_interval_shape v Vv Pv Lv) as [[sv ->] | [mv [ev [-> [Ev Mv]]]]].
  - (* zero and zero *)
    unfold w. assert (Z : exists s, SFadd prec emax (S754_zero su) (S754_zero sv) = S754_zero s)
      by (destruct su, sv; simpl; eauto).
    destruct Z as [s ->]. destruct s; simpl; split; reflexivity.
  - (* zero and a positive value *)
    unfold w. simpl SFadd. fold one. rewrite Lv. split; assumption.
  - unfold w. simpl SFadd. fold one. rewrite Lu. split; assumption.
  - (* two positive values *)
    unfold w.
    destruct (sum_below_two mu eu mv ev Eu Mu Ev Mv) as [Z | [m3 [e2 [R [E2 M3]]]]];
      cbv zeta in *.
    + rewrite Z. simpl. split; reflexivity.
    + rewrite R.
      destruct (SFltb (S754_finite false m3 e2) one) eqn:L.
      * split; [ reflexivity | exact L ].
      * apply not_true_iff_false in L. unfold one in L. rewrite IEEEFacts.ltb_finite in L.
        assert (E : e2 = 1 - prec) by lia. subst e2.
        apply minus_one_in_unit_interval.
        specialize (M3 eq_refl). split; [ | exact M3 ].
        rewrite <- one_mantissa.
        destruct (Z_le_gt_dec (Zpos (Z.to_pos (2 ^ (prec - 1)))) (Zpos m3)) as [G | G];
          [ exact G | ].
        exfalso. apply L. right. left. repeat split. right. split; [ reflexivity | ].
        apply Pos2Z.pos_lt_pos. lia.
Qed.

End Format.

End WrapFacts.

(** C8.  For all [u] and [v] of the type [real] that are at least zero and
    below one, [wrap01 u v] is the sum [u + v] when the sum is below one
    and the sum less one otherwise, and it is at least zero and below one.
    The sum and the difference are those of the floating-point type, at
    either precision. *)
Theorem wrap01_unit_interval (USE_DOUBLE : bool) (u v : spec_float) :
  IEEE.valid (real USE_DOUBLE) u = true ->
  IEEE.valid (real USE_DOUBLE) v = true ->
  IEEE.le IEEE.zero u = true -> IEEE.lt u (IEEE.of_Z (real USE_DOUBLE) 1) = true ->
  IEEE.le IEEE.zero v = true -> IEEE.lt v (IEEE.of_Z (real USE_DOUBLE) 1) = true ->
  let sum := IEEE.add (real USE_DOUBLE) u v in
  let one := IEEE.of_Z (real USE_DOUBLE) 1 in
  (IEEE.lt sum one = true -> wrap01 USE_DOUBLE u v = sum) /\
  (IEEE.lt sum one = false -> wrap01 USE_DOUBLE u v = IEEE.sub (real USE_DOUBLE) sum one) /\
  IEEE.le IEEE.zero (wrap01 USE_DOUBLE u v) = true /\
  IEEE.lt (wrap01 USE_DOUBLE u v) one = true.
Proof.
  intros Vu Vv Pu Lu Pv Lv sum one.
  split; [ intros H; unfold wrap01; fold sum; fold one; now rewrite H | ].
  split; [ intros H; unfold wrap01; fold sum; fold one; now rewrite H | ].
  unfold wrap01, one, IEEE.le, IEEE.lt, IEEE.zero, IEEE.add, IEEE.sub, IEEE.valid in *.
  destruct USE_DOUBLE.
  - exact (WrapFacts.wrap_closed 53 1024 ltac:(lia) ltac:(lia) u v Vu Vv Pu Lu Pv Lv).
  - exact (WrapFacts.wrap_closed 24 128 ltac:(lia) ltac:(lia) u v Vu Vv Pu Lu Pv Lv).
Qed.

Lemma wrap01_unit_interval_witness :
  let u := Examples.three_quarters in
  let v := Examples.half in
  let sum := IEEE.add (real false) u v in
  let one := IEEE.of_Z (real false) 1 in
  (IEEE.lt sum one = true -> wrap01 false u v = sum) /\
  (IEEE.lt sum one = false -> wrap01 false u v = IEEE.sub (real false) sum one) /\
  IEEE.le IEEE.zero (wrap01 false u v) = true /\
  IEEE.lt (wrap01 false u v) one = true.
Proof.
  exact (wrap01_unit_interval false Examples.three_quarters Examples.half
           eq_refl eq_refl eq_refl eq_refl eq_refl eq_refl).
Defined.

(* ================================================================== *)
(** ** [RadicalInverse]: the integers of the loop *)

Module RadicalLoopFacts.

Lemma wrap_int_range z : in_int (wrap_int z).
Proof.
  unfold in_int, wrap_int, INT_MIN, INT_MAX.
  pose proof (Z.mod_pos_bound (z + 2 ^ 31) (2 ^ 32) ltac:(lia)). lia.
Qed.

Lemma wrap_int_id z : in_int z -> wrap_int z = z.
Proof.
  unfold in_int, wrap_int, INT_MIN, INT_MAX. intros H.
  rewrite Z.mod_small by lia. lia.
Qed.

Lemma wrap_int_congr a b : a mod 2 ^ 32 = b mod 2 ^ 32 -> wrap_int a = wrap_int b.
Proof.
  intros H. unfold wrap_int. f_equal.
  rewrite (Zplus_mod a), (Zplus_mod b), H. reflexivity.
Qed.

Lemma wrap_int_mod z : wrap_int z mod 2 ^ 32 = z mod 2 ^ 32.
Proof.
  unfold wrap_int. rewrite Zminus_mod, Z.mod_mod by lia.
  rewrite <- Zminus_mod. f_equal. lia.
Qed.

(** The accumulation of digits, modulo [2 ^ 32]. *)
Lemma number_of_congr b ds : forall x y,
  x mod 2 ^ 32 = y mod 2 ^ 32 ->
  fold_left (fun acc d => acc * b + d) ds x mod 2 ^ 32 =
  fold_left (fun acc d => acc * b + d) ds y mod 2 ^ 32.
Proof.
  induction ds as [| d ds IH]; intros x y H; simpl; [ exact H | ].
  apply IH. rewrite (Zplus_mod (x * b)), (Zplus_mod (y * b)).
  rewrite (Zmult_mod x), (Zmult_mod y), H. reflexivity.
Qed.

(** More fuel changes nothing once the loop has returned. *)
Lemma loop_fuel_mono fuel : forall base ib a rd ibn res,
  RadicalInverse_loop fuel base ib a rd ibn = Some res ->
  forall fuel', (fuel <= fuel')%nat ->
  RadicalInverse_loop fuel' base ib a rd ibn = Some res.
Proof.
  induction fuel as [| fuel IH]; intros base ib a rd ibn res H fuel' Hf; [ discriminate | ].
  destruct fuel' as [| fuel']; [ lia | ].
  simpl in *. destruct (a =? 0); [ exact H | ].
  destruct ((base =? 0) || ((a =? INT_MIN) && (base =? -1))); [ discriminate | ].
  apply IH with (fuel' := fuel') in H; [ exact H | lia ].
Qed.

(** The quotient of the loop is at most half the dividend. *)
Lemma quot_halves a base : 2 <= Z.abs base -> 2 * Z.abs (Z.quot a base) <= Z.abs a.
Proof.
  intros Hb. rewrite <- Z.quot_abs by lia.
  pose proof (Z.quot_pos (Z.abs a) (Z.abs base) ltac:(lia) ltac:(lia)).
  pose proof (Z.mul_quot_le (Z.abs a) (Z.abs base) ltac:(lia) ltac:(lia)). nia.
Qed.

(** The loop returns within one run more than the index has binary digits:
    33 runs for any [int]. *)
Lemma loop_terminates fuel : forall base ib a rd ibn,
  2 <= Z.abs base -> Z.abs a < 2 ^ (Z.of_nat fuel - 1) ->
  exists res, RadicalInverse_loop fuel base ib a rd ibn = Some res.
Proof.
  induction fuel as [| fuel IH]; intros base ib a rd ibn Hb Ha.
  - exfalso. change (2 ^ (Z.of_nat 0 - 1)) with 0 in Ha. lia.
  - simpl. destruct (Z.eqb_spec a 0) as [-> | Na]; [ eauto | ].
    destruct (Z.eqb_spec base 0) as [-> | Nb]; [ simpl in Hb; lia | ].
    destruct (Z.eqb_spec base (-1)) as [-> | Nb1]; [ simpl in Hb; lia | ].
    rewrite andb_false_r. simpl.
    apply IH; [ exact Hb | ].
    pose proof (quot_halves a base Hb) as Q.
    replace (Z.of_nat (S fuel) - 1) with (Z.of_nat fuel) in Ha by lia.
    destruct fuel as [| fuel]; [ simpl in Ha; lia | ].
    replace (Z.of_nat (S fuel)) with (Z.succ (Z.of_nat (S fuel) - 1)) in Ha by lia.
    rewrite Z.pow_succ_r in Ha by lia. lia.
Qed.

(** With a base of [-1], [0] or [1] the loop never returns for an index
    that is not zero. *)
Lemma loop_diverges fuel : forall base ib a rd ibn,
  Z.abs base <= 1 -> a <> 0 ->
  RadicalInverse_loop fuel base ib a rd ibn = None.
Proof.
  induction fuel as [| fuel IH]; intros base ib a rd ibn Hb Ha; [ reflexivity | ].
  simpl. destruct (Z.eqb_spec a 0) as [E | _]; [ contradiction | ].
  destruct (Z.eqb_spec base 0) as [-> | Nb]; [ reflexivity | ]. simpl.
  destruct ((a =? INT_MIN) && (base =? -1)); [ reflexivity | ].
  apply IH; [ exact Hb | ].
  assert (C : base = 1 \/ base = -1) by lia.
  destruct C as [-> | ->].
  - rewrite Z.quot_1_r. exact Ha.
  - change (-1) with (- (1)). rewrite Z.quot_opp_r, Z.quot_1_r by lia. lia.
Qed.

(** For an index that is not negative and a base of at least two, the
    integer the loop accumulates is the reversed number of the
    specification, wrapped to an [int], and [invBaseN] is [invBase]
    multiplied in once per digit. *)
Lemma loop_reverses_digits fuel : forall base ib a rd ibn rd' ibn',
  2 <= base -> in_int base -> 0 <= a -> in_int a -> in_int rd ->
  RadicalInverse_loop fuel base ib a rd ibn = Some (rd', ibn') ->
  rd' = wrap_int (fold_left (fun acc d => acc * base + d) (RadicalSpec.digits fuel base a) rd) /\
  ibn' = scale_by ib (length (RadicalSpec.digits fuel base a)) ibn.
Proof.
  induction fuel as [| fuel IH]; intros base ib a rd ibn rd' ibn' Hb Ib Ha Ia Ird H;
    [ discriminate | ].
  simpl in H |- *. destruct (Z.eqb_spec a 0) as [-> | Na].
  - injection H as <- <-. simpl. split; [ symmetry; now apply wrap_int_id | reflexivity ].
  - destruct (Z.eqb_spec base 0) as [-> | Nb]; [ lia | ].
    destruct (Z.eqb_spec base (-1)) as [-> | Nb1]; [ lia | ].
    rewrite andb_false_r in H. simpl in H.
    rewrite Z.quot_div_nonneg in H by lia.
    assert (Q : 0 <= a / base <= a).
    { split; [ apply Z.div_pos; lia | ]. apply Z.div_le_upper_bound; nia. }
    pose proof (Z.mod_pos_bound a base ltac:(lia)) as Mb.
    pose proof (Z.div_mod a base ltac:(lia)) as DM.
    assert (W1 : wrap_int (base * (a / base)) = base * (a / base)).
    { apply wrap_int_id. unfold in_int, INT_MIN, INT_MAX in *. nia. }
    rewrite W1 in H.
    replace (a - base * (a / base)) with (a mod base) in H by lia.
    assert (W2 : wrap_int (a mod base) = a mod base).
    { apply wrap_int_id. unfold in_int, INT_MIN, INT_MAX in *. lia. }
    rewrite W2 in H.
    apply IH in H; try assumption; try lia.
    + destruct H as [-> ->]. simpl. split.
      * apply wrap_int_congr. apply number_of_congr.
        rewrite wrap_int_mod, Zplus_mod, wrap_int_mod, <- Zplus_mod. reflexivity.
      * unfold scale_by.
        exact (eq_sym (Nat.iter_succ_r _ _ (fun y => IEEE.mul IEEE.binary64 y ib) ibn)).
    + unfold in_int, INT_MIN, INT_MAX in *. lia.
    + apply wrap_int_range.
Qed.

End RadicalLoopFacts.

(* ================================================================== *)
(** ** Orders of magnitude of products and quotients *)

Module MagnitudeFacts.

Import ShiftFacts RoundFacts AlignFacts BoundFacts.

Lemma below_pow_mono l l' x : l <= l' -> below_pow l x = true -> below_pow l' x = true.
Proof.
  intros Hl. destruct x as [s | s | | s m e]; simpl; try congruence.
  rewrite !Z.leb_le. lia.
Qed.

Lemma below_pow_finite l x : below_pow l x = true -> IEEE.is_finite x = true.
Proof. destruct x; simpl; congruence. Qed.

Section Format.

Variables prec emax : Z.
Hypothesis prec_pos : 0 < prec.

Local Abbreviation fexp := (SpecFloat.fexp prec emax).
Local Abbreviation emin := (SpecFloat.emin prec emax).

Lemma Zdigits2_mul_le a b : 0 < a -> 0 < b -> Zdigits2 (a * b) <= Zdigits2 a + Zdigits2 b.
Proof.
  intros Ha Hb.
  destruct (Zdigits2_bounds a Ha) as [_ Ua]. destruct (Zdigits2_bounds b Hb) as [_ Ub].
  pose proof (Zdigits2_pos a Ha). pose proof (Zdigits2_pos b Hb).
  apply Zdigits2_le; [ nia | lia | ].
  rewrite Z.pow_add_r by lia. nia.
Qed.

(** The product of two values that are zero or finite. *)
Lemma SFmul_below a b x y :
  below_pow a x = true -> below_pow b y = true ->
  Z.max (a + b) emin + 1 <= emax - prec ->
  below_pow (Z.max (a + b) emin + 1) (SFmul prec emax x y) = true.
Proof.
  destruct x as [sx | sx | | sx mx ex], y as [sy | sy | | sy my ey];
    try (intros; discriminate); try (intros; reflexivity).
  unfold below_pow at 1 2. unfold SFmul.
  rewrite !Z.leb_le. intros Ha Hb Hl.
  change (Zpos (digits2_pos mx)) with (Zdigits2 (Zpos mx)) in Ha.
  change (Zpos (digits2_pos my)) with (Zdigits2 (Zpos my)) in Hb.
  pose proof (Zdigits2_mul_le (Zpos mx) (Zpos my) ltac:(lia) ltac:(lia)) as D.
  change (Zpos (mx * my)) with (Zpos mx * Zpos my).
  apply below_pow_mono with (l := Z.max (Zdigits2 (Zpos mx * Zpos my) + (ex + ey)) emin + 1);
    [ lia | ].
  apply binary_round_aux_below; [ exact prec_pos | lia | lia ].
Qed.

(** The quotient that [SFdiv] rounds. *)
Lemma SFdiv_core_binary_below m1 e1 m2 e2 :
  0 < m1 -> 0 < m2 ->
  let '(q, e', l) := SFdiv_core_binary prec emax m1 e1 m2 e2 in
  0 <= q /\
  Zdigits2 q + e' <= Z.max ((Zdigits2 m1 + e1) - (Zdigits2 m2 + e2) + 1) emin.
Proof.
  intros H1 H2. unfold SFdiv_core_binary.
  pose proof (fexp_eq prec emax (Zdigits2 m1 + e1 - (Zdigits2 m2 + e2))) as F.
  revert F. generalize (fexp (Zdigits2 m1 + e1 - (Zdigits2 m2 + e2))). intros fx F.
  remember (Z.min fx (e1 - e2)) as e' eqn:Ee'.
  remember (e1 - e2 - e') as s eqn:Es.
  assert (Hs : 0 <= s) by lia.
  assert (Hm' : match s with Z0 => m1 | Zpos _ => Z.shiftl m1 s | Zneg _ => 0 end = m1 * 2 ^ s).
  { clear Es. destruct s as [| p | p]; try lia.
    rewrite Z.shiftl_mul_pow2 by lia. reflexivity. }
  rewrite Hm'.
  assert (Ps : 0 < 2 ^ s) by (apply Z.pow_pos_nonneg; lia).
  pose proof (Z_div_mod (m1 * 2 ^ s) m2 ltac:(lia)) as D.
  destruct (Z.div_eucl (m1 * 2 ^ s) m2) as [q r]. destruct D as [D1 D2].
  assert (Hq : 0 <= q) by nia.
  split; [ exact Hq | ].
  destruct (Z.eq_dec q 0) as [-> | Nq].
  - simpl Zdigits2. lia.
  - destruct (Zdigits2_bounds q ltac:(lia)) as [Lq _].
    destruct (Zdigits2_bounds m1 H1) as [_ U1].
    destruct (Zdigits2_bounds m2 H2) as [L2 _].
    pose proof (Zdigits2_pos q ltac:(lia)) as Pq.
    pose proof (Zdigits2_pos m1 H1) as P1.
    pose proof (Zdigits2_pos m2 H2) as P2.
    assert (L : 2 ^ (Zdigits2 q - 1 + (Zdigits2 m2 - 1)) < 2 ^ (Zdigits2 m1 + s)).
    { rewrite !Z.pow_add_r by lia.
      assert (2 ^ (Zdigits2 q - 1) * 2 ^ (Zdigits2 m2 - 1) <= q * m2).
      { apply Z.mul_le_mono_nonneg; try lia; apply Z.pow_nonneg; lia. }
      nia. }
    apply Z.pow_lt_mono_r_iff in L; [ | lia | lia ].
    lia.
Qed.

(** The quotient of two finite values. *)
Lemma SFdiv_below sx mx ex sy my ey :
  let l := Z.max ((Zdigits2 (Zpos mx) + ex) - (Zdigits2 (Zpos my) + ey) + 1) emin + 1 in
  l <= emax - prec ->
  below_pow l (SFdiv prec emax (S754_finite sx mx ex) (S754_finite sy my ey)) = true.
Proof.
  intros l Hl. unfold SFdiv.
  pose proof (SFdiv_core_binary_below (Zpos mx) ex (Zpos my) ey ltac:(lia) ltac:(lia)) as C.
  destruct (SFdiv_core_binary prec emax (Zpos mx) ex (Zpos my) ey) as [[q e'] lz].
  destruct C as [Hq Lq].
  apply below_pow_mono with (l := Z.max (Zdigits2 q + e') emin + 1); [ unfold l; lia | ].
  apply binary_round_aux_below; [ exact prec_pos | exact Hq | unfold l in Hl; lia ].
Qed.

(** The conversion of an integer that fits the mantissa is exact: a finite
    value with as many binary places as the integer has digits. *)
Lemma of_Z_exact z :
  z <> 0 -> Zdigits2 (Z.abs z) <= prec -> emin <= Zdigits2 (Z.abs z) - prec ->
  Zdigits2 (Z.abs z) <= emax ->
  exists m e,
    IEEE.of_Z (IEEE.Format prec emax) z = S754_finite (z <? 0) m e /\
    Zdigits2 (Zpos m) + e = Zdigits2 (Z.abs z).
Proof.
  intros Nz Hd He Hx. unfold IEEE.of_Z, binary_normalize. simpl IEEE.fprec. simpl IEEE.femax.
  assert (G : forall s (p : positive), Zdigits2 (Zpos p) <= prec ->
            emin <= Zdigits2 (Zpos p) - prec -> Zdigits2 (Zpos p) <= emax ->
            exists m e, binary_round prec emax s p 0 = S754_finite s m e /\
                        Zdigits2 (Zpos m) + e = Zdigits2 (Zpos p)).
  { intros s p Dp Ep Xp.
    pose proof (fexp_eq prec emax (Zdigits2 (Zpos p) + 0)) as F.
    pose proof (Zdigits2_pos (Zpos p) ltac:(lia)) as Pp.
    rewrite binary_round_exact by lia.
    revert F. generalize (fexp (Zdigits2 (Zpos p) + 0)). intros fx F.
    assert (Fx : fx = Zdigits2 (Zpos p) - prec) by lia.
    assert (Lb : (fx <=? emax - prec) = true) by (apply Z.leb_le; lia).
    rewrite Lb. eexists. eexists. split; [ reflexivity | ].
    assert (Pw : 0 < 2 ^ (0 - fx)) by (apply Z.pow_pos_nonneg; lia).
    rewrite Z2Pos.id by nia.
    rewrite Zdigits2_mul_pow by lia. lia. }
  destruct z as [| p | p]; [ congruence | | ].
  - apply (G false p); assumption.
  - apply (G true p); assumption.
Qed.

End Format.

End MagnitudeFacts.

(* ================================================================== *)
(** ** [RadicalInverse]: the floating-point values of the loop *)

Module RadicalFloatFacts.

Import ShiftFacts MagnitudeFacts RadicalLoopFacts.

Lemma in_int_digits z : in_int z -> Zdigits2 (Z.abs z) <= 32.
Proof.
  unfold in_int, INT_MIN, INT_MAX. intros H.
  apply Zdigits2_le; lia.
Qed.

(** The conversion of an [int] to [double] is zero or finite. *)
Lemma of_int_finite z : in_int z -> IEEE.is_finite (IEEE.of_Z IEEE.binary64 z) = true.
Proof.
  intros H. destruct (Z.eq_dec z 0) as [-> | Nz]; [ reflexivity | ].
  pose proof (in_int_digits z H) as D.
  pose proof (Zdigits2_pos (Z.abs z) ltac:(lia)) as P.
  destruct (of_Z_exact 53 1024 ltac:(lia) z Nz) as [m [e [E _]]];
    try (rewrite ?emin_eq; lia); try lia.
  - unfold SpecFloat.emin. lia.
  - unfold IEEE.binary64. rewrite E. reflexivity.
Qed.

(** [1.0 / base] is zero or finite, and below two. *)
Lemma invBase_below base :
  in_int base -> 2 <= Z.abs base ->
  below_pow 1 (IEEE.div IEEE.binary64 double_one (IEEE.of_Z IEEE.binary64 base)) = true.
Proof.
  intros H Hb.
  pose proof (in_int_digits base H) as D.
  assert (D2 : 2 <= Zdigits2 (Z.abs base)).
  { destruct (Z_le_gt_dec 2 (Zdigits2 (Z.abs base))) as [G | G]; [ exact G | ].
    assert (Zdigits2 (Z.abs base) <= 1) by lia.
    apply Zdigits2_le in H0; lia. }
  destruct (of_Z_exact 53 1024 ltac:(lia) base ltac:(lia)) as [m [e [E L]]];
    try lia; try (unfold SpecFloat.emin; lia).
  unfold IEEE.binary64. rewrite E. unfold double_one, IEEE.div. simpl IEEE.fprec. simpl IEEE.femax.
  apply below_pow_mono with
    (l := Z.max ((Zdigits2 (Zpos 4503599627370496) + -52) - (Zdigits2 (Zpos m) + e) + 1)
            (SpecFloat.emin 53 1024) + 1).
  - rewrite L. change (Zdigits2 (Zpos 4503599627370496)) with 53.
    unfold SpecFloat.emin. lia.
  - apply SFdiv_below; [ lia | ].
    rewrite L. change (Zdigits2 (Zpos 4503599627370496)) with 53.
    unfold SpecFloat.emin. lia.
Qed.

(** The quotient of the loop has fewer binary digits than the dividend. *)
Lemma quot_digits a base :
  a <> 0 -> 2 <= Z.abs base -> Zdigits2 (Z.abs (Z.quot a base)) + 1 <= Zdigits2 (Z.abs a).
Proof.
  intros Na Hb. pose proof (quot_halves a base Hb) as Q.
  pose proof (Zdigits2_pos (Z.abs a) ltac:(lia)) as Pa.
  destruct (Z.eq_dec (Z.quot a base) 0) as [-> | Nq]; [ simpl; lia | ].
  destruct (Zdigits2_bounds (Z.abs (Z.quot a base)) ltac:(lia)) as [Lq _].
  destruct (Zdigits2_bounds (Z.abs a) ltac:(lia)) as [_ Ua].
  pose proof (Zdigits2_pos (Z.abs (Z.quot a base)) ltac:(lia)) as Pq.
  assert (L : 2 ^ (Zdigits2 (Z.abs (Z.quot a base))) < 2 ^ Zdigits2 (Z.abs a)).
  { replace (Zdigits2 (Z.abs (Z.quot a base)))
      with (Z.succ (Zdigits2 (Z.abs (Z.quot a base)) - 1)) at 1 by lia.
    rewrite Z.pow_succ_r by lia. lia. }
  apply Z.pow_lt_mono_r_iff in L; lia.
Qed.

(** [invBaseN] stays zero or finite through the loop: every run adds at
    most two binary places to its magnitude, and takes at least one
    binary digit off the index. *)
Lemma loop_invBaseN_finite fuel : forall base ib a rd ibn rd' ibn' l,
  2 <= Z.abs base ->
  below_pow 1 ib = true -> below_pow l ibn = true ->
  1 <= l -> l + 2 * Zdigits2 (Z.abs a) <= 900 ->
  RadicalInverse_loop fuel base ib a rd ibn = Some (rd', ibn') ->
  IEEE.is_finite ibn' = true.
Proof.
  induction fuel as [| fuel IH]; intros base ib a rd ibn rd' ibn' l Hb Bi Bn Hl Hd H;
    [ discriminate | ].
  simpl in H. destruct (Z.eqb_spec a 0) as [-> | Na].
  - injection H as _ <-. exact (below_pow_finite _ _ Bn).
  - destruct ((base =? 0) || ((a =? INT_MIN) && (base =? -1))); [ discriminate | ].
    pose proof (quot_digits a base Na Hb) as Q.
    apply IH with (l := l + 2) in H; try assumption; try lia.
    apply below_pow_mono with (l := Z.max (l + 1) (SpecFloat.emin 53 1024) + 1).
    + unfold SpecFloat.emin. lia.
    + apply (SFmul_below 53 1024 ltac:(lia) l 1 ibn ib Bn Bi).
      pose proof (Zdigits2_pos (Z.abs a) ltac:(lia)).
      unfold SpecFloat.emin. lia.
Qed.

(** The integer the loop leaves is an [int]. *)
Lemma loop_reversedDigits_range fuel : forall base ib a rd ibn rd' ibn',
  in_int rd ->
  RadicalInverse_loop fuel base ib a rd ibn = Some (rd', ibn') -> in_int rd'.
Proof.
  induction fuel as [| fuel IH]; intros base ib a rd ibn rd' ibn' Hr H; [ discriminate | ].
  simpl in H. destruct (a =? 0).
  - injection H as <- _. exact Hr.
  - destruct ((base =? 0) || ((a =? INT_MIN) && (base =? -1))); [ discriminate | ].
    apply IH in H; [ exact H | apply wrap_int_range ].
Qed.

(** The product of two values that are zero or finite is not NaN. *)
Lemma SFmul_finite_not_nan prec emax x y :
  IEEE.is_finite x = true -> IEEE.is_finite y = true ->
  IEEE.is_nan (SFmul prec emax x y) = false.
Proof.
  destruct x as [sx | sx | | sx mx ex], y as [sy | sy | | sy my ey]; simpl; try congruence.
  intros _ _.
  pose proof (SignFacts.binary_round_aux_sign prec emax (xorb sx sy) (Zpos (mx * my)) (ex + ey)
                loc_Exact ltac:(lia)) as S.
  destruct (binary_round_aux prec emax (xorb sx sy) (Zpos (mx * my)) (ex + ey) loc_Exact);
    simpl in *; congruence.
Qed.

(** [std::min] against a cap below one. *)
Lemma min_below_cap x cap bound :
  IEEE.is_nan x = false -> IEEE.lt cap bound = true ->
  IEEE.lt (IEEE.min x cap) bound = true /\ IEEE.le (IEEE.min x cap) cap = true.
Proof.
  intros Nx Hc. unfold IEEE.min.
  destruct (IEEEFacts.ltb_not_nan _ _ Hc) as [Nc _].
  destruct (IEEE.lt cap x) eqn:L.
  - split; [ exact Hc | ].
    apply IEEEFacts.not_ltb_leb; auto. apply IEEEFacts.ltb_irrefl.
  - assert (Le : IEEE.le x cap = true) by (apply IEEEFacts.not_ltb_leb; auto).
    split; [ | exact Le ].
    exact (IEEEFacts.leb_ltb_trans _ _ _ Le Hc).
Qed.

End RadicalFloatFacts.

(* ================================================================== *)
(** ** [RadicalInverse] *)

Section RadicalInverse.

Import RadicalLoopFacts RadicalFloatFacts MagnitudeFacts.

Lemma in_int_zero : in_int 0.
Proof. unfold in_int, INT_MIN, INT_MAX. lia. Qed.

Lemma RadicalInverse_fuel_mono fuel fuel' a base r :
  RadicalInverse fuel a base = Some r -> (fuel <= fuel')%nat ->
  RadicalInverse fuel' a base = Some r.
Proof.
  unfold RadicalInverse. intros H Hf.
  destruct (RadicalInverse_loop fuel base _ a 0 double_one) as [res |] eqn:E; [ | discriminate ].
  rewrite (loop_fuel_mono _ _ _ _ _ _ _ E _ Hf). exact H.
Qed.

(** The loop returns within 33 runs of its body for a base of magnitude two
    or more: an [int] has 32 binary digits at most. *)
Lemma RadicalInverse_returns fuel a base :
  in_int a -> a = 0 \/ 2 <= Z.abs base -> (33 <= fuel)%nat ->
  exists r, RadicalInverse fuel a base = Some r.
Proof.
  intros Ia H Hf.
  assert (T : exists res, RadicalInverse_loop 33 base
                (IEEE.div IEEE.binary64 double_one (IEEE.of_Z IEEE.binary64 base))
                a 0 double_one = Some res).
  { destruct H as [-> | Hb]; [ simpl; eauto | ].
    apply loop_terminates; [ exact Hb | ].
    unfold in_int, INT_MIN, INT_MAX in Ia. change (2 ^ (Z.of_nat 33 - 1)) with (2 ^ 32). lia. }
  destruct T as [[rd ibn] T].
  eexists. apply RadicalInverse_fuel_mono with (fuel := 33%nat); [ | exact Hf ].
  unfold RadicalInverse. rewrite T. reflexivity.
Qed.

(** Whatever [RadicalInverse] returns is no more than the cap, and so below
    one. *)
Lemma RadicalInverse_capped fuel a base r :
  in_int a -> in_int base ->
  RadicalInverse fuel a base = Some r ->
  IEEE.lt r double_one = true /\ IEEE.le r DoubleOneMinusEpsilon = true.
Proof.
  intros Ia Ib H. unfold RadicalInverse in H.
  destruct (RadicalInverse_loop fuel base _ a 0 double_one) as [[rd ibn] |] eqn:E;
    [ | discriminate ].
  injection H as <-.
  apply min_below_cap; [ | reflexivity ].
  apply SFmul_finite_not_nan.
  - apply of_int_finite. apply (loop_reversedDigits_range _ _ _ _ _ _ _ _ in_int_zero E).
  - destruct (Z.eq_dec a 0) as [-> | Na].
    + destruct fuel; [ discriminate | ]. simpl in E. injection E as _ <-. reflexivity.
    + destruct (Z_le_gt_dec 2 (Z.abs base)) as [Hb | Hb].
      * assert (B1 : below_pow 1 double_one = true) by reflexivity.
        pose proof (in_int_digits a Ia) as D.
        apply (loop_invBaseN_finite _ _ _ _ _ _ _ _ 1 Hb (invBase_below base Ib Hb) B1) in E;
          [ exact E | lia | lia ].
      * rewrite loop_diverges in E by (try assumption; lia). discriminate.
Qed.

(** The digits of the index, read in reverse. *)
Lemma RadicalInverse_digits fuel a base r :
  in_int a -> in_int base -> 0 <= a -> 2 <= base ->
  RadicalInverse fuel a base = Some r ->
  r = IEEE.min
        (IEEE.mul IEEE.binary64
           (IEEE.of_Z IEEE.binary64 (wrap_int (RadicalSpec.reversed fuel base a)))
           (scale_by (IEEE.div IEEE.binary64 double_one (IEEE.of_Z IEEE.binary64 base))
              (length (RadicalSpec.digits fuel base a)) double_one))
        DoubleOneMinusEpsilon.
Proof.
  intros Ia Ib Ha Hb H. unfold RadicalInverse in H.
  destruct (RadicalInverse_loop fuel base _ a 0 double_one) as [[rd ibn] |] eqn:E;
    [ | discriminate ].
  injection H as <-.
  destruct (loop_reverses_digits _ _ _ _ _ _ _ _ Hb Ib Ha Ia in_int_zero E) as [-> ->].
  reflexivity.
Qed.

End RadicalInverse.

(** X1.  [RadicalInverse] returns whenever the index is zero or the base
    has magnitude two or more: the [while (a)] loop runs its body 32 times
    at most, since every division takes a binary digit off the index.  The
    value returned does not depend on the fuel. *)
Theorem RadicalInverse_returns_within_33 (a base : Z) :
  in_int a -> a = 0 \/ 2 <= Z.abs base ->
  exists r, forall fuel, (33 <= fuel)%nat -> RadicalInverse fuel a base = Some r.
Proof.
  intros Ia H.
  destruct (RadicalInverse_returns 33 a base Ia H ltac:(lia)) as [r R].
  exists r. intros fuel Hf. exact (RadicalInverse_fuel_mono _ _ _ _ _ R Hf).
Qed.

Lemma RadicalInverse_returns_within_33_witness :
  in_int 6 /\ (6 = 0 \/ 2 <= Z.abs 2) /\
  exists r, forall fuel, (33 <= fuel)%nat -> RadicalInverse fuel 6 2 = Some r.
Proof.
  assert (I6 : in_int 6) by (unfold in_int, INT_MIN, INT_MAX; lia).
  assert (B : 6 = 0 \/ 2 <= Z.abs 2) by (right; simpl; lia).
  split; [ exact I6 | ]. split; [ exact B | ].
  exact (RadicalInverse_returns_within_33 6 2 I6 B).
Defined.

(** X2.  With a base of -1, 0 or 1 and an index that is not zero,
    [RadicalInverse] never returns: the division by zero has no result,
    and a division by 1 or -1 never brings the index to zero. *)
Theorem RadicalInverse_never_returns (a base : Z) (fuel : nat) :
  a <> 0 -> Z.abs base <= 1 -> RadicalInverse fuel a base = None.
Proof.
  intros Na Hb. unfold RadicalInverse.
  rewrite RadicalLoopFacts.loop_diverges by assumption. reflexivity.
Qed.

Lemma RadicalInverse_never_returns_witness :
  5 <> 0 /\ Z.abs 1 <= 1 /\ RadicalInverse 1000 5 1 = None.
Proof.
  assert (N : 5 <> 0) by discriminate.
  assert (B : Z.abs 1 <= 1) by (simpl; lia).
  split; [ exact N | ]. split; [ exact B | ].
  exact (RadicalInverse_never_returns 5 1 1000 N B).
Defined.

(** X3.  Whatever [RadicalInverse] returns, for any index and any base, is
    not NaN, is no more than [DoubleOneMinusEpsilon], and so is strictly
    below one: the intermediate [invBaseN] never overflows, and [std::min]
    caps the product. *)
Theorem RadicalInverse_capped_below_one (a base : Z) (fuel : nat) (r : spec_float) :
  in_int a -> in_int base ->
  RadicalInverse fuel a base = Some r ->
  IEEE.is_nan r = false /\
  IEEE.le r DoubleOneMinusEpsilon = true /\ IEEE.lt r double_one = true.
Proof.
  intros Ia Ib H.
  destruct (RadicalInverse_capped _ _ _ _ Ia Ib H) as [L C].
  split; [ | split; assumption ].
  apply (IEEEFacts.ltb_not_nan _ _ L).
Qed.

Lemma RadicalInverse_capped_below_one_witness :
  in_int 6 /\ in_int 2 /\
  RadicalInverse 33 6 2 = Some (S754_finite false 6755399441055744 (-54)) /\
  IEEE.lt (S754_finite false 6755399441055744 (-54)) double_one = true.
Proof.
  assert (I6 : in_int 6) by (unfold in_int, INT_MIN, INT_MAX; lia).
  assert (I2 : in_int 2) by (unfold in_int, INT_MIN, INT_MAX; lia).
  assert (R : RadicalInverse 33 6 2 = Some (S754_finite false 6755399441055744 (-54)))
    by (vm_compute; reflexivity).
  split; [ exact I6 | ]. split; [ exact I2 | ]. split; [ exact R | ].
  exact (proj2 (proj2 (RadicalInverse_capped_below_one 6 2 33 _ I6 I2 R))).
Defined.

(** X4.  For an index that is not negative and a base of two or more, what
    [RadicalInverse] returns is the digits of the index in that base, read
    in reverse as an [int] (with the wrap-around of [int] arithmetic),
    times [invBase] taken once per digit, capped at [DoubleOneMinusEpsilon]. *)
Theorem RadicalInverse_reverses_digits (a base : Z) (fuel : nat) (r : spec_float) :
  in_int a -> in_int base -> 0 <= a -> 2 <= base ->
  RadicalInverse fuel a base = Some r ->
  let invBase := IEEE.div IEEE.binary64 double_one (IEEE.of_Z IEEE.binary64 base) in
  r = IEEE.min
        (IEEE.mul IEEE.binary64
           (IEEE.of_Z IEEE.binary64 (wrap_int (RadicalSpec.reversed fuel base a)))
           (scale_by invBase (length (RadicalSpec.digits fuel base a)) double_one))
        DoubleOneMinusEpsilon.
Proof.
  intros Ia Ib Ha Hb H invBase. exact (RadicalInverse_digits _ _ _ _ Ia Ib Ha Hb H).
Qed.

Lemma RadicalInverse_reverses_digits_witness :
  in_int 6 /\ in_int 2 /\ 0 <= 6 /\ 2 <= 2 /\
  RadicalSpec.digits 33 2 6 = [0; 1; 1] /\ RadicalSpec.reversed 33 2 6 = 3 /\
  RadicalInverse 33 6 2 =
  Some (IEEE.min
          (IEEE.mul IEEE.binary64 (IEEE.of_Z IEEE.binary64 (wrap_int 3))
             (scale_by (IEEE.div IEEE.binary64 double_one (IEEE.of_Z IEEE.binary64 2))
                3 double_one))
          DoubleOneMinusEpsilon).
Proof.
  assert (I6 : in_int 6) by (unfold in_int, INT_MIN, INT_MAX; lia).
  assert (I2 : in_int 2) by (unfold in_int, INT_MIN, INT_MAX; lia).
  assert (R : RadicalInverse 33 6 2 = Some (S754_finite false 6755399441055744 (-54)))
    by (vm_compute; reflexivity).
  split; [ exact I6 | ]. split; [ exact I2 | ]. split; [ lia | ]. split; [ lia | ].
  split; [ reflexivity | ]. split; [ reflexivity | ].
  exact (eq_trans R
           (f_equal Some
              (RadicalInverse_reverses_digits 6 2 33 _ I6 I2 ltac:(lia) ltac:(lia) R))).
Defined.

(* ================================================================== *)
(** ** The bounce loop of [generateColour] *)

(** The two sampling dimensions of the scatter after [b] hits. *)
Lemma scatter_dimensions b :
  1 <= b <= max_bounces ->
  Z.rem (3 + b * 2 + 0) num_primes = (3 + 2 * b) mod 6 /\
  Z.rem (3 + b * 2 + 1) num_primes = (3 + 2 * b + 1) mod 6 /\
  In (prime_at (Z.rem (3 + b * 2 + 0) num_primes)) primes /\
  In (prime_at (Z.rem (3 + b * 2 + 1) num_primes)) primes.
Proof.
  unfold max_bounces. intros H.
  assert (C : b = 1 \/ b = 2 \/ b = 3) by lia.
  destruct C as [-> | [-> | ->]]; vm_compute; intuition.
Qed.

Lemma primes_at_least_two p : In p primes -> 2 <= p /\ in_int p.
Proof.
  unfold primes, in_int, INT_MIN, INT_MAX. simpl.
  intros H. repeat (destruct H as [<- | H]; [ lia | ]). contradiction.
Qed.

Section BounceLoop.

Variable USE_DOUBLE : bool.
Variable ray_epsilon : spec_float.
Variables std_cos std_sin std_tan : spec_float -> spec_float.

Local Abbreviation body := (loop_body USE_DOUBLE ray_epsilon std_cos std_sin).
Local Abbreviation run := (bounce_loop USE_DOUBLE ray_epsilon std_cos std_sin).
Local Abbreviation sample := (halton_sample USE_DOUBLE).

(** A sample of a listed prime base is drawn within 33 runs of the digit
    loop. *)
Lemma halton_sample_returns fuel pass k hash_random :
  in_int pass -> (33 <= fuel)%nat -> In (prime_at k) primes ->
  exists u, sample fuel pass k hash_random = Some u.
Proof.
  intros Ip Hf Hk. unfold halton_sample.
  destruct (primes_at_least_two _ Hk) as [H2 _].
  destruct (RadicalInverse_returns fuel pass (prime_at k) Ip ltac:(right; lia) Hf) as [r ->].
  eauto.
Qed.

(** One run of the body, case by case. *)
Lemma loop_body_miss fuel pass hash_random world st t :
  nearestIntersection ray_epsilon world (ray st) = (None, t) ->
  body fuel pass hash_random world st =
  Some (Break (vadd IEEE.binary32 (contribution st)
                 (vmul IEEE.binary32 (throughput st) (sky_colour USE_DOUBLE (Ray.d (ray st)))))).
Proof. unfold loop_body. intros ->. reflexivity. Qed.

Lemma loop_body_last fuel pass hash_random world st obj t :
  nearestIntersection ray_epsilon world (ray st) = (Some obj, t) ->
  max_bounces < bounce st + 1 ->
  body fuel pass hash_random world st =
  Some (Break (direct_light USE_DOUBLE ray_epsilon world st obj
                 (getNormal obj (hit_point USE_DOUBLE (ray st) t))
                 (hit_point USE_DOUBLE (ray st) t))).
Proof.
  unfold loop_body. intros -> H.
  destruct (Z.gtb_spec (bounce st + 1) max_bounces) as [_ | G]; [ reflexivity | lia ].
Qed.

Lemma loop_body_scatter fuel pass hash_random world st obj t :
  nearestIntersection ray_epsilon world (ray st) = (Some obj, t) ->
  bounce st + 1 <= max_bounces ->
  body fuel pass hash_random world st =
  match sample fuel pass (Z.rem (3 + (bounce st + 1) * 2 + 0) num_primes) hash_random,
        sample fuel pass (Z.rem (3 + (bounce st + 1) * 2 + 1) num_primes) hash_random with
  | Some refl_sample_x, Some refl_sample_y =>
      Some (Continue
              {| ray := Ray.make (hit_point USE_DOUBLE (ray st) t)
                          (scatter_dir USE_DOUBLE std_cos std_sin
                             (getNormal obj (hit_point USE_DOUBLE (ray st) t))
                             refl_sample_x refl_sample_y);
                 throughput := vmul IEEE.binary32 (throughput st) (colour obj);
                 contribution :=
                   direct_light USE_DOUBLE ray_epsilon world st obj
                     (getNormal obj (hit_point USE_DOUBLE (ray st) t))
                     (hit_point USE_DOUBLE (ray st) t);
                 bounce := bounce st + 1 |})
  | _, _ => None
  end.
Proof.
  unfold loop_body. intros -> H.
  destruct (Z.gtb_spec (bounce st + 1) max_bounces) as [G | _]; [ lia | reflexivity ].
Qed.

(** The counter after a run that goes on. *)
Lemma loop_body_continue fuel pass hash_random world st st' :
  body fuel pass hash_random world st = Some (Continue st') ->
  bounce st' = bounce st + 1 /\ bounce st' <= max_bounces /\
  exists obj t, nearestIntersection ray_epsilon world (ray st) = (Some obj, t).
Proof.
  unfold loop_body.
  destruct (nearestIntersection ray_epsilon world (ray st)) as [[obj |] t]; [ | discriminate ].
  cbv zeta.
  destruct (Z.gtb_spec (bounce st + 1) max_bounces) as [G | G]; [ discriminate | ].
  destruct (halton_sample _ _ _ _ _) as [sx |]; [ | discriminate ].
  destruct (halton_sample _ _ _ _ _) as [sy |]; [ | discriminate ].
  intros H. injection H as <-. simpl. split; [ reflexivity | ]. split; [ exact G | eauto ].
Qed.

(** One run of the body returns. *)
Lemma loop_body_returns fuel pass hash_random world st :
  in_int pass -> (33 <= fuel)%nat -> 0 <= bounce st ->
  exists step, body fuel pass hash_random world st = Some step.
Proof.
  intros Ip Hf Hb.
  destruct (nearestIntersection ray_epsilon world (ray st)) as [[obj |] t] eqn:E.
  - destruct (Z_lt_le_dec max_bounces (bounce st + 1)) as [G | G].
    + rewrite (loop_body_last _ _ _ _ _ _ _ E G). eauto.
    + rewrite (loop_body_scatter _ _ _ _ _ _ _ E G).
      destruct (scatter_dimensions (bounce st + 1) ltac:(lia)) as [_ [_ [P0 P1]]].
      destruct (halton_sample_returns fuel pass _ hash_random Ip Hf P0) as [sx ->].
      destruct (halton_sample_returns fuel pass _ hash_random Ip Hf P1) as [sy ->].
      eauto.
  - rewrite (loop_body_miss _ _ _ _ _ _ E). eauto.
Qed.

(** The loop returns within [max_bounces + 1 - bounce] runs of its body. *)
Lemma bounce_loop_returns fuel pass hash_random world iterations : forall st,
  in_int pass -> (33 <= fuel)%nat -> 0 <= bounce st ->
  (Z.to_nat (max_bounces + 1 - bounce st) <= iterations)%nat -> (1 <= iterations)%nat ->
  exists c n, run fuel pass hash_random world iterations st = Some (c, n) /\
              (1 <= n)%nat /\ (n <= Nat.max 1 (Z.to_nat (max_bounces + 1 - bounce st)))%nat.
Proof.
  induction iterations as [| iterations IH]; intros st Ip Hf Hb Hi H1; [ lia | ].
  cbn [bounce_loop].
  destruct (loop_body_returns fuel pass hash_random world st Ip Hf Hb) as [[c | st'] E];
    rewrite E.
  - exists c, 1%nat. split; [ reflexivity | lia ].
  - destruct (loop_body_continue _ _ _ _ _ _ E) as [B1 [B2 _]].
    unfold max_bounces in *.
    assert (P0 : 0 <= bounce st') by lia.
    assert (P1 : (Z.to_nat (3 + 1 - bounce st') <= iterations)%nat) by lia.
    assert (P2 : (1 <= iterations)%nat) by lia.
    destruct (IH st' Ip Hf P0 P1 P2) as [c [n [-> [N1 N2]]]].
    exists c, (S n). split; [ reflexivity | lia ].
Qed.

(** In a scene that every ray hits, the loop runs its body exactly
    [max_bounces + 1 - bounce] times. *)
Lemma bounce_loop_enclosed fuel pass hash_random world iterations : forall st c n,
  (forall r, fst (nearestIntersection ray_epsilon world r) <> None) ->
  0 <= bounce st <= max_bounces ->
  run fuel pass hash_random world iterations st = Some (c, n) ->
  n = Z.to_nat (max_bounces + 1 - bounce st).
Proof.
  induction iterations as [| iterations IH]; intros st c n He Hb H; [ discriminate | ].
  simpl in H.
  destruct (loop_body _ _ _ _ _ _ _ _ _) as [[c' | st'] |] eqn:E; [ | | discriminate ].
  - injection H as <- <-.
    destruct (nearestIntersection ray_epsilon world (ray st)) as [[obj |] t] eqn:N.
    + destruct (Z_lt_le_dec max_bounces (bounce st + 1)) as [G | G].
      * unfold max_bounces in *. replace (bounce st) with 3 by lia. reflexivity.
      * rewrite (loop_body_scatter _ _ _ _ _ _ _ N G) in E.
        destruct (halton_sample _ _ _ _ _); [ | discriminate ].
        destruct (halton_sample _ _ _ _ _); discriminate.
    + exfalso. apply (He (ray st)). rewrite N. reflexivity.
  - destruct (loop_body_continue _ _ _ _ _ _ E) as [B1 [B2 _]].
    destruct (bounce_loop _ _ _ _ _ _ _ _ _ _) as [[c' n'] |] eqn:L; [ | discriminate ].
    injection H as <- <-.
    apply IH in L; [ | exact He | unfold max_bounces in *; lia ].
    subst n'. unfold max_bounces in *. lia.
Qed.

(** The primary ray is made within 33 runs of each digit loop. *)
Lemma primary_ray_returns fuel x y frame pass width height frames :
  in_int pass -> (33 <= fuel)%nat ->
  exists camera,
    primary_ray USE_DOUBLE std_cos std_sin std_tan fuel x y frame pass width height frames
    = Some camera.
Proof.
  intros Ip Hf. unfold primary_ray.
  destruct (halton_sample_returns fuel pass 0 (pixel_hash USE_DOUBLE x y frame width height)
              Ip Hf ltac:(simpl; auto)) as [sx ->].
  destruct (halton_sample_returns fuel pass 1 (pixel_hash USE_DOUBLE x y frame width height)
              Ip Hf ltac:(simpl; auto)) as [sy ->].
  destruct (halton_sample_returns fuel pass 2 (pixel_hash USE_DOUBLE x y frame width height)
              Ip Hf ltac:(simpl; auto 6)) as [st ->].
  eauto.
Qed.

(** More fuel changes nothing once a result is there. *)
Lemma halton_sample_fuel_mono fuel fuel' pass k hash_random u :
  sample fuel pass k hash_random = Some u -> (fuel <= fuel')%nat ->
  sample fuel' pass k hash_random = Some u.
Proof.
  unfold halton_sample. intros H Hf.
  destruct (RadicalInverse fuel pass (prime_at k)) as [r |] eqn:E; [ | discriminate ].
  rewrite (RadicalInverse_fuel_mono _ _ _ _ _ E Hf). exact H.
Qed.

Lemma loop_body_fuel_mono fuel fuel' pass hash_random world st step :
  body fuel pass hash_random world st = Some step -> (fuel <= fuel')%nat ->
  body fuel' pass hash_random world st = Some step.
Proof.
  unfold loop_body. intros H Hf.
  destruct (nearestIntersection ray_epsilon world (ray st)) as [[obj |] t]; [ | exact H ].
  cbv zeta in *. destruct (bounce st + 1 >? max_bounces); [ exact H | ].
  destruct (halton_sample USE_DOUBLE fuel pass (Z.rem (3 + (bounce st + 1) * 2 + 0) num_primes)
              hash_random) as [sx |] eqn:Ex; [ | discriminate ].
  destruct (halton_sample USE_DOUBLE fuel pass (Z.rem (3 + (bounce st + 1) * 2 + 1) num_primes)
              hash_random) as [sy |] eqn:Ey; [ | discriminate ].
  rewrite (halton_sample_fuel_mono _ _ _ _ _ _ Ex Hf),
          (halton_sample_fuel_mono _ _ _ _ _ _ Ey Hf).
  exact H.
Qed.

Lemma bounce_loop_mono fuel fuel' pass hash_random world iterations :
  forall iterations' st res,
  run fuel pass hash_random world iterations st = Some res ->
  (fuel <= fuel')%nat -> (iterations <= iterations')%nat ->
  run fuel' pass hash_random world iterations' st = Some res.
Proof.
  induction iterations as [| iterations IH]; intros iterations' st res H Hf Hi;
    [ discriminate | ].
  destruct iterations' as [| iterations']; [ lia | ].
  cbn [bounce_loop] in *.
  destruct (loop_body USE_DOUBLE ray_epsilon std_cos std_sin fuel pass hash_random world st)
    as [step |] eqn:E; [ | discriminate ].
  rewrite (loop_body_fuel_mono _ _ _ _ _ _ _ E Hf).
  destruct step as [c | st']; [ exact H | ].
  destruct (bounce_loop USE_DOUBLE ray_epsilon std_cos std_sin fuel pass hash_random world
              iterations st') as [[c n] |] eqn:L; [ | discriminate ].
  rewrite (IH iterations' st' (c, n) L Hf ltac:(lia)). exact H.
Qed.

Lemma primary_ray_fuel_mono fuel fuel' x y frame pass width height frames camera :
  primary_ray USE_DOUBLE std_cos std_sin std_tan fuel x y frame pass width height frames
    = Some camera ->
  (fuel <= fuel')%nat ->
  primary_ray USE_DOUBLE std_cos std_sin std_tan fuel' x y frame pass width height frames
    = Some camera.
Proof.
  unfold primary_ray. intros H Hf.
  destruct (halton_sample USE_DOUBLE fuel pass 0 _) as [sx |] eqn:Ex; [ | discriminate ].
  destruct (halton_sample USE_DOUBLE fuel pass 1 _) as [sy |] eqn:Ey; [ | discriminate ].
  destruct (halton_sample USE_DOUBLE fuel pass 2 _) as [st |] eqn:Et; [ | discriminate ].
  rewrite (halton_sample_fuel_mono _ _ _ _ _ _ Ex Hf),
          (halton_sample_fuel_mono _ _ _ _ _ _ Ey Hf),
          (halton_sample_fuel_mono _ _ _ _ _ _ Et Hf).
  exact H.
Qed.

(** [generateColour] returns, and what it returns does not depend on the
    fuel: 33 runs of every digit loop and [max_bounces + 1] runs of the
    bounce loop are enough. *)
Lemma generateColour_counted_returns (x y frame pass width height frames : Z) (world : Scene) :
  in_int pass ->
  exists (c : vec3) (n : nat),
    (1 <= n <= Z.to_nat (max_bounces + 1))%nat /\
    forall fuel iterations : nat,
      (33 <= fuel)%nat -> (Z.to_nat (max_bounces + 1) <= iterations)%nat ->
      generateColour_counted USE_DOUBLE ray_epsilon std_cos std_sin std_tan fuel iterations
        x y frame pass width height frames world = Some (c, n).
Proof.
  intros Ip.
  destruct (primary_ray_returns 33 x y frame pass width height frames Ip ltac:(lia))
    as [camera C].
  destruct (bounce_loop_returns 33 pass (pixel_hash USE_DOUBLE x y frame width height) world
              (Z.to_nat (max_bounces + 1)) (initial_state camera) Ip ltac:(lia)
              ltac:(simpl; lia) ltac:(simpl; lia) ltac:(simpl; lia)) as [c [n [L [N1 N2]]]].
  exists c, n. split; [ simpl in *; lia | ].
  intros fuel iterations Hf Hi. unfold generateColour_counted.
  rewrite (primary_ray_fuel_mono _ _ _ _ _ _ _ _ _ _ C Hf).
  exact (bounce_loop_mono _ _ _ _ _ _ _ _ _ L Hf Hi).
Qed.

End BounceLoop.

(* ================================================================== *)
(** ** The direct light *)

Lemma ltb_below_inf a b : SFltb a b = true -> SFltb a IEEE.pinf = true.
Proof.
  destruct a as [sa | [] | | sa ma ea]; try reflexivity; try discriminate.
  destruct b as [sb | sb | | sb mb eb]; by_signs.
Qed.

Section DirectLight.

Variable USE_DOUBLE : bool.
Variable ray_epsilon : spec_float.

(** An object of the scene that the shadow ray meets before the light
    shadows the hit point. *)
Lemma occluder_shadows world hit_p o :
  In o (objects world) ->
  IEEE.gt (intersect o (shadow_ray USE_DOUBLE hit_p)) ray_epsilon = true ->
  IEEE.lt (intersect o (shadow_ray USE_DOUBLE hit_p)) (light_len USE_DOUBLE hit_p) = true ->
  unoccluded USE_DOUBLE ray_epsilon world hit_p = false.
Proof.
  intros Hin Hg Hl. unfold unoccluded, nearestIntersection.
  pose proof (nearest_fold_spec ray_epsilon (shadow_ray USE_DOUBLE hit_p) (objects world)) as S.
  inversion S as [Hnone Heq | before o' after Hobjs Hrange Hbefore Hafter Heq].
  - exfalso. specialize (Hnone o Hin). unfold hit_in_range in Hnone.
    rewrite Hg in Hnone. unfold IEEE.lt, real_inf in Hnone.
    rewrite (ltb_below_inf _ _ Hl) in Hnone. discriminate.
  - unfold IEEE.ge. apply not_true_iff_false. intros Hge.
    pose proof (IEEEFacts.ltb_leb_trans _ _ _ Hl Hge) as Lt.
    rewrite Hobjs in Hin. apply in_app_or in Hin. destruct Hin as [Hin | [-> | Hin]].
    + pose proof (IEEEFacts.ltb_trans _ _ _ (Hbefore o Hin Hg) Lt) as F.
      rewrite IEEEFacts.ltb_irrefl in F. discriminate.
    + rewrite IEEEFacts.ltb_irrefl in Lt. discriminate.
    + pose proof (IEEEFacts.leb_ltb_trans _ _ _ (Hafter o Hin Hg) Lt) as F.
      rewrite IEEEFacts.ltb_irrefl in F. discriminate.
Qed.

(** The test of the light, in the words of the source. *)
Lemma unoccluded_spec world hit_p :
  unoccluded USE_DOUBLE ray_epsilon world hit_p = true <->
  fst (nearestIntersection ray_epsilon world (shadow_ray USE_DOUBLE hit_p)) = None \/
  IEEE.ge (snd (nearestIntersection ray_epsilon world (shadow_ray USE_DOUBLE hit_p)))
          (light_len USE_DOUBLE hit_p) = true.
Proof.
  unfold unoccluded.
  destruct (nearestIntersection ray_epsilon world (shadow_ray USE_DOUBLE hit_p)) as [[o |] t];
    simpl.
  - split; [ auto | intros [H | H]; [ discriminate | exact H ] ].
  - split; auto.
Qed.

Variables std_cos std_sin : spec_float -> spec_float.

(** The contribution that a run of the body leaves when its ray hits. *)
Lemma loop_body_contribution fuel pass hash_random world st obj t step :
  nearestIntersection ray_epsilon world (ray st) = (Some obj, t) ->
  loop_body USE_DOUBLE ray_epsilon std_cos std_sin fuel pass hash_random world st = Some step ->
  contribution_after step =
  direct_light USE_DOUBLE ray_epsilon world st obj
    (getNormal obj (hit_point USE_DOUBLE (ray st) t)) (hit_point USE_DOUBLE (ray st) t).
Proof.
  intros N. unfold loop_body. rewrite N. cbv zeta.
  destruct (bounce st + 1 >? max_bounces).
  - intros H. injection H as <-. reflexivity.
  - destruct (halton_sample _ _ _ _ _) as [sx |]; [ | discriminate ].
    destruct (halton_sample _ _ _ _ _) as [sy |]; [ | discriminate ].
    intros H. injection H as <-. reflexivity.
Qed.

End DirectLight.

(** X15.  At a run of the loop body whose ray hits an object, the
    contribution left is the one found plus the direct-light term
    (throughput times [refl_colour], which is the object's colour times
    [max (0, normal . light_dir)], divided by the squared distance to the
    light at (8, 12, -6), times 420) when the shadow ray from the hit point
    towards the light finds no object, or finds one at a distance at or
    beyond [light_len]; otherwise it is the contribution found, unchanged.
    It is unchanged in particular when an object of the scene reports, for
    the shadow ray, a distance above [ray_epsilon] and strictly below
    [light_len]. *)
Theorem direct_light_iff_unoccluded
    (USE_DOUBLE : bool) (ray_epsilon : spec_float) (std_cos std_sin : spec_float -> spec_float)
    (fuel : nat) (pass : Z) (hash_random : spec_float) (world : Scene) (st : PathState)
    (obj : SceneObject) (t : spec_float) (step : Step) :
  nearestIntersection ray_epsilon world (ray st) = (Some obj, t) ->
  loop_body USE_DOUBLE ray_epsilon std_cos std_sin fuel pass hash_random world st = Some step ->
  let hit_p := hit_point USE_DOUBLE (ray st) t in
  let normal := getNormal obj hit_p in
  let shadow := nearestIntersection ray_epsilon world (shadow_ray USE_DOUBLE hit_p) in
  let lit := fst shadow = None \/ IEEE.ge (snd shadow) (light_len USE_DOUBLE hit_p) = true in
  (lit -> contribution_after step =
          vadd IEEE.binary32 (contribution st)
            (vmul IEEE.binary32 (throughput st) (refl_colour USE_DOUBLE obj normal hit_p))) /\
  (~ lit -> contribution_after step = contribution st) /\
  (forall o, In o (objects world) ->
     IEEE.gt (intersect o (shadow_ray USE_DOUBLE hit_p)) ray_epsilon = true ->
     IEEE.lt (intersect o (shadow_ray USE_DOUBLE hit_p)) (light_len USE_DOUBLE hit_p) = true ->
     ~ lit /\ contribution_after step = contribution st) /\
  shadow_ray USE_DOUBLE hit_p =
    Ray.make hit_p
      (vscale (real USE_DOUBLE)
         (vsub (real USE_DOUBLE)
            (Vec3.make (IEEE.of_Z (real USE_DOUBLE) 8) (IEEE.of_Z (real USE_DOUBLE) 12)
               (IEEE.of_Z (real USE_DOUBLE) (-6))) hit_p)
         (IEEE.div (real USE_DOUBLE) (IEEE.of_Z (real USE_DOUBLE) 1)
            (light_len USE_DOUBLE hit_p))) /\
  refl_colour USE_DOUBLE obj normal hit_p =
    vscale IEEE.binary32
      (vdiv IEEE.binary32
         (vscale IEEE.binary32 (colour obj)
            (IEEE.max (IEEE.of_Z IEEE.binary32 0)
               (float_of_real USE_DOUBLE
                  (dot (real USE_DOUBLE) normal (light_dir USE_DOUBLE hit_p)))))
         (float_of_real USE_DOUBLE (light_ln2 USE_DOUBLE hit_p)))
      (IEEE.of_Z IEEE.binary32 420).
Proof.
  intros N B hit_p normal shadow lit.
  rewrite (loop_body_contribution _ _ _ _ _ _ _ _ _ _ _ _ N B).
  fold hit_p. fold normal. unfold direct_light.
  pose proof (unoccluded_spec USE_DOUBLE ray_epsilon world hit_p) as U.
  fold shadow in U. fold lit in U.
  repeat split.
  - intros L. apply U in L. rewrite L. reflexivity.
  - intros L. destruct (unoccluded USE_DOUBLE ray_epsilon world hit_p); [ | reflexivity ].
    exfalso. apply L, U. reflexivity.
  - rewrite <- U, (occluder_shadows USE_DOUBLE ray_epsilon world hit_p o) by assumption.
    discriminate.
  - rewrite (occluder_shadows USE_DOUBLE ray_epsilon world hit_p o) by assumption.
    reflexivity.
Qed.

Lemma direct_light_iff_unoccluded_witness :
  nearestIntersection Examples.epsilon Examples.enclosing (ray Examples.first_state)
    = (Some (Examples.at_distance Examples.one), Examples.one) /\
  loop_body false Examples.epsilon Examples.cos_still Examples.sin_still 33 1
    Examples.first_hash Examples.enclosing Examples.first_state
    = Some (Continue Examples.second_state) /\
  contribution_after (Continue Examples.second_state) = contribution Examples.first_state.
Proof.
  assert (N : nearestIntersection Examples.epsilon Examples.enclosing (ray Examples.first_state)
              = (Some (Examples.at_distance Examples.one), Examples.one))
    by (vm_compute; reflexivity).
  assert (B : loop_body false Examples.epsilon Examples.cos_still Examples.sin_still 33 1
                Examples.first_hash Examples.enclosing Examples.first_state
              = Some (Continue Examples.second_state))
    by (vm_compute; reflexivity).
  split; [ exact N | ]. split; [ exact B | ].
  destruct (direct_light_iff_unoccluded false Examples.epsilon Examples.cos_still
              Examples.sin_still 33 1 Examples.first_hash Examples.enclosing
              Examples.first_state (Examples.at_distance Examples.one) Examples.one
              (Continue Examples.second_state) N B) as [_ [_ [H _]]].
  apply (H (Examples.at_distance Examples.one)).
  - left. reflexivity.
  - vm_compute. reflexivity.
  - vm_compute. reflexivity.
Defined.

(* ================================================================== *)
(** ** [RadicalInverse]: indices whose reversed digits fit an [int] *)

Module RadicalDigitsFacts.

Lemma digits_zero fuel b : RadicalSpec.digits fuel b 0 = [].
Proof. destruct fuel; reflexivity. Qed.

(** As many digits as the index has, and no more. *)
Lemma digits_length_bound fuel b : forall a,
  2 <= b -> 0 < a ->
  b ^ Z.of_nat (length (RadicalSpec.digits fuel b a)) <= a * b.
Proof.
  induction fuel as [| fuel IH]; intros a Hb Ha.
  - simpl. nia.
  - cbn [RadicalSpec.digits]. destruct (Z.eqb_spec a 0) as [-> | Na]; [ lia | ].
    cbn [length]. rewrite Nat2Z.inj_succ, Z.pow_succ_r by lia.
    pose proof (Z.div_mod a b ltac:(lia)) as D.
    pose proof (Z.mod_pos_bound a b ltac:(lia)) as M.
    destruct (Z.eq_dec (a / b) 0) as [E | E].
    + rewrite E, digits_zero. simpl. nia.
    + assert (Q : 0 < a / b).
      { pose proof (Z.div_pos a b ltac:(lia) ltac:(lia)). lia. }
      specialize (IH (a / b) Hb Q). nia.
Qed.

Lemma digits_range fuel b : forall a,
  2 <= b -> 0 <= a -> Forall (fun d => 0 <= d < b) (RadicalSpec.digits fuel b a).
Proof.
  induction fuel as [| fuel IH]; intros a Hb Ha; [ constructor | ].
  cbn [RadicalSpec.digits]. destruct (a =? 0); constructor.
  - apply Z.mod_pos_bound. lia.
  - apply IH; [ exact Hb | apply Z.div_pos; lia ].
Qed.

(** Reading digits most significant first stays below the next power. *)
Lemma fold_digits_bound b ds : forall acc,
  2 <= b -> Forall (fun d => 0 <= d < b) ds -> 0 <= acc ->
  0 <= fold_left (fun acc d => acc * b + d) ds acc
    < (acc + 1) * b ^ Z.of_nat (length ds).
Proof.
  induction ds as [| d ds IH]; intros acc Hb Hd Ha.
  - simpl. lia.
  - inversion Hd as [| d' ds' Hd0 Hds]; subst.
    cbn [fold_left length]. rewrite Nat2Z.inj_succ, Z.pow_succ_r by lia.
    specialize (IH (acc * b + d) Hb Hds ltac:(nia)).
    assert (P : 0 < b ^ Z.of_nat (length ds)) by (apply Z.pow_pos_nonneg; lia).
    split; [ lia | ].
    apply Z.lt_le_trans with (1 := proj2 IH).
    assert ((acc * b + d + 1) <= (acc + 1) * b) by nia. nia.
Qed.

(** The reversed digits of an index, as a number, stay below [a * b]. *)
Lemma reversed_bound fuel b a :
  2 <= b -> 0 <= a -> 0 <= RadicalSpec.reversed fuel b a <= a * b.
Proof.
  intros Hb Ha. unfold RadicalSpec.reversed, RadicalSpec.number_of.
  destruct (Z.eq_dec a 0) as [-> | Na].
  - rewrite digits_zero. simpl. lia.
  - pose proof (fold_digits_bound b _ 0 Hb (digits_range fuel b a Hb Ha) ltac:(lia)) as F.
    pose proof (digits_length_bound fuel b a Hb ltac:(lia)) as L.
    lia.
Qed.

Lemma scale_by_not_negative ib n : forall x,
  IEEE.not_negative ib = true -> IEEE.not_negative x = true ->
  IEEE.not_negative (scale_by ib n x) = true.
Proof.
  unfold scale_by. induction n as [| n IH]; intros x Hi Hx; [ exact Hx | ].
  cbn [Nat.iter]. apply SignFacts.SFmul_not_negative; [ now apply IH | exact Hi ].
Qed.

Lemma not_negative_le_zero x :
  IEEE.is_nan x = false -> IEEE.not_negative x = true -> IEEE.le IEEE.zero x = true.
Proof. destruct x as [[] | [] | | [] m e]; simpl; intros; try discriminate; reflexivity. Qed.

End RadicalDigitsFacts.

(** Indices whose reversed digits fit: the value is in the unit interval. *)
Lemma RadicalInverse_range (a base : Z) (fuel : nat) (r : spec_float) :
  in_int base -> 0 <= a -> 2 <= base -> a * base <= INT_MAX ->
  RadicalInverse fuel a base = Some r ->
  in_int (RadicalSpec.reversed fuel base a) /\
  IEEE.le IEEE.zero r = true /\ IEEE.lt r double_one = true.
Proof.
  intros Ib Ha Hb Hab H.
  assert (Ia : in_int a) by (unfold in_int, INT_MIN, INT_MAX in *; nia).
  pose proof (RadicalDigitsFacts.reversed_bound fuel base a Hb Ha) as Rb.
  assert (Ir : in_int (RadicalSpec.reversed fuel base a))
    by (unfold in_int, INT_MIN, INT_MAX in *; lia).
  split; [ exact Ir | ].
  destruct (RadicalInverse_capped _ _ _ _ Ia Ib H) as [L _].
  split; [ | exact L ].
  apply RadicalDigitsFacts.not_negative_le_zero; [ apply (IEEEFacts.ltb_not_nan _ _ L) | ].
  rewrite (RadicalInverse_digits _ _ _ _ Ia Ib Ha Hb H).
  rewrite RadicalLoopFacts.wrap_int_id by exact Ir.
  unfold IEEE.min. destruct (IEEE.lt DoubleOneMinusEpsilon _); [ reflexivity | ].
  apply (SignFacts.SFmul_not_negative 53 1024).
  - apply SignFacts.sign_clear_not_negative, (SignFacts.of_Z_sign_clear 53 1024). lia.
  - apply RadicalDigitsFacts.scale_by_not_negative; [ | reflexivity ].
    apply (SignFacts.SFdiv_not_negative 53 1024); [ reflexivity | ].
    apply (SignFacts.of_Z_sign_clear 53 1024). lia.
Qed.

(** X5.  For an index that is not negative and a base of two or more whose
    product with the index fits an [int], the reversed digits fit an [int]
    too, and what [RadicalInverse] returns is in the unit interval: at
    least zero, and strictly below one. *)
Theorem RadicalInverse_unit_interval (a base : Z) (fuel : nat) (r : spec_float) :
  in_int base -> 0 <= a -> 2 <= base -> a * base <= INT_MAX ->
  RadicalInverse fuel a base = Some r ->
  in_int (RadicalSpec.reversed fuel base a) /\
  IEEE.le IEEE.zero r = true /\ IEEE.lt r double_one = true.
Proof. exact (RadicalInverse_range a base fuel r). Qed.

Lemma RadicalInverse_unit_interval_witness :
  in_int 3 /\ 0 <= 5 /\ 2 <= 3 /\ 5 * 3 <= INT_MAX /\
  RadicalInverse 33 5 3 = Some (S754_finite false 7005599420354104 (-53)) /\
  RadicalSpec.reversed 33 3 5 = 7 /\
  IEEE.le IEEE.zero (S754_finite false 7005599420354104 (-53)) = true.
Proof.
  assert (I3 : in_int 3) by (unfold in_int, INT_MIN, INT_MAX; lia).
  assert (M : 5 * 3 <= INT_MAX) by (unfold INT_MAX; lia).
  assert (R : RadicalInverse 33 5 3 = Some (S754_finite false 7005599420354104 (-53)))
    by (vm_compute; reflexivity).
  split; [ exact I3 | ]. split; [ lia | ]. split; [ lia | ]. split; [ exact M | ].
  split; [ exact R | ]. split; [ reflexivity | ].
  exact (proj1 (proj2 (RadicalInverse_unit_interval 5 3 33 _ I3 ltac:(lia) ltac:(lia) M R))).
Defined.

(* ================================================================== *)
(** ** Operations that are exact *)

Module ExactFacts.

Import ShiftFacts RoundFacts AlignFacts.

Lemma SFmul_comm prec emax x y : SFmul prec emax x y = SFmul prec emax y x.
Proof.
  destruct x as [sx | sx | | sx mx ex], y as [sy | sy | | sy my ey]; simpl;
    try reflexivity; try (rewrite xorb_comm; reflexivity).
  rewrite xorb_comm, Pos.mul_comm, Z.add_comm. reflexivity.
Qed.

Section Format.

Variables prec emax : Z.
Hypothesis prec_pos : 0 < prec.

Local Abbreviation fexp := (SpecFloat.fexp prec emax).
Local Abbreviation emin := (SpecFloat.emin prec emax).

(** A canonical mantissa at an exponent in range is what [round_result]
    builds from it. *)
Lemma round_result_canonical s m e :
  fexp (Zdigits2 (Zpos m) + e) = e -> e <= emax - prec ->
  round_result prec emax s (Zpos m) e = S754_finite s m e.
Proof.
  intros C B. unfold round_result. rewrite C, Z.max_id, Z.sub_diag.
  change (2 ^ 0) with 1. rewrite Z.div_1_r.
  destruct (Z.leb_spec e (emax - prec)); [ reflexivity | lia ].
Qed.

(** Scaling by a power of two is exact while the exponent stays in range. *)
Lemma SFmul_pow2_exact s m e k :
  fexp (Zdigits2 (Zpos m) + (e + k + (prec - 1))) = e + k + (prec - 1) ->
  e + k + (prec - 1) <= emax - prec ->
  SFmul prec emax (S754_finite s m e) (S754_finite false (Z.to_pos (2 ^ (prec - 1))) k)
  = S754_finite s m (e + k + (prec - 1)).
Proof.
  intros C B. unfold SFmul. rewrite xorb_false_r.
  assert (P : 0 < 2 ^ (prec - 1)) by (apply Z.pow_pos_nonneg; lia).
  rewrite Pos2Z.inj_mul, Z2Pos.id by exact P.
  destruct (binary_round_aux_spec prec emax s (Zpos m * 2 ^ (prec - 1)) (e + k) loc_Exact
              ltac:(lia)) as [m2 [_ [X ->]]].
  revert X. rewrite Zdigits2_mul_pow by lia.
  replace (Zdigits2 (Zpos m) + (prec - 1) + (e + k))
    with (Zdigits2 (Zpos m) + (e + k + (prec - 1))) by lia.
  rewrite C. rewrite Z.max_r by lia.
  replace (e + k + (prec - 1) - (e + k)) with (prec - 1) by lia.
  rewrite Z.mod_mul, Z.div_mul by lia.
  intros X. rewrite (X eq_refl eq_refl).
  now apply round_result_canonical.
Qed.

(** The conversion of a positive integer that fits the mantissa. *)
Lemma of_Z_exact_value z :
  0 < z -> Zdigits2 z <= prec -> emin <= Zdigits2 z - prec -> Zdigits2 z <= emax ->
  IEEE.of_Z (IEEE.Format prec emax) z =
  S754_finite false (Z.to_pos (z * 2 ^ (prec - Zdigits2 z))) (Zdigits2 z - prec).
Proof.
  intros Hz Hd He Hx. unfold IEEE.of_Z, binary_normalize. simpl IEEE.fprec. simpl IEEE.femax.
  destruct z as [| p | p]; try lia.
  pose proof (fexp_eq prec emax (Zdigits2 (Zpos p) + 0)) as F.
  rewrite binary_round_exact by lia.
  revert F. generalize (fexp (Zdigits2 (Zpos p) + 0)). intros fx F.
  assert (Fx : fx = Zdigits2 (Zpos p) - prec) by lia. clear F. subst fx.
  destruct (Z.leb_spec (Zdigits2 (Zpos p) - prec) (emax - prec)); [ | lia ].
  replace (0 - (Zdigits2 (Zpos p) - prec)) with (prec - Zdigits2 (Zpos p)) by lia.
  reflexivity.
Qed.

End Format.

End ExactFacts.

(* ================================================================== *)
(** ** [uintToUnitReal] *)

Module UnitRealFacts.

Import ShiftFacts RoundFacts AlignFacts ExactFacts.

(** The bits of [(v >> 9) | 0x3f800000]: exponent field 127, and the 23
    bits of [v >> 9] as the fraction. *)
Lemma low_bits_clear k n : 0 <= k < 2 ^ 23 -> 23 <= n -> Z.testbit k n = false.
Proof.
  intros [H0 H1] Hn. destruct (Z.eq_dec k 0) as [-> | Nk]; [ apply Z.bits_0 | ].
  apply Z.bits_above_log2; [ lia | ].
  assert (Z.log2 k < 23) by (apply Z.log2_lt_pow2; lia). lia.
Qed.

Lemma lor_exponent k : 0 <= k < 2 ^ 23 -> Z.lor k 1065353216 = k + 127 * 2 ^ 23.
Proof.
  intros Hk. change 1065353216 with (127 * 2 ^ 23).
  rewrite <- Z.lxor_lor, <- Z.add_nocarry_lxor; try reflexivity;
    apply Z.bits_inj'; intros n Hn; rewrite Z.land_spec, Z.bits_0;
    destruct (Z_lt_le_dec n 23) as [L | L];
    try (rewrite Z.mul_pow2_bits_low by lia; apply andb_false_r);
    rewrite (low_bits_clear k n Hk L); reflexivity.
Qed.

Lemma float_of_bits_one_two k :
  0 <= k < 2 ^ 23 ->
  IEEE.float_of_bits (Z.lor k 1065353216) = S754_finite false (Z.to_pos (k + 2 ^ 23)) (-23).
Proof.
  intros Hk. unfold IEEE.float_of_bits. rewrite (lor_exponent k Hk).
  assert (S : Z.testbit (k + 127 * 2 ^ 23) 31 = false).
  { apply Z.testbit_false; [ lia | ]. rewrite Z.div_small; [ reflexivity | lia ]. }
  assert (E : Z.land (Z.shiftr (k + 127 * 2 ^ 23) 23) 255 = 127).
  { rewrite Z.shiftr_div_pow2, Z.div_add, Z.div_small by lia. reflexivity. }
  assert (M : Z.land (k + 127 * 2 ^ 23) (2 ^ 23 - 1) = k).
  { change (2 ^ 23 - 1) with (Z.ones 23). rewrite Z.land_ones by lia.
    rewrite Z.mod_add by lia. apply Z.mod_small. lia. }
  cbv zeta. rewrite S, E, M. cbn [Z.eqb Pos.eqb].
  destruct (k + 2 ^ 23) as [| p | p] eqn:P; try lia. reflexivity.
Qed.

(** In single precision: the value [(v >> 9) / 2 ^ 23], exactly. *)
Lemma uintToUnitReal_float v :
  in_uint32 v ->
  uintToUnitReal false v = binary_normalize 24 128 (Z.shiftr v 9) (-23) false.
Proof.
  unfold in_uint32. intros Hv. unfold uintToUnitReal.
  assert (Hk : 0 <= Z.shiftr v 9 < 2 ^ 23).
  { rewrite Z.shiftr_div_pow2 by lia. split; [ apply Z.div_pos; lia | ].
    apply Z.div_lt_upper_bound; lia. }
  rewrite (float_of_bits_one_two _ Hk).
  change (IEEE.of_Z IEEE.binary32 1) with (S754_finite false 8388608 (-23)).
  unfold IEEE.sub, SFsub. simpl IEEE.fprec. simpl IEEE.femax.
  rewrite !WrapFacts.cond_Zopp_false.
  replace (IntDef.Z.min (-23) (-23)) with (-23) by reflexivity.
  rewrite !fst_shl_align by lia.
  rewrite Z.sub_diag, !Z.mul_1_r, Z2Pos.id by lia.
  f_equal. change (Z.pos 8388608) with (2 ^ 23). lia.
Qed.

(** In double precision: the value [v / 2 ^ 32], exactly. *)
Lemma uintToUnitReal_double v :
  0 < v < 2 ^ 32 ->
  uintToUnitReal true v =
  S754_finite false (Z.to_pos (v * 2 ^ (53 - Zdigits2 v))) (Zdigits2 v - 85).
Proof.
  intros Hv. unfold uintToUnitReal.
  assert (D : 0 < Zdigits2 v <= 32).
  { split; [ apply Zdigits2_pos; lia | apply Zdigits2_le; lia ]. }
  change uint32_double_scale with (S754_finite false (Z.to_pos (2 ^ (53 - 1))) (-84)).
  change IEEE.binary64 with (IEEE.Format 53 1024).
  rewrite (of_Z_exact_value 53 1024) by (try (unfold SpecFloat.emin); lia).
  unfold IEEE.mul. simpl IEEE.fprec. simpl IEEE.femax.
  assert (P : 0 < 2 ^ (53 - Zdigits2 v)) by (apply Z.pow_pos_nonneg; lia).
  rewrite (SFmul_pow2_exact 53 1024 ltac:(lia)).
  - f_equal. lia.
  - rewrite Z2Pos.id by nia. rewrite Zdigits2_mul_pow by lia.
    rewrite fexp_eq. unfold SpecFloat.emin. lia.
  - lia.
Qed.

End UnitRealFacts.

Section UnitReal.

Import ShiftFacts RoundFacts AlignFacts UnitRealFacts.

(** The single-precision result, by cases. *)
Lemma uintToUnitReal_float_cases v :
  in_uint32 v ->
  (Z.shiftr v 9 = 0 /\ uintToUnitReal false v = S754_zero false) \/
  (exists m e, uintToUnitReal false v = S754_finite false m e /\
               e <= -24 /\ Zpos m = Z.shiftr v 9 * 2 ^ (- 23 - e) /\
               valid_binary 24 128 (S754_finite false m e) = true).
Proof.
  intros Hv. rewrite (uintToUnitReal_float v Hv).
  assert (Hk : 0 <= Z.shiftr v 9 < 2 ^ 23).
  { unfold in_uint32 in Hv. rewrite Z.shiftr_div_pow2 by lia.
    split; [ apply Z.div_pos; lia | ]. apply Z.div_lt_upper_bound; lia. }
  destruct (Z.shiftr v 9) as [| p | p] eqn:K; [ left; split; reflexivity | | lia ].
  right. unfold binary_normalize.
  pose proof (binary_round_valid 24 128 ltac:(lia) false p (-23)) as V.
  assert (D : 0 < Zdigits2 (Zpos p) <= 23).
  { split; [ apply Zdigits2_pos; lia | apply Zdigits2_le; lia ]. }
  pose proof (fexp_eq 24 128 (Zdigits2 (Zpos p) + -23)) as F.
  unfold SpecFloat.emin in F.
  rewrite binary_round_exact in V |- * by lia.
  revert V F. generalize (SpecFloat.fexp 24 128 (Zdigits2 (Zpos p) + -23)). intros fx V F.
  assert (Fx : fx = Zdigits2 (Zpos p) - 47) by lia. clear F. subst fx.
  destruct (Z.leb_spec (Zdigits2 (Zpos p) - 47) (128 - 24)); [ | lia ].
  eexists. eexists. split; [ reflexivity | ]. split; [ lia | ]. split; [ | exact V ].
  assert (P : 0 < 2 ^ (-23 - (Zdigits2 (Zpos p) - 47))) by (apply Z.pow_pos_nonneg; lia).
  rewrite Z2Pos.id by nia. reflexivity.
Qed.

(** The double-precision result, by cases. *)
Lemma uintToUnitReal_double_cases v :
  in_uint32 v ->
  (v = 0 /\ uintToUnitReal true v = S754_zero false) \/
  (exists m e, uintToUnitReal true v = S754_finite false m e /\
               e <= -53 /\ Zpos m = v * 2 ^ (- 32 - e) /\
               valid_binary 53 1024 (S754_finite false m e) = true).
Proof.
  unfold in_uint32. intros Hv.
  destruct (Z.eq_dec v 0) as [-> | Nv]; [ left; split; reflexivity | ].
  right. rewrite (uintToUnitReal_double v ltac:(lia)).
  assert (D : 0 < Zdigits2 v <= 32).
  { split; [ apply Zdigits2_pos; lia | apply Zdigits2_le; lia ]. }
  assert (P : 0 < 2 ^ (53 - Zdigits2 v)) by (apply Z.pow_pos_nonneg; lia).
  eexists. eexists. split; [ reflexivity | ]. split; [ lia | ].
  split.
  - rewrite Z2Pos.id by nia. f_equal. f_equal. lia.
  - unfold valid_binary, bounded, canonical_mantissa.
    change (Zpos (digits2_pos ?m)) with (Zdigits2 (Zpos m)).
    rewrite Z2Pos.id by nia. rewrite Zdigits2_mul_pow by lia.
    rewrite fexp_eq. unfold SpecFloat.emin.
    apply andb_true_iff. split; [ apply Z.eqb_eq | apply Z.leb_le ]; lia.
Qed.

(** Every 32-bit value goes into the unit interval. *)
Lemma uintToUnitReal_range (USE_DOUBLE : bool) (v : Z) :
  in_uint32 v ->
  IEEE.valid (real USE_DOUBLE) (uintToUnitReal USE_DOUBLE v) = true /\
  IEEE.le IEEE.zero (uintToUnitReal USE_DOUBLE v) = true /\
  IEEE.lt (uintToUnitReal USE_DOUBLE v) (IEEE.of_Z (real USE_DOUBLE) 1) = true.
Proof.
  intros Hv. destruct USE_DOUBLE.
  - destruct (uintToUnitReal_double_cases v Hv) as [[_ ->] | [m [e [-> [He [_ V]]]]]].
    + repeat split; reflexivity.
    + split; [ exact V | ]. split; [ reflexivity | ].
      change (IEEE.of_Z (real true) 1) with (S754_finite false 4503599627370496 (-52)).
      apply IEEEFacts.ltb_finite. right. left. repeat split. left. lia.
  - destruct (uintToUnitReal_float_cases v Hv) as [[_ ->] | [m [e [-> [He [_ V]]]]]].
    + repeat split; reflexivity.
    + split; [ exact V | ]. split; [ reflexivity | ].
      change (IEEE.of_Z (real false) 1) with (S754_finite false 8388608 (-23)).
      apply IEEEFacts.ltb_finite. right. left. repeat split. left. lia.
Qed.

End UnitReal.

(** X6.  [uintToUnitReal] maps every 32-bit value into the unit interval,
    in single and in double precision: the result is a value of the format,
    at least zero and strictly below one. *)
Theorem uintToUnitReal_unit_interval (USE_DOUBLE : bool) (v : Z) :
  in_uint32 v ->
  IEEE.valid (real USE_DOUBLE) (uintToUnitReal USE_DOUBLE v) = true /\
  IEEE.le IEEE.zero (uintToUnitReal USE_DOUBLE v) = true /\
  IEEE.lt (uintToUnitReal USE_DOUBLE v) (IEEE.of_Z (real USE_DOUBLE) 1) = true.
Proof. exact (uintToUnitReal_range USE_DOUBLE v). Qed.

Lemma uintToUnitReal_unit_interval_witness :
  in_uint32 4294967295 /\
  uintToUnitReal false 4294967295 = S754_finite false 16777214 (-24) /\
  IEEE.lt (uintToUnitReal false 4294967295) (IEEE.of_Z (real false) 1) = true.
Proof.
  assert (I : in_uint32 4294967295) by (unfold in_uint32; lia).
  split; [ exact I | ]. split; [ vm_compute; reflexivity | ].
  exact (proj2 (proj2 (uintToUnitReal_unit_interval false 4294967295 I))).
Defined.

(** X7.  The value of [uintToUnitReal] is exact: [v / 2 ^ 32] in double
    precision, and [(v >> 9) / 2 ^ 23] in single precision, where the low
    nine bits of [v] are dropped. *)
Theorem uintToUnitReal_exact (v : Z) :
  in_uint32 v ->
  dyadic (uintToUnitReal true v) v 32 = true /\
  dyadic (uintToUnitReal false v) (Z.shiftr v 9) 23 = true.
Proof.
  intros Hv. split.
  - destruct (uintToUnitReal_double_cases v Hv) as [[-> ->] | [m [e [-> [He [M _]]]]]];
      [ reflexivity | ].
    unfold dyadic. cbn [Z.opp]. apply andb_true_iff.
    split; [ apply Z.leb_le; lia | apply Z.eqb_eq; exact M ].
  - destruct (uintToUnitReal_float_cases v Hv) as [[-> ->] | [m [e [-> [He [M _]]]]]];
      [ reflexivity | ].
    unfold dyadic. cbn [Z.opp]. apply andb_true_iff.
    split; [ apply Z.leb_le; lia | apply Z.eqb_eq; exact M ].
Qed.

Lemma uintToUnitReal_exact_witness :
  in_uint32 3221225983 /\ Z.shiftr 3221225983 9 = 6291456 /\
  dyadic (uintToUnitReal true 3221225983) 3221225983 32 = true /\
  dyadic (uintToUnitReal false 3221225983) 6291456 23 = true.
Proof.
  assert (I : in_uint32 3221225983) by (unfold in_uint32; lia).
  split; [ exact I | ]. split; [ reflexivity | ].
  exact (uintToUnitReal_exact 3221225983 I).
Defined.

(* ================================================================== *)
(** ** The random offset of a pixel, and the order of the arguments of
    [wrap01] *)

Lemma hash_range x : in_uint32 (hash x).
Proof. unfold hash. apply HashFacts.to_uint32_range. Qed.

Lemma SFadd_comm prec emax x y : SFadd prec emax x y = SFadd prec emax y x.
Proof.
  destruct x as [sx | sx | | sx mx ex], y as [sy | sy | | sy my ey]; simpl;
    try reflexivity; try (destruct sx, sy; reflexivity).
  rewrite Z.min_comm, Z.add_comm. reflexivity.
Qed.

(** X8.  The random offset [hash_random] that [generateColour] derives from
    the pixel index is in the unit interval for every pixel, frame and
    image size, in single and in double precision: a value of the format,
    at least zero and strictly below one. *)
Theorem pixel_hash_unit_interval (USE_DOUBLE : bool) (x y frame width height : Z) :
  IEEE.valid (real USE_DOUBLE) (pixel_hash USE_DOUBLE x y frame width height) = true /\
  IEEE.le IEEE.zero (pixel_hash USE_DOUBLE x y frame width height) = true /\
  IEEE.lt (pixel_hash USE_DOUBLE x y frame width height) (IEEE.of_Z (real USE_DOUBLE) 1) = true.
Proof. unfold pixel_hash. apply uintToUnitReal_range, hash_range. Qed.

(** X9.  [wrap01] does not depend on the order of its arguments, whatever
    they are (NaN and infinities included): the floating-point sum it
    tests and returns is commutative. *)
Theorem wrap01_comm (USE_DOUBLE : bool) (u v : spec_float) :
  wrap01 USE_DOUBLE u v = wrap01 USE_DOUBLE v u.
Proof.
  unfold wrap01, IEEE.add. rewrite (SFadd_comm _ _ u v). reflexivity.
Qed.

(* ================================================================== *)
(** ** [nearestIntersection] over the parts of a scene *)

Section ScenePartition.

Variable ray_epsilon : spec_float.
Variable r : Ray.t.

Local Abbreviation update := (nearest_update ray_epsilon r).
Local Abbreviation nearest := (fun objs => fold_left update objs (None, real_inf)).

(** The distance of a query is never NaN. *)
Lemma nearest_not_nan objs : IEEE.is_nan (snd (nearest objs)) = false.
Proof.
  pose proof (nearest_fold_spec ray_epsilon r objs) as S.
  inversion S as [Hnone Heq | before o after Hobjs Hrange Hbefore Hafter Heq]; [ reflexivity | ].
  simpl. unfold hit_in_range in Hrange. apply andb_true_iff in Hrange as [G _].
  exact (above_epsilon_not_nan ray_epsilon _ G).
Qed.

(** An object that reports no distance in range leaves every accumulator
    as it is. *)
Lemma nearest_update_miss acc o :
  hit_in_range ray_epsilon (intersect o r) = false -> update acc o = acc.
Proof.
  unfold hit_in_range, nearest_update. intros H.
  destruct (IEEE.gt (intersect o r) ray_epsilon); [ | reflexivity ]. simpl in *.
  destruct (IEEE.lt (intersect o r) (snd acc)) eqn:L; [ | reflexivity ].
  unfold IEEE.lt, real_inf in *. rewrite (ltb_below_inf _ _ L) in H. discriminate.
Qed.

Lemma fold_ignores_misses objs : forall acc,
  fold_left update objs acc =
  fold_left update (filter (fun o => hit_in_range ray_epsilon (intersect o r)) objs) acc.
Proof.
  induction objs as [| o objs IH]; intros acc; [ reflexivity | ].
  cbn [fold_left filter].
  destruct (hit_in_range ray_epsilon (intersect o r)) eqn:H.
  - cbn [fold_left]. apply IH.
  - rewrite (nearest_update_miss acc o H). apply IH.
Qed.

(** Going on from the result of a first part of the scene is taking the
    nearer of the two results, the first part winning ties. *)
Lemma fold_from_result objs : forall acc,
  IEEE.is_nan (snd acc) = false ->
  fold_left update objs acc =
  if IEEE.lt (snd (nearest objs)) (snd acc) then nearest objs else acc.
Proof.
  induction objs as [| o objs IH] using rev_ind; intros acc Hacc.
  - simpl. destruct acc as [oa ta]. simpl in *.
    destruct (IEEE.lt real_inf ta) eqn:L; [ | reflexivity ].
    exfalso. destruct ta as [s | [] | | s m e]; discriminate.
  - rewrite !fold_left_app. cbn [fold_left]. rewrite (IH acc Hacc).
    pose proof (nearest_not_nan objs) as N.
    destruct (fold_left update objs (None, real_inf)) as [o2 t2]. simpl in N.
    destruct acc as [o1 t1]. simpl in Hacc. cbn [snd].
    unfold nearest_update. cbn [snd].
    unfold IEEE.lt, IEEE.gt in *.
    destruct (SFltb ray_epsilon (intersect o r)) eqn:G;
      destruct (SFltb (intersect o r) t2) eqn:L2;
      destruct (SFltb (intersect o r) t1) eqn:L1;
      destruct (SFltb t2 t1) eqn:L21;
      cbn [andb snd]; rewrite ?G, ?L1, ?L2, ?L21; cbn [andb snd]; rewrite ?L1, ?L21;
      try reflexivity; exfalso.
    + rewrite (IEEEFacts.ltb_trans _ _ _ L2 L21) in L1. discriminate.
    + assert (Le : SFleb t1 t2 = true) by (apply IEEEFacts.not_ltb_leb; assumption).
      rewrite (IEEEFacts.ltb_leb_trans _ _ _ L1 Le) in L2. discriminate.
Qed.

End ScenePartition.

(** X10.  Querying a scene made of two parts is querying each part and
    keeping the nearer result, the part listed first winning when the two
    distances are equal. *)
Theorem nearestIntersection_app (ray_epsilon : spec_float) (w1 w2 : list SceneObject) (r : Ray.t) :
  nearestIntersection ray_epsilon {| objects := w1 ++ w2 |} r =
  if IEEE.lt (snd (nearestIntersection ray_epsilon {| objects := w2 |} r))
             (snd (nearestIntersection ray_epsilon {| objects := w1 |} r))
  then nearestIntersection ray_epsilon {| objects := w2 |} r
  else nearestIntersection ray_epsilon {| objects := w1 |} r.
Proof.
  unfold nearestIntersection. cbn [objects]. rewrite fold_left_app.
  apply fold_from_result, nearest_not_nan.
Qed.

(** X11.  Objects that report no distance strictly between [ray_epsilon]
    and infinity for a ray (a NaN, a distance at or below [ray_epsilon],
    an infinity) have no influence on the result of the query: it is the
    result for the scene without them. *)
Theorem nearestIntersection_ignores_misses (ray_epsilon : spec_float) (world : Scene) (r : Ray.t) :
  nearestIntersection ray_epsilon world r =
  nearestIntersection ray_epsilon
    {| objects := filter (fun o => hit_in_range ray_epsilon (intersect o r)) (objects world) |} r.
Proof. unfold nearestIntersection. cbn [objects]. apply fold_ignores_misses. Qed.

(* ================================================================== *)
(** ** [generateColour]: termination and sampling dimensions *)

(** X12.  [generateColour] returns for every pixel, frame, pass, image size
    and scene: each digit loop of [RadicalInverse] ends within 33 runs of
    its body, and the bounce loop within [max_bounces + 1 = 4] runs.  The
    colour returned and the number of runs do not depend on the fuel. *)
Theorem generateColour_terminates
    (USE_DOUBLE : bool) (ray_epsilon : spec_float)
    (std_cos std_sin std_tan : spec_float -> spec_float)
    (x y frame pass width height frames : Z) (world : Scene) :
  in_int pass ->
  exists (c : vec3) (n : nat),
    (1 <= n <= 4)%nat /\
    forall fuel iterations : nat,
      (33 <= fuel)%nat -> (4 <= iterations)%nat ->
      generateColour_counted USE_DOUBLE ray_epsilon std_cos std_sin std_tan fuel iterations
        x y frame pass width height frames world = Some (c, n) /\
      generateColour USE_DOUBLE ray_epsilon std_cos std_sin std_tan fuel iterations
        x y frame pass width height frames world = Some c.
Proof.
  intros Ip.
  destruct (generateColour_counted_returns USE_DOUBLE ray_epsilon std_cos std_sin std_tan
              x y frame pass width height frames world Ip) as [c [n [N R]]].
  exists c, n. split; [ exact N | ].
  intros fuel iterations Hf Hi. unfold generateColour.
  rewrite (R fuel iterations Hf Hi). split; reflexivity.
Qed.

Lemma generateColour_terminates_witness :
  in_int 1 /\
  exists (c : vec3) (n : nat),
    (1 <= n <= 4)%nat /\
    forall fuel iterations : nat,
      (33 <= fuel)%nat -> (4 <= iterations)%nat ->
      generateColour_counted false Examples.epsilon Examples.cos_still Examples.sin_still
        Examples.tan_still fuel iterations 0 0 0 1 4 4 0 Examples.enclosing = Some (c, n) /\
      generateColour false Examples.epsilon Examples.cos_still Examples.sin_still
        Examples.tan_still fuel iterations 0 0 0 1 4 4 0 Examples.enclosing = Some c.
Proof.
  assert (I : in_int 1) by (unfold in_int, INT_MIN, INT_MAX; lia).
  split; [ exact I | ].
  exact (generateColour_terminates false Examples.epsilon Examples.cos_still Examples.sin_still
           Examples.tan_still 0 0 0 1 4 4 0 Examples.enclosing I).
Defined.

(** X13.  In a scene where every ray hits an object, the bounce loop runs
    its body exactly [max_bounces + 1 = 4] times: three scatters, and a
    last hit at which the bounce limit ends the path. *)
Theorem generateColour_enclosed_runs
    (USE_DOUBLE : bool) (ray_epsilon : spec_float)
    (std_cos std_sin std_tan : spec_float -> spec_float)
    (fuel iterations : nat) (x y frame pass width height frames : Z) (world : Scene)
    (c : vec3) (n : nat) :
  (forall r, fst (nearestIntersection ray_epsilon world r) <> None) ->
  generateColour_counted USE_DOUBLE ray_epsilon std_cos std_sin std_tan fuel iterations
    x y frame pass width height frames world = Some (c, n) ->
  n = 4%nat.
Proof.
  intros He H. unfold generateColour_counted in H.
  destruct (primary_ray _ _ _ _ _ _ _ _ _ _ _ _) as [camera |]; [ | discriminate ].
  apply (bounce_loop_enclosed USE_DOUBLE ray_epsilon std_cos std_sin) in H;
    [ exact H | exact He | simpl; unfold max_bounces; lia ].
Qed.

Lemma generateColour_enclosed_runs_witness :
  (forall r, fst (nearestIntersection Examples.epsilon Examples.enclosing r) <> None) /\
  exists c,
    generateColour_counted false Examples.epsilon Examples.cos_still Examples.sin_still
      Examples.tan_still 33 4 0 0 0 1 4 4 0 Examples.enclosing = Some (c, 4%nat).
Proof.
  assert (E : forall r, fst (nearestIntersection Examples.epsilon Examples.enclosing r) <> None)
    by (intros r; cbv; discriminate).
  split; [ exact E | ].
  destruct (generateColour_counted false Examples.epsilon Examples.cos_still Examples.sin_still
              Examples.tan_still 33 4 0 0 0 1 4 4 0 Examples.enclosing) as [[c n] |] eqn:G;
    [ | vm_compute in G; discriminate ].
  exists c. f_equal. f_equal.
  exact (generateColour_enclosed_runs false Examples.epsilon Examples.cos_still
           Examples.sin_still Examples.tan_still 33 4 0 0 0 1 4 4 0 Examples.enclosing c n E G).
Defined.

(** X14.  A run of the loop body that scatters has the bounce counter [b]
    at 1, 2 or 3 after its increment, and draws its two samples from
    [RadicalInverse (pass, .)] with the bases listed in [primes] at the
    indices [(3 + 2 b) mod 6] and [(3 + 2 b + 1) mod 6], both within the
    bounds of the array, each combined by [wrap01] with the random offset
    of the pixel; the new direction is the scatter direction of these two
    samples. *)
Theorem scatter_samples_cyclic_primes
    (USE_DOUBLE : bool) (ray_epsilon : spec_float) (std_cos std_sin : spec_float -> spec_float)
    (fuel : nat) (pass : Z) (hash_random : spec_float) (world : Scene) (st st' : PathState) :
  0 <= bounce st ->
  loop_body USE_DOUBLE ray_epsilon std_cos std_sin fuel pass hash_random world st
    = Some (Continue st') ->
  let b := bounce st' in
  let i0 := (3 + 2 * b) mod 6 in
  let i1 := (3 + 2 * b + 1) mod 6 in
  b = bounce st + 1 /\ 1 <= b <= max_bounces /\
  0 <= i0 < num_primes /\ 0 <= i1 < num_primes /\
  In (prime_at i0) primes /\ In (prime_at i1) primes /\
  exists obj t rx ry,
    nearestIntersection ray_epsilon world (ray st) = (Some obj, t) /\
    RadicalInverse fuel pass (prime_at i0) = Some rx /\
    RadicalInverse fuel pass (prime_at i1) = Some ry /\
    Ray.d (ray st') =
      scatter_dir USE_DOUBLE std_cos std_sin
        (getNormal obj (hit_point USE_DOUBLE (ray st) t))
        (wrap01 USE_DOUBLE (real_of_double USE_DOUBLE rx) hash_random)
        (wrap01 USE_DOUBLE (real_of_double USE_DOUBLE ry) hash_random).
Proof.
  intros Hb H b i0 i1.
  destruct (loop_body_continue _ _ _ _ _ _ _ _ _ _ H) as [B1 [B2 [obj [t N]]]].
  fold b in B1, B2.
  assert (Hb' : 1 <= b <= max_bounces) by lia.
  destruct (scatter_dimensions b Hb') as [E0 [E1 [P0 P1]]].
  fold i0 in E0. fold i1 in E1. rewrite E0 in P0. rewrite E1 in P1.
  split; [ exact B1 | ]. split; [ exact Hb' | ].
  unfold num_primes.
  split; [ apply Z.mod_pos_bound; lia | ]. split; [ apply Z.mod_pos_bound; lia | ].
  split; [ exact P0 | ]. split; [ exact P1 | ].
  rewrite (loop_body_scatter _ _ _ _ _ _ _ _ _ _ _ N ltac:(lia)) in H.
  rewrite <- B1 in H. fold b in H. rewrite E0, E1 in H.
  unfold halton_sample in H.
  destruct (RadicalInverse fuel pass (prime_at i0)) as [rx |]; [ | discriminate ].
  destruct (RadicalInverse fuel pass (prime_at i1)) as [ry |]; [ | discriminate ].
  injection H as H. exists obj, t, rx, ry.
  split; [ exact N | ]. split; [ reflexivity | ]. split; [ reflexivity | ].
  rewrite <- H. reflexivity.
Qed.

Lemma scatter_samples_cyclic_primes_witness :
  0 <= bounce Examples.first_state /\
  loop_body false Examples.epsilon Examples.cos_still Examples.sin_still 33 1
    Examples.first_hash Examples.enclosing Examples.first_state
    = Some (Continue Examples.second_state) /\
  bounce Examples.second_state = 1 /\
  prime_at ((3 + 2 * bounce Examples.second_state) mod 6) = 13 /\
  prime_at ((3 + 2 * bounce Examples.second_state + 1) mod 6) = 2 /\
  In (prime_at ((3 + 2 * bounce Examples.second_state) mod 6)) primes.
Proof.
  assert (P : 0 <= bounce Examples.first_state) by (vm_compute; discriminate).
  assert (B : loop_body false Examples.epsilon Examples.cos_still Examples.sin_still 33 1
                Examples.first_hash Examples.enclosing Examples.first_state
              = Some (Continue Examples.second_state))
    by (vm_compute; reflexivity).
  split; [ exact P | ]. split; [ exact B | ].
  split; [ vm_compute; reflexivity | ].
  split; [ vm_compute; reflexivity | ]. split; [ vm_compute; reflexivity | ].
  exact (proj1 (proj2 (proj2 (proj2 (proj2
           (scatter_samples_cyclic_primes false Examples.epsilon Examples.cos_still
              Examples.sin_still 33 1 Examples.first_hash Examples.enclosing
              Examples.first_state Examples.second_state P B)))))).
Defined.

(* ================================================================== *)
(** ** A ray that leaves the scene: adding the sky to nothing *)

Module SkyFacts.

Import ShiftFacts RoundFacts AlignFacts ExactFacts.

Lemma SFadd_zero_l prec emax x :
  x <> S754_zero true -> SFadd prec emax (S754_zero false) x = x.
Proof. destruct x as [[] | [] | | s m e]; simpl; congruence. Qed.

Lemma Zdigits2_mul_ge a b : 0 < a -> 0 < b -> Zdigits2 a + Zdigits2 b - 1 <= Zdigits2 (a * b).
Proof.
  intros Ha Hb.
  destruct (Zdigits2_bounds a Ha) as [La _]. destruct (Zdigits2_bounds b Hb) as [Lb _].
  pose proof (Zdigits2_pos a Ha). pose proof (Zdigits2_pos b Hb).
  destruct (Zdigits2_bounds (a * b) ltac:(nia)) as [_ U].
  pose proof (Zdigits2_pos (a * b) ltac:(nia)).
  assert (L : 2 ^ ((Zdigits2 a - 1) + (Zdigits2 b - 1)) < 2 ^ Zdigits2 (a * b)).
  { rewrite Z.pow_add_r by lia.
    assert (2 ^ (Zdigits2 a - 1) * 2 ^ (Zdigits2 b - 1) <= a * b).
    { apply Z.mul_le_mono_nonneg; try lia; apply Z.pow_nonneg; lia. }
    lia. }
  apply Z.pow_lt_mono_r_iff in L; lia.
Qed.

Section Format.

Variables prec emax : Z.
Hypothesis prec_big : 2 <= prec.

Local Abbreviation fexp := (SpecFloat.fexp prec emax).
Local Abbreviation emin := (SpecFloat.emin prec emax).

(** What validity says of a finite value. *)
Lemma valid_finite s m e :
  valid_binary prec emax (S754_finite s m e) = true <->
  fexp (Zdigits2 (Zpos m) + e) = e /\ e <= emax - prec.
Proof.
  unfold valid_binary, bounded, canonical_mantissa.
  change (Zpos (digits2_pos m)) with (Zdigits2 (Zpos m)).
  rewrite andb_true_iff, Z.eqb_eq, Z.leb_le. reflexivity.
Qed.

(** Multiplying by one changes nothing. *)
Lemma SFmul_one_l x :
  valid_binary prec emax x = true ->
  SFmul prec emax (S754_finite false (Z.to_pos (2 ^ (prec - 1))) (1 - prec)) x = x.
Proof.
  intros V. rewrite SFmul_comm.
  destruct x as [s | s | | s m e]; try (simpl; rewrite xorb_false_r; reflexivity);
    [ reflexivity | ].
  apply valid_finite in V as [C B].
  rewrite (SFmul_pow2_exact prec emax ltac:(lia)).
  - f_equal. lia.
  - replace (e + (1 - prec) + (prec - 1)) with e by lia. exact C.
  - lia.
Qed.

(** Rounding a mantissa at an exponent of the format never gives zero. *)
Lemma binary_round_not_zero s m e s' :
  emin <= e -> binary_round prec emax s m e <> S754_zero s'.
Proof.
  intros He.
  pose proof (fexp_eq prec emax (Zdigits2 (Zpos m) + e)) as F.
  destruct (Z_le_gt_dec (fexp (Zdigits2 (Zpos m) + e)) e) as [L | G].
  - rewrite binary_round_exact by exact L.
    destruct (fexp (Zdigits2 (Zpos m) + e) <=? emax - prec); discriminate.
  - destruct (binary_round_eq prec emax s m e) as [-> _].
    rewrite Z.min_l by lia. rewrite Z.sub_diag, Z.mul_1_r.
    destruct (binary_round_aux_spec prec emax s (Zpos m) e loc_Exact ltac:(lia))
      as [m2 [[Lo Hi] [_ ->]]].
    revert F G Lo Hi. generalize (fexp (Zdigits2 (Zpos m) + e)). intros fx F G.
    rewrite Z.max_r by lia. intros Lo Hi.
    assert (Fx : fx = Zdigits2 (Zpos m) + e - prec) by lia.
    destruct (Zdigits2_bounds (Zpos m) ltac:(lia)) as [Lm Um].
    assert (P : 0 < 2 ^ (fx - e)) by (apply Z.pow_pos_nonneg; lia).
    assert (Q : 2 ^ (prec - 1) <= Zpos m / 2 ^ (fx - e)).
    { apply Z.div_le_lower_bound; [ exact P | ].
      rewrite <- Z.pow_add_r by lia.
      replace (fx - e + (prec - 1)) with (Zdigits2 (Zpos m) - 1) by lia. exact Lm. }
    assert (R : Zpos m / 2 ^ (fx - e) < 2 ^ prec).
    { apply Z.div_lt_upper_bound; [ exact P | ].
      rewrite <- Z.pow_add_r by lia.
      replace (fx - e + prec) with (Zdigits2 (Zpos m)) by lia. exact Um. }
    assert (P1 : 2 <= 2 ^ (prec - 1)).
    { change 2 with (2 ^ 1) at 1. apply Z.pow_le_mono_r; lia. }
    assert (D2 : Zdigits2 m2 <= prec + 1).
    { apply Zdigits2_le; [ lia | lia | ]. rewrite Z.pow_add_r by lia. lia. }
    destruct (round_result_cases prec emax s m2 fx ltac:(lia)) as [[Z0 _] | [[m3 [_ [_ ->]]] | [_ [_ ->]]]];
      try discriminate.
    exfalso. revert Z0. cbv zeta.
    pose proof (fexp_eq prec emax (Zdigits2 m2 + fx)) as F2.
    revert F2. generalize (fexp (Zdigits2 m2 + fx)). intros fy F2.
    assert (Fy : Z.max fx fy - fx = 0 \/ Z.max fx fy - fx = 1) by lia.
    destruct Fy as [-> | ->]; intros Z0.
    + change (2 ^ 0) with 1 in Z0. rewrite Z.div_1_r in Z0. lia.
    + change (2 ^ 1) with 2 in Z0.
      assert (1 <= m2 / 2) by (apply Z.div_le_lower_bound; lia). lia.
Qed.

Lemma binary_normalize_valid m e :
  valid_binary prec emax (binary_normalize prec emax m e false) = true.
Proof.
  unfold binary_normalize. destruct m; [ reflexivity | | ];
    apply binary_round_valid; lia.
Qed.

(** The sum of a value of the format and anything is a value of the
    format, and it is not the negative zero when the first is positive. *)
Lemma SFadd_finite_valid s m e y :
  valid_binary prec emax (S754_finite s m e) = true ->
  valid_binary prec emax y = true ->
  valid_binary prec emax (SFadd prec emax (S754_finite s m e) y) = true.
Proof.
  intros V Vy. destruct y as [sy | sy | | sy my ey]; try assumption; try reflexivity.
  unfold SFadd. apply binary_normalize_valid.
Qed.

Lemma SFadd_positive_not_neg_zero m e y :
  valid_binary prec emax (S754_finite false m e) = true ->
  valid_binary prec emax y = true ->
  SFadd prec emax (S754_finite false m e) y <> S754_zero true.
Proof.
  intros V Vy. destruct y as [sy | sy | | sy my ey]; try discriminate.
  apply valid_finite in V as [C _]. apply valid_finite in Vy as [Cy _].
  pose proof (fexp_eq prec emax (Zdigits2 (Zpos m) + e)) as F.
  pose proof (fexp_eq prec emax (Zdigits2 (Zpos my) + ey)) as Fy.
  unfold SFadd, binary_normalize.
  destruct (cond_Zopp false (Zpos (fst (shl_align m e (Z.min e ey)))) +
            cond_Zopp sy (Zpos (fst (shl_align my ey (Z.min e ey))))) as [| p | p];
    [ discriminate | | ]; apply binary_round_not_zero; lia.
Qed.

(** The product of a normal value and anything is a value of the format. *)
Lemma SFmul_normal_valid s m e y :
  Zdigits2 (Zpos m) = prec ->
  valid_binary prec emax (SFmul prec emax (S754_finite s m e) y) = true.
Proof.
  intros D. destruct y as [sy | sy | | sy my ey]; try reflexivity.
  unfold SFmul. apply binary_round_aux_valid; [ lia | lia | ].
  pose proof (Zdigits2_mul_ge (Zpos m) (Zpos my) ltac:(lia) ltac:(lia)) as G.
  pose proof (Zdigits2_pos (Zpos my) ltac:(lia)).
  change (Zpos (m * my)) with (Zpos m * Zpos my).
  rewrite fexp_eq. lia.
Qed.

Lemma SFmul_zero_valid s y : valid_binary prec emax (SFmul prec emax (S754_zero s) y) = true.
Proof. destruct y; reflexivity. Qed.

End Format.

End SkyFacts.

(* ================================================================== *)
(** ** The sky, and the empty scene *)

Section Sky.

Import SkyFacts.

(** A channel of the sky: the horizon value, which is positive, plus the
    gradient, which is a normal value or zero, times the weight. *)
Lemma sky_channel_kept mh eh d w :
  valid_binary 24 128 (S754_finite false mh eh) = true ->
  (exists s, d = S754_zero s) \/
  (exists s m e, d = S754_finite s m e /\ Zdigits2 (Zpos m) = 24) ->
  let sky := SFadd 24 128 (S754_finite false mh eh) (SFmul 24 128 d w) in
  SFadd 24 128 (S754_zero false) (SFmul 24 128 (S754_finite false 8388608 (-23)) sky) = sky.
Proof.
  intros V D sky.
  assert (Vp : valid_binary 24 128 (SFmul 24 128 d w) = true).
  { destruct D as [[s ->] | [s [m [e [-> D]]]]];
      [ apply SFmul_zero_valid | apply SFmul_normal_valid; [ lia | exact D ] ]. }
  assert (Vs : valid_binary 24 128 sky = true)
    by (apply SFadd_finite_valid; [ lia | exact V | exact Vp ]).
  assert (Ns : sky <> S754_zero true)
    by (apply SFadd_positive_not_neg_zero; [ lia | exact V | exact Vp ]).
  change (S754_finite false 8388608 (-23))
    with (S754_finite false (Z.to_pos (2 ^ (24 - 1))) (1 - 24)).
  rewrite (SFmul_one_l 24 128 ltac:(lia) sky Vs).
  apply SFadd_zero_l. exact Ns.
Qed.

Variable USE_DOUBLE : bool.

(** Adding the sky to a contribution of zero, at a throughput of one, gives
    the sky. *)
Lemma sky_added_to_nothing dir :
  vadd IEEE.binary32 (vsplat (IEEE.of_Z IEEE.binary32 0))
    (vmul IEEE.binary32 (vsplat (IEEE.of_Z IEEE.binary32 1)) (sky_colour USE_DOUBLE dir))
  = sky_colour USE_DOUBLE dir.
Proof.
  unfold sky_colour. cbv zeta.
  set (w := float_of_real USE_DOUBLE _).
  change (vscale IEEE.binary32
            (Vec3.make (IEEE.literal IEEE.binary32 5 100) (IEEE.literal IEEE.binary32 7 100)
               (IEEE.literal IEEE.binary32 1 10)) (IEEE.of_Z IEEE.binary32 2))
    with (Vec3.make (S754_finite false 13421773 (-27)) (S754_finite false 9395241 (-26))
            (S754_finite false 13421773 (-26))).
  change (vsub IEEE.binary32
            (vscale IEEE.binary32
               (Vec3.make (IEEE.literal IEEE.binary32 2 100) (IEEE.literal IEEE.binary32 5 100)
                  (IEEE.literal IEEE.binary32 1 10)) (IEEE.of_Z IEEE.binary32 2))
            (Vec3.make (S754_finite false 13421773 (-27)) (S754_finite false 9395241 (-26))
               (S754_finite false 13421773 (-26))))
    with (Vec3.make (S754_finite true 16106128 (-28)) (S754_finite true 10737418 (-28))
            (S754_zero false)).
  unfold vadd, vmul, vscale, vsplat, vmap2, IEEE.add, IEEE.mul. cbn [Vec3.x Vec3.y Vec3.z].
  change (IEEE.of_Z IEEE.binary32 0) with (S754_zero false).
  change (IEEE.of_Z IEEE.binary32 1) with (S754_finite false 8388608 (-23)).
  cbn [IEEE.fprec IEEE.femax IEEE.binary32].
  f_equal; apply sky_channel_kept; try reflexivity.
  - right. exists true, 16106128%positive, (-28). split; reflexivity.
  - right. exists true, 10737418%positive, (-28). split; reflexivity.
  - left. exists false. reflexivity.
Qed.

End Sky.

(** X16.  With no object in the scene, [generateColour] returns, for every
    pixel, frame, pass, image size and frame count, exactly the sky colour
    of the direction of the camera ray: [nearestIntersection] reports no
    hit, and adding the sky to the zero contribution at a throughput of
    one changes none of its channels (NaN and infinities included). *)
Theorem generateColour_empty_scene
    (USE_DOUBLE : bool) (ray_epsilon : spec_float)
    (std_cos std_sin std_tan : spec_float -> spec_float)
    (x y frame pass width height frames : Z) :
  in_int pass ->
  exists camera : Ray.t,
    forall fuel iterations : nat,
      (33 <= fuel)%nat -> (1 <= iterations)%nat ->
      primary_ray USE_DOUBLE std_cos std_sin std_tan fuel x y frame pass width height frames
        = Some camera /\
      nearestIntersection ray_epsilon {| objects := [] |} camera = (None, real_inf) /\
      generateColour USE_DOUBLE ray_epsilon std_cos std_sin std_tan fuel iterations
        x y frame pass width height frames {| objects := [] |}
      = Some (sky_colour USE_DOUBLE (Ray.d camera)).
Proof.
  intros Ip.
  destruct (primary_ray_returns USE_DOUBLE std_cos std_sin std_tan 33 x y frame pass width
              height frames Ip ltac:(lia)) as [camera C].
  exists camera. intros fuel iterations Hf Hi.
  pose proof (primary_ray_fuel_mono _ _ _ _ _ _ _ _ _ _ _ _ _ _ C Hf) as C'.
  split; [ exact C' | ]. split; [ reflexivity | ].
  unfold generateColour, generateColour_counted. rewrite C'.
  destruct iterations as [| iterations]; [ lia | ].
  cbn [bounce_loop].
  rewrite (loop_body_miss USE_DOUBLE ray_epsilon std_cos std_sin fuel pass
             (pixel_hash USE_DOUBLE x y frame width height) {| objects := [] |}
             (initial_state camera) real_inf eq_refl).
  cbn [option_map fst initial_state contribution throughput ray].
  rewrite sky_added_to_nothing. reflexivity.
Qed.

Lemma generateColour_empty_scene_witness :
  in_int 1 /\
  generateColour false Examples.epsilon Examples.cos_still Examples.sin_still
    Examples.tan_still 33 4 0 0 0 1 4 4 0 {| objects := [] |}
  = Some (sky_colour false (Ray.d (ray Examples.first_state))).
Proof.
  assert (I : in_int 1) by (unfold in_int, INT_MIN, INT_MAX; lia).
  split; [ exact I | ].
  destruct (generateColour_empty_scene false Examples.epsilon Examples.cos_still
              Examples.sin_still Examples.tan_still 0 0 0 1 4 4 0 I) as [camera H].
  destruct (H 33%nat 4%nat ltac:(lia) ltac:(lia)) as [P [_ G]].
  rewrite G. do 3 f_equal. unfold Examples.first_state. rewrite P. reflexivity.
Defined.

(* ================================================================== *)
(** ** The sky of a direction that does not point above one *)

Module WeightFacts.

Import ShiftFacts RoundFacts AlignFacts BoundFacts SkyFacts.

Section Format.

Variables prec emax : Z.
Hypothesis prec_big : 2 <= prec.

Local Abbreviation fexp := (SpecFloat.fexp prec emax).
Local Abbreviation emin := (SpecFloat.emin prec emax).

(** A positive value of the format that is at most one. *)
Lemma at_most_one_scaled m e :
  valid_binary prec emax (S754_finite false m e) = true ->
  SFleb (S754_finite false m e) (S754_finite false (Z.to_pos (2 ^ (prec - 1))) (1 - prec)) = true ->
  Zpos m <= 2 ^ (- e) /\ e <= 1 - prec.
Proof.
  intros V L. apply (valid_finite prec emax) in V as [C _].
  rewrite fexp_eq in C.
  assert (D : Zdigits2 (Zpos m) <= prec) by lia.
  apply Zdigits2_le in D; [ | lia | lia ].
  assert (P : 0 < 2 ^ (prec - 1)) by (apply Z.pow_pos_nonneg; lia).
  apply IEEEFacts.leb_finite in L.
  destruct L as [[? _] | [[_ [_ L]] | [? _]]]; try discriminate.
  destruct L as [L | [-> L]].
  - split; [ | lia ].
    assert (2 ^ prec <= 2 ^ (- e)) by (apply Z.pow_le_mono_r; lia). lia.
  - split; [ | lia ]. replace (- (1 - prec)) with (prec - 1) by lia.
    apply Pos2Z.pos_le_pos in L. rewrite Z2Pos.id in L by exact P. exact L.
Qed.

(** Rounding what is at most one gives at most one. *)
Lemma round_at_most_one m e :
  emin <= 1 - prec -> 1 - prec <= emax - prec ->
  Zpos m <= 2 ^ (- e) -> e <= 0 ->
  SFleb (binary_round prec emax false m e)
        (S754_finite false (Z.to_pos (2 ^ (prec - 1))) (1 - prec)) = true.
Proof.
  intros E1 E2 Hm He.
  assert (P : 0 < 2 ^ (prec - 1)) by (apply Z.pow_pos_nonneg; lia).
  assert (S : scaled_le (Zpos m) e (2 ^ (prec - 1)) (1 - prec)).
  { apply (scaled_le_iff (Z.min e (1 - prec))); [ lia | lia | ].
    set (g := Z.min e (1 - prec)).
    assert (Pg : 0 < 2 ^ (e - g)) by (apply Z.pow_pos_nonneg; unfold g; lia).
    rewrite <- Z.pow_add_r by (unfold g; lia).
    replace (prec - 1 + (1 - prec - g)) with (- e + (e - g)) by lia.
    rewrite Z.pow_add_r by (unfold g; lia). nia. }
  destruct (binary_round_le prec emax false m e (2 ^ (prec - 1)) (1 - prec)
              ltac:(rewrite Zdigits2_pow2 by lia; lia) E1 E2 S)
    as [-> | [m3 [e2 [-> [S3 E3]]]]]; [ reflexivity | ].
  apply IEEEFacts.leb_finite. right. left. split; [ reflexivity | ]. split; [ reflexivity | ].
  destruct (Z_lt_le_dec e2 (1 - prec)) as [L | G]; [ left; exact L | right ].
  assert (e2 = 1 - prec) by lia. subst e2. split; [ reflexivity | ].
  apply (scaled_le_iff (1 - prec)) in S3; [ | lia | lia ].
  rewrite Z.sub_diag, !Z.mul_1_r in S3.
  pose proof (Z2Pos.id _ P) as I. lia.
Qed.

(** A positive value plus a smaller negative one is not negative. *)
Lemma SFadd_dominated mh eh m3 e3 :
  Zpos m3 * 2 ^ (e3 - Z.min e3 eh) < Zpos mh * 2 ^ (eh - Z.min e3 eh) ->
  IEEE.not_negative (SFadd prec emax (S754_finite false mh eh) (S754_finite true m3 e3)) = true.
Proof.
  intros H. unfold SFadd. rewrite !fst_shl_align by lia.
  rewrite (Z.min_comm eh e3). unfold cond_Zopp. cbv beta iota.
  destruct (Zpos mh * 2 ^ (eh - Z.min e3 eh) + - (Zpos m3 * 2 ^ (e3 - Z.min e3 eh)))
    as [| p | p] eqn:E; try lia.
  unfold binary_normalize.
  apply SignFacts.has_sign_false_not_negative, SignFacts.binary_round_sign.
Qed.

(** The product of a negative normal value and a weight of at most one
    is no larger in magnitude. *)
Lemma SFmul_weight md ed mw ew :
  Zdigits2 (Zpos md) = prec -> emin <= ed -> ed <= emax - prec ->
  Zpos mw <= 2 ^ (- ew) -> ew <= 0 ->
  SFmul prec emax (S754_finite true md ed) (S754_finite false mw ew) = S754_zero true \/
  exists m3 e3,
    SFmul prec emax (S754_finite true md ed) (S754_finite false mw ew) = S754_finite true m3 e3 /\
    scaled_le (Zpos m3) e3 (Zpos md) ed.
Proof.
  intros D E1 E2 Hw He. unfold SFmul. cbn [xorb].
  change (Zpos (md * mw)) with (Zpos md * Zpos mw).
  pose proof (Zdigits2_mul_ge (Zpos md) (Zpos mw) ltac:(lia) ltac:(lia)) as G.
  pose proof (Zdigits2_pos (Zpos mw) ltac:(lia)) as Pw.
  assert (S : scaled_le (Zpos md * Zpos mw) (ed + ew) (Zpos md) ed).
  { apply (scaled_le_iff (ed + ew)); [ lia | lia | ].
    rewrite Z.sub_diag, Z.mul_1_r. replace (ed - (ed + ew)) with (- ew) by lia. nia. }
  destruct (binary_round_aux_le prec emax true (Zpos md * Zpos mw) (ed + ew) (Zpos md) ed
              ltac:(lia) ltac:(rewrite fexp_eq; lia) ltac:(lia) E1 E2 S)
    as [-> | [m3 [e3 [-> [S3 _]]]]]; [ left; reflexivity | right ].
  exists m3, e3. split; [ reflexivity | exact S3 ].
Qed.

End Format.

End WeightFacts.

(* ================================================================== *)
(** ** Colours that are never below zero *)

Module ColourFacts.

Import ShiftFacts RoundFacts AlignFacts BoundFacts SkyFacts WeightFacts SignFacts.

Lemma vforall_intro p a :
  p (Vec3.x a) = true -> p (Vec3.y a) = true -> p (Vec3.z a) = true -> vforall p a = true.
Proof. unfold vforall. intros -> -> ->. reflexivity. Qed.

Lemma vforall_elim p a :
  vforall p a = true -> p (Vec3.x a) = true /\ p (Vec3.y a) = true /\ p (Vec3.z a) = true.
Proof. unfold vforall. rewrite !andb_true_iff. tauto. Qed.

Lemma vforall_map2 (p : spec_float -> bool) op a b :
  (forall x y, p x = true -> p y = true -> p (op x y) = true) ->
  vforall p a = true -> vforall p b = true -> vforall p (vmap2 op a b) = true.
Proof.
  intros H Ha Hb. apply vforall_elim in Ha as [? [? ?]]. apply vforall_elim in Hb as [? [? ?]].
  apply vforall_intro; simpl; auto.
Qed.

Lemma vadd_not_negative a b :
  vforall IEEE.not_negative a = true -> vforall IEEE.not_negative b = true ->
  vforall IEEE.not_negative (vadd IEEE.binary32 a b) = true.
Proof. apply vforall_map2. intros x y. apply (SFadd_not_negative 24 128). Qed.

Lemma vmul_not_negative a b :
  vforall IEEE.not_negative a = true -> vforall IEEE.not_negative b = true ->
  vforall IEEE.not_negative (vmul IEEE.binary32 a b) = true.
Proof. apply vforall_map2. intros x y. apply (SFmul_not_negative 24 128). Qed.

(** The weight of the sky gradient for a direction that does not point
    above one: zero, or positive and at most one. *)
Lemma weight_form USE_DOUBLE dy :
  IEEE.valid (real USE_DOUBLE) dy = true ->
  IEEE.lt (IEEE.of_Z (real USE_DOUBLE) 1) dy = false ->
  let w := float_of_real USE_DOUBLE (IEEE.max (IEEE.of_Z (real USE_DOUBLE) 0) dy) in
  (exists s, w = S754_zero s) \/
  (exists m e, w = S754_finite false m e /\ Zpos m <= 2 ^ (- e) /\ e <= 0).
Proof.
  intros V H w. unfold w, IEEE.max.
  assert (Z0 : IEEE.of_Z (real USE_DOUBLE) 0 = S754_zero false) by (destruct USE_DOUBLE; reflexivity).
  rewrite Z0.
  destruct (IEEE.lt (S754_zero false) dy) eqn:L0.
  - assert (Le : SFleb dy (IEEE.of_Z (real USE_DOUBLE) 1) = true).
    { apply IEEEFacts.not_ltb_leb; [ destruct USE_DOUBLE; reflexivity | | exact H ].
      apply (IEEEFacts.ltb_not_nan _ _ L0). }
    destruct dy as [s | [] | | [] m e]; try discriminate;
      try (destruct USE_DOUBLE; discriminate).
    destruct USE_DOUBLE.
    + destruct (at_most_one_scaled 53 1024 ltac:(lia) m e V Le) as [B E].
      unfold float_of_real, IEEE.round. cbn [IEEE.fprec IEEE.femax IEEE.binary32].
      pose proof (round_at_most_one 24 128 ltac:(lia) m e
                    ltac:(unfold SpecFloat.emin; lia) ltac:(lia) B ltac:(lia)) as R.
      pose proof (binary_round_valid 24 128 ltac:(lia) false m e) as Vr.
      pose proof (binary_round_sign 24 128 false m e) as Sr.
      destruct (binary_round 24 128 false m e) as [s | [] | | [] m3 e3]; try discriminate.
      * left. eauto.
      * right. exists m3, e3. split; [ reflexivity | ].
        destruct (at_most_one_scaled 24 128 ltac:(lia) m3 e3 Vr R). split; lia.
    + right. exists m, e. split; [ reflexivity | ].
      destruct (at_most_one_scaled 24 128 ltac:(lia) m e V Le). split; lia.
  - left. exists false. destruct USE_DOUBLE; reflexivity.
Qed.

(** A channel whose gradient is negative and smaller than the horizon
    value. *)
Lemma channel_negative_gradient mh eh md ed w :
  Zdigits2 (Zpos md) = 24 -> -149 <= ed <= 104 ->
  Zpos md * 2 ^ (ed - Z.min ed eh) < Zpos mh * 2 ^ (eh - Z.min ed eh) ->
  (exists s, w = S754_zero s) \/
  (exists m e, w = S754_finite false m e /\ Zpos m <= 2 ^ (- e) /\ e <= 0) ->
  IEEE.not_negative
    (SFadd 24 128 (S754_finite false mh eh) (SFmul 24 128 (S754_finite true md ed) w)) = true.
Proof.
  intros D E Dom [[s ->] | [mw [ew [-> [Bw Ew]]]]]; [ reflexivity | ].
  destruct (SFmul_weight 24 128 md ed mw ew D
              ltac:(unfold SpecFloat.emin; lia) ltac:(lia) Bw Ew)
    as [-> | [m3 [e3 [-> S3]]]]; [ reflexivity | ].
  apply SFadd_dominated.
  set (g2 := Z.min e3 eh). set (g := Z.min g2 ed).
  apply (scaled_le_iff g) in S3; [ | unfold g, g2; lia | unfold g, g2; lia ].
  assert (Pg : 0 < 2 ^ (g2 - g)) by (apply Z.pow_pos_nonneg; unfold g; lia).
  assert (Pd : 0 < 2 ^ (Z.min ed eh - g)) by (apply Z.pow_pos_nonneg; unfold g, g2; lia).
  assert (Dom' : Zpos md * 2 ^ (ed - g) < Zpos mh * 2 ^ (eh - g)).
  { replace (ed - g) with ((ed - Z.min ed eh) + (Z.min ed eh - g)) by lia.
    replace (eh - g) with ((eh - Z.min ed eh) + (Z.min ed eh - g)) by lia.
    rewrite !Z.pow_add_r by (unfold g, g2; lia). rewrite !Z.mul_assoc.
    apply Z.mul_lt_mono_pos_r; assumption. }
  assert (L : Zpos m3 * 2 ^ (e3 - g) < Zpos mh * 2 ^ (eh - g)) by lia.
  replace (e3 - g) with ((e3 - g2) + (g2 - g)) in L by lia.
  replace (eh - g) with ((eh - g2) + (g2 - g)) in L by lia.
  rewrite !Z.pow_add_r in L by (unfold g, g2; lia). rewrite !Z.mul_assoc in L.
  apply Z.mul_lt_mono_pos_r in L; assumption.
Qed.

Lemma channel_zero_gradient mh eh w :
  (exists s, w = S754_zero s) \/
  (exists m e, w = S754_finite false m e /\ Zpos m <= 2 ^ (- e) /\ e <= 0) ->
  IEEE.not_negative
    (SFadd 24 128 (S754_finite false mh eh) (SFmul 24 128 (S754_zero false) w)) = true.
Proof. intros [[s ->] | [mw [ew [-> _]]]]; reflexivity. Qed.

(** The sky of a direction whose [y] is a value of the type [real] that is
    not above one has no channel below zero. *)
Lemma sky_not_negative USE_DOUBLE dir :
  IEEE.valid (real USE_DOUBLE) (Vec3.y dir) = true ->
  IEEE.lt (IEEE.of_Z (real USE_DOUBLE) 1) (Vec3.y dir) = false ->
  vforall IEEE.not_negative (sky_colour USE_DOUBLE dir) = true.
Proof.
  intros V H. pose proof (weight_form USE_DOUBLE (Vec3.y dir) V H) as W. cbv zeta in W.
  unfold sky_colour. cbv zeta.
  set (w := float_of_real USE_DOUBLE _) in *.
  change (vscale IEEE.binary32
            (Vec3.make (IEEE.literal IEEE.binary32 5 100) (IEEE.literal IEEE.binary32 7 100)
               (IEEE.literal IEEE.binary32 1 10)) (IEEE.of_Z IEEE.binary32 2))
    with (Vec3.make (S754_finite false 13421773 (-27)) (S754_finite false 9395241 (-26))
            (S754_finite false 13421773 (-26))).
  change (vsub IEEE.binary32
            (vscale IEEE.binary32
               (Vec3.make (IEEE.literal IEEE.binary32 2 100) (IEEE.literal IEEE.binary32 5 100)
                  (IEEE.literal IEEE.binary32 1 10)) (IEEE.of_Z IEEE.binary32 2))
            (Vec3.make (S754_finite false 13421773 (-27)) (S754_finite false 9395241 (-26))
               (S754_finite false 13421773 (-26))))
    with (Vec3.make (S754_finite true 16106128 (-28)) (S754_finite true 10737418 (-28))
            (S754_zero false)).
  unfold vadd, vmul, vscale, vsplat, vmap2, IEEE.add, IEEE.mul. cbn [Vec3.x Vec3.y Vec3.z].
  cbn [IEEE.fprec IEEE.femax IEEE.binary32].
  apply vforall_intro; cbn [Vec3.x Vec3.y Vec3.z].
  - apply channel_negative_gradient; [ reflexivity | lia | reflexivity | exact W ].
  - apply channel_negative_gradient; [ reflexivity | lia | reflexivity | exact W ].
  - apply channel_zero_gradient. exact W.
Qed.

(** The light that a surface reflects has no channel below zero when its
    colour has none. *)
Lemma dot_self_sign_clear f v : IEEE.sign_clear (dot f v v) = true.
Proof.
  unfold dot, IEEE.add, IEEE.mul. destruct f as [prec emax]. cbn [IEEE.fprec IEEE.femax].
  repeat apply SFadd_sign_clear; apply SFmul_square_sign_clear.
Qed.

Lemma float_of_real_sign_clear USE_DOUBLE x :
  IEEE.sign_clear x = true -> IEEE.sign_clear (float_of_real USE_DOUBLE x) = true.
Proof.
  intros H. unfold float_of_real. destruct USE_DOUBLE; [ | exact H ].
  apply (round_sign_clear 24 128). exact H.
Qed.

Lemma refl_colour_not_negative USE_DOUBLE obj normal hit_p :
  vforall IEEE.not_negative (colour obj) = true ->
  vforall IEEE.not_negative (refl_colour USE_DOUBLE obj normal hit_p) = true.
Proof.
  intros Hc. apply vforall_elim in Hc as [Cx [Cy Cz]].
  unfold refl_colour. cbv zeta.
  set (mx := IEEE.max (IEEE.of_Z IEEE.binary32 0) _).
  set (fl := float_of_real USE_DOUBLE (light_ln2 USE_DOUBLE hit_p)).
  assert (Hm : IEEE.not_negative mx = true)
    by (apply sign_clear_not_negative, max_zero_sign_clear).
  assert (Hf : IEEE.sign_clear fl = true)
    by (apply float_of_real_sign_clear, dot_self_sign_clear).
  assert (H420 : IEEE.not_negative (IEEE.of_Z IEEE.binary32 420) = true) by reflexivity.
  unfold vscale, vdiv, vmul, vsplat, vmap2, IEEE.mul, IEEE.div.
  cbn [Vec3.x Vec3.y Vec3.z IEEE.fprec IEEE.femax IEEE.binary32].
  apply vforall_intro; cbn [Vec3.x Vec3.y Vec3.z];
    apply (SFmul_not_negative 24 128); try exact H420;
    apply (SFdiv_not_negative 24 128); try exact Hf;
    apply (SFmul_not_negative 24 128); assumption.
Qed.

End ColourFacts.

(* ================================================================== *)
(** ** The accumulators of the bounce loop *)

Section Accumulators.

Import ColourFacts.

Variable USE_DOUBLE : bool.
Variable ray_epsilon : spec_float.
Variables std_cos std_sin : spec_float -> spec_float.
Variable fuel : nat.
Variable pass : Z.
Variable hash_random : spec_float.
Variable world : Scene.
Hypothesis world_colours : colours_not_negative world.

Local Abbreviation body := (loop_body USE_DOUBLE ray_epsilon std_cos std_sin fuel pass hash_random world).
Local Abbreviation path := (reaches USE_DOUBLE ray_epsilon std_cos std_sin fuel pass hash_random world).

(** The object of a hit is an object of the scene. *)
Lemma nearest_in_scene r obj t :
  nearestIntersection ray_epsilon world r = (Some obj, t) -> In obj (objects world).
Proof.
  unfold nearestIntersection. intros H.
  pose proof (nearest_fold_spec ray_epsilon r (objects world)) as S. rewrite H in S.
  inversion S as [| before o after Hobjs Hrange Hbefore Hafter Heq]. subst.
  rewrite Hobjs. apply in_or_app. right. left. reflexivity.
Qed.

Lemma direct_light_not_negative st obj normal hit_p :
  In obj (objects world) ->
  vforall IEEE.not_negative (throughput st) = true ->
  vforall IEEE.not_negative (contribution st) = true ->
  vforall IEEE.not_negative
    (direct_light USE_DOUBLE ray_epsilon world st obj normal hit_p) = true.
Proof.
  intros Hin Ht Hc. unfold direct_light.
  destruct (unoccluded USE_DOUBLE ray_epsilon world hit_p); [ | exact Hc ].
  apply vadd_not_negative; [ exact Hc | ].
  apply vmul_not_negative; [ exact Ht | ].
  apply refl_colour_not_negative, world_colours, Hin.
Qed.

(** A run of the body that scatters keeps both accumulators at or above
    zero. *)
Lemma loop_body_keeps_sign st st' :
  vforall IEEE.not_negative (throughput st) = true ->
  vforall IEEE.not_negative (contribution st) = true ->
  body st = Some (Continue st') ->
  vforall IEEE.not_negative (throughput st') = true /\
  vforall IEEE.not_negative (contribution st') = true.
Proof.
  intros Ht Hc H.
  destruct (loop_body_continue _ _ _ _ _ _ _ _ _ _ H) as [B1 [B2 [obj [t N]]]].
  pose proof (nearest_in_scene _ _ _ N) as Hin.
  rewrite (loop_body_scatter _ _ _ _ _ _ _ _ _ _ _ N ltac:(lia)) in H.
  destruct (halton_sample _ _ _ _ _) as [sx |]; [ | discriminate ].
  destruct (halton_sample _ _ _ _ _) as [sy |]; [ | discriminate ].
  injection H as <-. cbn [throughput contribution]. split.
  - apply vmul_not_negative; [ exact Ht | apply world_colours, Hin ].
  - now apply direct_light_not_negative.
Qed.

Lemma reaches_keeps_sign st st' :
  path st st' ->
  vforall IEEE.not_negative (throughput st) = true ->
  vforall IEEE.not_negative (contribution st) = true ->
  vforall IEEE.not_negative (throughput st') = true /\
  vforall IEEE.not_negative (contribution st') = true.
Proof.
  induction 1 as [st | st st1 st2 H R IH]; intros Ht Hc; [ split; assumption | ].
  destruct (loop_body_keeps_sign st st1 Ht Hc H) as [Ht1 Hc1]. now apply IH.
Qed.

(** The colour that ends a path. *)
Lemma break_not_negative st c :
  vforall IEEE.not_negative (throughput st) = true ->
  vforall IEEE.not_negative (contribution st) = true ->
  body st = Some (Break c) ->
  fst (nearestIntersection ray_epsilon world (ray st)) <> None \/
  (IEEE.valid (real USE_DOUBLE) (Vec3.y (Ray.d (ray st))) = true /\
   IEEE.lt (IEEE.of_Z (real USE_DOUBLE) 1) (Vec3.y (Ray.d (ray st))) = false) ->
  vforall IEEE.not_negative c = true.
Proof.
  intros Ht Hc H Hend.
  destruct (nearestIntersection ray_epsilon world (ray st)) as [[obj |] t] eqn:N.
  - pose proof (nearest_in_scene _ _ _ N) as Hin.
    pose proof (loop_body_contribution USE_DOUBLE ray_epsilon std_cos std_sin fuel pass
                  hash_random world st obj t (Break c) N H) as E.
    cbn [contribution_after] in E. rewrite E. now apply direct_light_not_negative.
  - rewrite (loop_body_miss _ _ _ _ _ _ _ _ _ _ N) in H. injection H as <-.
    destruct Hend as [F | [V L]]; [ exfalso; apply F; reflexivity | ].
    apply vadd_not_negative; [ exact Hc | ].
    apply vmul_not_negative; [ exact Ht | ].
    now apply sky_not_negative.
Qed.

(** The loop ends at a state of the path, with the colour of its last
    run. *)
Lemma bounce_loop_last iterations : forall st c n,
  bounce_loop USE_DOUBLE ray_epsilon std_cos std_sin fuel pass hash_random world iterations st
    = Some (c, n) ->
  exists st', path st st' /\ body st' = Some (Break c).
Proof.
  induction iterations as [| iterations IH]; intros st c n H; [ discriminate | ].
  cbn [bounce_loop] in H.
  destruct (loop_body USE_DOUBLE ray_epsilon std_cos std_sin fuel pass hash_random world st)
    as [[c' | st1] |] eqn:E; [ | | discriminate ].
  - injection H as <- _. exists st. split; [ apply reaches_here | exact E ].
  - destruct (bounce_loop _ _ _ _ _ _ _ _ iterations st1) as [[c1 n1] |] eqn:L;
      [ | discriminate ].
    injection H as <- _. destruct (IH st1 c1 n1 L) as [st' [R B]].
    exists st'. split; [ exact (reaches_next _ _ _ _ _ _ _ _ _ _ _ E R) | exact B ].
Qed.

Lemma initial_state_sign camera :
  vforall IEEE.not_negative (throughput (initial_state camera)) = true /\
  vforall IEEE.not_negative (contribution (initial_state camera)) = true.
Proof. split; reflexivity. Qed.

End Accumulators.

(** X17.  When no channel of the colour of any object is below zero, no
    channel of [throughput] or of [contribution] is below zero (each is at
    least zero, or NaN) in any state that the bounce loop goes through
    from its initial state. *)
Theorem accumulators_never_negative
    (USE_DOUBLE : bool) (ray_epsilon : spec_float) (std_cos std_sin : spec_float -> spec_float)
    (fuel : nat) (pass : Z) (hash_random : spec_float) (world : Scene)
    (camera : Ray.t) (st : PathState) :
  colours_not_negative world ->
  reaches USE_DOUBLE ray_epsilon std_cos std_sin fuel pass hash_random world
    (initial_state camera) st ->
  vforall IEEE.not_negative (throughput st) = true /\
  vforall IEEE.not_negative (contribution st) = true.
Proof.
  intros Hw R.
  apply (reaches_keeps_sign USE_DOUBLE ray_epsilon std_cos std_sin fuel pass hash_random world
           Hw _ _ R); reflexivity.
Qed.

(** X18.  When no channel of the colour of any object is below zero, the
    colour that [generateColour] returns is the one of the last run of the
    loop body, at a state of the path of the camera ray, and none of its
    channels is below zero (each is at least zero, or NaN) when that run
    hit an object, or when the ray that left the scene has a direction
    whose [y] is a value of the type [real] that is not above one. *)
Theorem generateColour_never_negative
    (USE_DOUBLE : bool) (ray_epsilon : spec_float)
    (std_cos std_sin std_tan : spec_float -> spec_float)
    (fuel iterations : nat) (x y frame pass width height frames : Z) (world : Scene)
    (c : vec3) :
  colours_not_negative world ->
  generateColour USE_DOUBLE ray_epsilon std_cos std_sin std_tan fuel iterations
    x y frame pass width height frames world = Some c ->
  exists (camera : Ray.t) (st : PathState),
    primary_ray USE_DOUBLE std_cos std_sin std_tan fuel x y frame pass width height frames
      = Some camera /\
    reaches USE_DOUBLE ray_epsilon std_cos std_sin fuel pass
      (pixel_hash USE_DOUBLE x y frame width height) world (initial_state camera) st /\
    loop_body USE_DOUBLE ray_epsilon std_cos std_sin fuel pass
      (pixel_hash USE_DOUBLE x y frame width height) world st = Some (Break c) /\
    (fst (nearestIntersection ray_epsilon world (ray st)) <> None \/
     (IEEE.valid (real USE_DOUBLE) (Vec3.y (Ray.d (ray st))) = true /\
      IEEE.lt (IEEE.of_Z (real USE_DOUBLE) 1) (Vec3.y (Ray.d (ray st))) = false) ->
     vforall IEEE.not_negative c = true).
Proof.
  intros Hw H. unfold generateColour, generateColour_counted in H.
  destruct (primary_ray _ _ _ _ _ _ _ _ _ _ _ _) as [camera |] eqn:P; [ | discriminate ].
  destruct (bounce_loop _ _ _ _ _ _ _ _ _ _) as [[c' n] |] eqn:L; [ | discriminate ].
  injection H as <-.
  destruct (bounce_loop_last _ _ _ _ _ _ _ _ _ _ _ _ L) as [st [R B]].
  exists camera, st. split; [ reflexivity | ]. split; [ exact R | ]. split; [ exact B | ].
  destruct (reaches_keeps_sign _ _ _ _ _ _ _ _ Hw _ _ R) as [Ht Hc]; try reflexivity.
  exact (break_not_negative _ _ _ _ _ _ _ _ Hw st c' Ht Hc B).
Qed.

Lemma accumulators_never_negative_witness :
  colours_not_negative Examples.enclosing /\
  reaches false Examples.epsilon Examples.cos_still Examples.sin_still 33 1
    Examples.first_hash Examples.enclosing
    (initial_state (ray Examples.first_state)) Examples.second_state /\
  vforall IEEE.not_negative (throughput Examples.second_state) = true /\
  vforall IEEE.not_negative (contribution Examples.second_state) = true.
Proof.
  assert (C : colours_not_negative Examples.enclosing)
    by (intros o [<- | []]; reflexivity).
  assert (B : loop_body false Examples.epsilon Examples.cos_still Examples.sin_still 33 1
                Examples.first_hash Examples.enclosing (initial_state (ray Examples.first_state))
              = Some (Continue Examples.second_state))
    by (vm_compute; reflexivity).
  assert (R : reaches false Examples.epsilon Examples.cos_still Examples.sin_still 33 1
                Examples.first_hash Examples.enclosing
                (initial_state (ray Examples.first_state)) Examples.second_state)
    by (exact (reaches_next _ _ _ _ _ _ _ _ _ _ _ B (reaches_here _ _ _ _ _ _ _ _ _))).
  split; [ exact C | ]. split; [ exact R | ].
  exact (accumulators_never_negative false Examples.epsilon Examples.cos_still
           Examples.sin_still 33 1 Examples.first_hash Examples.enclosing
           (ray Examples.first_state) Examples.second_state C R).
Defined.

Lemma generateColour_never_negative_witness :
  colours_not_negative Examples.enclosing /\
  exists c,
    generateColour false Examples.epsilon Examples.cos_still Examples.sin_still
      Examples.tan_still 33 4 0 0 0 1 4 4 0 Examples.enclosing = Some c /\
    vforall IEEE.not_negative c = true.
Proof.
  assert (C : colours_not_negative Examples.enclosing)
    by (intros o [<- | []]; reflexivity).
  split; [ exact C | ].
  destruct (generateColour false Examples.epsilon Examples.cos_still Examples.sin_still
              Examples.tan_still 33 4 0 0 0 1 4 4 0 Examples.enclosing) as [c |] eqn:G;
    [ | vm_compute in G; discriminate ].
  exists c. split; [ reflexivity | ].
  destruct (generateColour_never_negative false Examples.epsilon Examples.cos_still
              Examples.sin_still Examples.tan_still 33 4 0 0 0 1 4 4 0 Examples.enclosing
              c C G) as [camera [st [_ [_ [_ H]]]]].
  apply H. left. cbv. discriminate.
Defined.

(* ================================================================== *)
(** ** The samples of [generateColour] *)

Module SampleFacts.

Import ShiftFacts RoundFacts AlignFacts BoundFacts ExactFacts SkyFacts WeightFacts.

(** What [RadicalInverse] returns is a double. *)
Lemma RadicalInverse_valid a base fuel r :
  in_int base -> 0 <= a -> 2 <= base -> a * base <= INT_MAX ->
  RadicalInverse fuel a base = Some r ->
  valid_binary 53 1024 r = true.
Proof.
  intros Ib Ha Hb Hab H.
  assert (Ia : in_int a) by (unfold in_int, INT_MIN, INT_MAX in *; nia).
  pose proof (RadicalDigitsFacts.reversed_bound fuel base a Hb Ha) as Rb.
  assert (Ir : in_int (RadicalSpec.reversed fuel base a))
    by (unfold in_int, INT_MIN, INT_MAX in *; lia).
  rewrite (RadicalInverse_digits _ _ _ _ Ia Ib Ha Hb H).
  rewrite RadicalLoopFacts.wrap_int_id by exact Ir.
  unfold IEEE.min. destruct (IEEE.lt DoubleOneMinusEpsilon _); [ reflexivity | ].
  unfold IEEE.mul. cbn [IEEE.fprec IEEE.femax IEEE.binary64].
  destruct (Z.eq_dec (RadicalSpec.reversed fuel base a) 0) as [-> | Nz].
  - apply SFmul_zero_valid.
  - assert (D : 0 < Zdigits2 (RadicalSpec.reversed fuel base a) <= 31).
    { split; [ apply Zdigits2_pos; lia | ].
      apply Zdigits2_le; unfold INT_MAX in *; lia. }
    assert (P : 0 < 2 ^ (53 - Zdigits2 (RadicalSpec.reversed fuel base a)))
      by (apply Z.pow_pos_nonneg; lia).
    change IEEE.binary64 with (IEEE.Format 53 1024).
    rewrite (of_Z_exact_value 53 1024) by (try (unfold SpecFloat.emin); lia).
    apply SFmul_normal_valid; [ lia | ].
    rewrite Z2Pos.id by nia. rewrite Zdigits2_mul_pow by lia. lia.
Qed.

Section Format.

Variables prec emax : Z.
Hypothesis prec_big : 2 <= prec.
Hypothesis emax_min : 3 <= emax.

Local Abbreviation fexp := (SpecFloat.fexp prec emax).
Local Abbreviation emin := (SpecFloat.emin prec emax).
Local Abbreviation one := (S754_finite false (Z.to_pos (2 ^ (prec - 1))) (1 - prec)).

(** A value of the format that is at most one and not below one is one. *)
Lemma at_most_one_not_below u :
  valid_binary prec emax u = true ->
  SFleb u one = true -> SFltb u one = false -> u = one.
Proof.
  intros V L N. apply not_true_iff_false in N.
  destruct u as [[] | [] | | [] m e]; try discriminate;
    try (exfalso; apply N; reflexivity).
  rewrite IEEEFacts.leb_finite in L. rewrite IEEEFacts.ltb_finite in N.
  assert (P : 0 < 2 ^ (prec - 1)) by (apply Z.pow_pos_nonneg; lia).
  pose proof (Z2Pos.id _ P) as I.
  destruct L as [[? _] | [[_ [_ L]] | [? _]]]; try discriminate.
  destruct L as [L | [-> L]]; [ exfalso; apply N; right; left; tauto | ].
  f_equal. destruct (Pos.eq_dec m (Z.to_pos (2 ^ (prec - 1)))) as [E | E]; [ exact E | ].
  exfalso. apply N. right. left. repeat split. right. split; [ reflexivity | lia ].
Qed.

(** One plus a multiple [k] of the last place of one, below one: the sum
    is exact, between one and two. *)
Lemma one_plus_grid mh eh k :
  0 < k < 2 ^ (prec - 1) -> eh <= 1 - prec -> emin <= eh ->
  Zpos mh = k * 2 ^ (1 - prec - eh) ->
  SFadd prec emax one (S754_finite false mh eh)
  = S754_finite false (Z.to_pos (2 ^ (prec - 1) + k)) (1 - prec).
Proof.
  intros Hk He Hm M.
  assert (P : 0 < 2 ^ (prec - 1)) by (apply Z.pow_pos_nonneg; lia).
  assert (Ps : 0 < 2 ^ (1 - prec - eh)) by (apply Z.pow_pos_nonneg; lia).
  unfold SFadd. rewrite !WrapFacts.cond_Zopp_false.
  rewrite Z.min_r by lia. rewrite !fst_shl_align by lia.
  rewrite Z.sub_diag, Z.mul_1_r, Z2Pos.id, M by exact P.
  replace (2 ^ (prec - 1) * 2 ^ (1 - prec - eh) + k * 2 ^ (1 - prec - eh))
    with ((2 ^ (prec - 1) + k) * 2 ^ (1 - prec - eh)) by ring.
  set (n := 2 ^ (prec - 1) + k).
  assert (Hn : 2 ^ (prec - 1) <= n < 2 ^ prec).
  { unfold n. pose proof (WrapFacts.pow_prec_double prec ltac:(lia)). lia. }
  assert (Dn : Zdigits2 n = prec) by (apply Zdigits2_unique; lia).
  destruct (n * 2 ^ (1 - prec - eh)) as [| p | p] eqn:E; try nia.
  unfold binary_normalize.
  destruct (binary_round_eq prec emax false p eh) as [-> _].
  assert (Dp : Zdigits2 (Zpos p) = prec + (1 - prec - eh)).
  { rewrite <- E, Zdigits2_mul_pow by lia. lia. }
  pose proof (fexp_eq prec emax (Zdigits2 (Zpos p) + eh)) as F.
  rewrite Dp in F. replace (prec + (1 - prec - eh) + eh - prec) with (1 - prec) in F by lia.
  rewrite emin_eq in F.
  revert F. rewrite Dp. generalize (fexp (prec + (1 - prec - eh) + eh)). intros fx F.
  assert (Fx : fx = 1 - prec) by lia. clear F. subst fx.
  rewrite Z.min_l by lia. rewrite Z.sub_diag, Z.mul_1_r.
  destruct (binary_round_aux_spec prec emax false (Zpos p) eh loc_Exact ltac:(lia))
    as [m2 [_ [X ->]]].
  revert X. rewrite Dp.
  pose proof (fexp_eq prec emax (prec + (1 - prec - eh) + eh)) as F.
  revert F. generalize (fexp (prec + (1 - prec - eh) + eh)). intros fx F.
  rewrite emin_eq in F.
  assert (Fx : fx = 1 - prec) by lia. clear F. subst fx.
  rewrite Z.max_r by lia. rewrite <- E.
  rewrite Z.mod_mul, Z.div_mul by lia.
  intros X. rewrite (X eq_refl eq_refl).
  destruct n as [| q | q] eqn:En; try lia.
  rewrite (round_result_canonical prec emax); [ reflexivity | | lia ].
  rewrite Dn, fexp_eq, emin_eq. lia.
Qed.

(** [wrap01] of exactly one and a value on the grid of one, below one. *)
Lemma wrap_one_grid h :
  (exists s, h = S754_zero s) \/
  (exists mh eh k, h = S754_finite false mh eh /\ 0 < k < 2 ^ (prec - 1) /\
                   eh <= 1 - prec /\ emin <= eh /\ Zpos mh = k * 2 ^ (1 - prec - eh)) ->
  let w :=
    if SFltb (SFadd prec emax one h) one
    then SFadd prec emax one h
    else SFsub prec emax (SFadd prec emax one h) one in
  SFleb (S754_zero false) w = true /\ SFltb w one = true.
Proof.
  assert (P : 0 < 2 ^ (prec - 1)) by (apply Z.pow_pos_nonneg; lia).
  pose proof (WrapFacts.pow_prec_double prec ltac:(lia)) as P2.
  intros [[s ->] | [mh [eh [k [-> [Hk [He [Hm M]]]]]]]]; cbv zeta.
  - cbn [SFadd]. rewrite IEEEFacts.ltb_irrefl.
    pose proof (Z2Pos.id _ P).
    apply (WrapFacts.minus_one_in_unit_interval prec emax ltac:(lia)); lia.
  - rewrite (one_plus_grid mh eh k Hk He Hm M).
    destruct (SFltb (S754_finite false (Z.to_pos (2 ^ (prec - 1) + k)) (1 - prec)) one) eqn:L.
    + exfalso. apply IEEEFacts.ltb_finite in L.
      destruct L as [[? _] | [[_ [_ L]] | [? _]]]; try discriminate.
      pose proof (Z2Pos.id _ P). lia.
    + assert (Q : 0 < 2 ^ (prec - 1) + k) by lia.
      pose proof (Z2Pos.id _ Q).
      apply (WrapFacts.minus_one_in_unit_interval prec emax ltac:(lia)); lia.
Qed.

End Format.

End SampleFacts.

Section Samples.

Import ShiftFacts RoundFacts AlignFacts SkyFacts WeightFacts SampleFacts.

(** The random offset of a pixel in single precision is zero or a multiple
    of [2 ^ -23] below one. *)
Lemma uintToUnitReal_float_grid v :
  in_uint32 v ->
  (exists s, uintToUnitReal false v = S754_zero s) \/
  (exists mh eh k, uintToUnitReal false v = S754_finite false mh eh /\
                   0 < k < 2 ^ (24 - 1) /\ eh <= 1 - 24 /\ SpecFloat.emin 24 128 <= eh /\
                   Zpos mh = k * 2 ^ (1 - 24 - eh)).
Proof.
  intros Hv.
  destruct (uintToUnitReal_float_cases v Hv) as [[_ ->] | [m [e [-> [He [M V]]]]]];
    [ left; eauto | right ].
  assert (Hk : 0 <= Z.shiftr v 9 < 2 ^ 23).
  { unfold in_uint32 in Hv. rewrite Z.shiftr_div_pow2 by lia.
    split; [ apply Z.div_pos; lia | ]. apply Z.div_lt_upper_bound; lia. }
  apply (valid_finite 24 128) in V as [C _]. rewrite fexp_eq in C.
  exists m, e, (Z.shiftr v 9). split; [ reflexivity | ].
  assert (P : 0 < 2 ^ (- 23 - e)) by (apply Z.pow_pos_nonneg; lia).
  split; [ change (2 ^ (24 - 1)) with (2 ^ 23); nia | ].
  split; [ lia | ]. split; [ lia | ].
  replace (1 - 24 - e) with (- 23 - e) by lia. exact M.
Qed.

(** Rounding a double of the unit interval to single precision gives a
    value that is at least zero and at most one. *)
Lemma round_unit_interval r :
  valid_binary 53 1024 r = true ->
  SFleb (S754_zero false) r = true -> SFltb r (S754_finite false 4503599627370496 (-52)) = true ->
  let u := IEEE.round IEEE.binary32 r in
  valid_binary 24 128 u = true /\ SFleb (S754_zero false) u = true /\
  SFleb u (S754_finite false 8388608 (-23)) = true.
Proof.
  intros V P L u. unfold u, IEEE.round. cbn [IEEE.fprec IEEE.femax IEEE.binary32].
  destruct r as [s | [] | | [] m e]; try discriminate;
    [ split; [ reflexivity | split; [ destruct s; reflexivity | destruct s; reflexivity ] ] | ].
  apply IEEEFacts.ltb_leb in L.
  destruct (at_most_one_scaled 53 1024 ltac:(lia) m e V L) as [B E].
  pose proof (round_at_most_one 24 128 ltac:(lia) m e
                ltac:(unfold SpecFloat.emin; lia) ltac:(lia) B ltac:(lia)) as R.
  pose proof (binary_round_valid 24 128 ltac:(lia) false m e) as Vr.
  pose proof (SignFacts.binary_round_sign 24 128 false m e) as Sr.
  split; [ exact Vr | ]. split; [ | exact R ].
  destruct (binary_round 24 128 false m e) as [s | [] | | [] m3 e3]; try discriminate;
    reflexivity.
Qed.

Lemma sample_in_unit_interval USE_DOUBLE r v :
  valid_binary 53 1024 r = true ->
  IEEE.le IEEE.zero r = true -> IEEE.lt r double_one = true ->
  in_uint32 v ->
  IEEE.le IEEE.zero (wrap01 USE_DOUBLE (real_of_double USE_DOUBLE r) (uintToUnitReal USE_DOUBLE v))
    = true /\
  IEEE.lt (wrap01 USE_DOUBLE (real_of_double USE_DOUBLE r) (uintToUnitReal USE_DOUBLE v))
          (IEEE.of_Z (real USE_DOUBLE) 1) = true.
Proof.
  intros V P L Hv.
  destruct (uintToUnitReal_range USE_DOUBLE v Hv) as [Vh [Ph Lh]].
  unfold wrap01, IEEE.le, IEEE.lt, IEEE.zero, IEEE.add, IEEE.sub, IEEE.valid, real_of_double in *.
  destruct USE_DOUBLE.
  - exact (WrapFacts.wrap_closed 53 1024 ltac:(lia) ltac:(lia) r _ V Vh P L Ph Lh).
  - destruct (round_unit_interval r V P L) as [Vu [Pu Lu]]. cbv zeta in Vu, Pu, Lu.
    destruct (SFltb (IEEE.round IEEE.binary32 r) (S754_finite false 8388608 (-23))) eqn:B.
    + exact (WrapFacts.wrap_closed 24 128 ltac:(lia) ltac:(lia) _ _ Vu Vh Pu B Ph Lh).
    + rewrite (at_most_one_not_below 24 128 ltac:(lia) _ Vu Lu B).
      exact (wrap_one_grid 24 128 ltac:(lia) ltac:(lia) _ (uintToUnitReal_float_grid v Hv)).
Qed.

End Samples.

(** X19.  Every sample that [generateColour] draws is in the unit interval,
    in single and in double precision: for a pass that is not negative and
    whose product with 13 fits an [int], and a base listed in [primes], the
    value [wrap01 ((real) RadicalInverse (pass, base), hash_random)] is at
    least zero and strictly below one, for the random offset of every
    pixel.  (In single precision the conversion of the double may give
    exactly one; the offset is a multiple of [2 ^ -23], and the wrap is
    still below one.) *)
Theorem halton_sample_unit_interval
    (USE_DOUBLE : bool) (fuel : nat) (pass k x y frame width height : Z) (u : spec_float) :
  0 <= pass -> pass * 13 <= INT_MAX -> In (prime_at k) primes ->
  halton_sample USE_DOUBLE fuel pass k (pixel_hash USE_DOUBLE x y frame width height) = Some u ->
  IEEE.le IEEE.zero u = true /\ IEEE.lt u (IEEE.of_Z (real USE_DOUBLE) 1) = true.
Proof.
  intros Hp Hm Hk H. unfold halton_sample in H.
  destruct (RadicalInverse fuel pass (prime_at k)) as [r |] eqn:R; [ | discriminate ].
  injection H as <-.
  destruct (primes_at_least_two _ Hk) as [B2 Ib].
  assert (B13 : prime_at k <= 13).
  { revert Hk. generalize (prime_at k). intros p. unfold primes. simpl.
    intros Hk. repeat (destruct Hk as [<- | Hk]; [ lia | ]). contradiction. }
  assert (Hab : pass * prime_at k <= INT_MAX) by nia.
  destruct (RadicalInverse_range pass (prime_at k) fuel r Ib Hp B2 Hab R) as [_ [P L]].
  pose proof (SampleFacts.RadicalInverse_valid pass (prime_at k) fuel r Ib Hp B2 Hab R) as V.
  unfold pixel_hash. apply sample_in_unit_interval; try assumption. apply hash_range.
Qed.

Lemma halton_sample_unit_interval_witness :
  0 <= 1 /\ 1 * 13 <= INT_MAX /\ In (prime_at 0) primes /\
  halton_sample false 33 1 0 (pixel_hash false 0 0 0 4 4)
    = Some (S754_finite false 8995988 (-24)) /\
  IEEE.lt (S754_finite false 8995988 (-24)) (IEEE.of_Z (real false) 1) = true.
Proof.
  assert (M : 1 * 13 <= INT_MAX) by (unfold INT_MAX; lia).
  assert (K : In (prime_at 0) primes) by (left; reflexivity).
  assert (H : halton_sample false 33 1 0 (pixel_hash false 0 0 0 4 4)
              = Some (S754_finite false 8995988 (-24))) by (vm_compute; reflexivity).
  split; [ lia | ]. split; [ exact M | ]. split; [ exact K | ]. split; [ exact H | ].
  exact (proj2 (halton_sample_unit_interval false 33 1 0 0 0 0 4 4 _
                  ltac:(lia) M K H)).
Defined.

(* ================================================================== *)
(** ** [hash] is nowhere injective *)

Module HashTwinFacts.

Import HashFacts.

Lemma all_ones_bits n : 0 <= n -> Z.testbit 4294967295 n = (n <? 32).
Proof.
  intros Hn. change 4294967295 with (Z.ones 32). rewrite Z.testbit_ones by lia.
  destruct (Z.leb_spec 0 n); [ reflexivity | lia ].
Qed.

(** The xor-shift stage does not tell a 32-bit value from its complement:
    [x ^ (x << 6) ^ (x >> 26)] is [x] xor its rotation by six places. *)
Lemma xor_shift_complement a :
  in_uint32 a ->
  Z.lxor (Z.lxor a 4294967295)
    (Z.lxor (to_uint32 (Z.shiftl (Z.lxor a 4294967295) 6)) (Z.shiftr (Z.lxor a 4294967295) 26))
  = Z.lxor a (Z.lxor (to_uint32 (Z.shiftl a 6)) (Z.shiftr a 26)).
Proof.
  intros Ha.
  assert (Pa : 0 <= a) by (unfold in_uint32 in Ha; lia).
  pose proof (proj1 (in_uint32_testbit a Pa) Ha) as Hi.
  apply Z.bits_inj'. intros n Hn. unfold to_uint32.
  rewrite !Z.lxor_spec, !Z.testbit_mod_pow2, !Z.shiftl_spec, !Z.shiftr_spec, !Z.lxor_spec by lia.
  rewrite (all_ones_bits n Hn), (all_ones_bits (n + 26)) by lia.
  destruct (Z.ltb_spec n 32) as [L | L].
  - destruct (Z_lt_le_dec n 6) as [L6 | L6].
    + rewrite !(Z.testbit_neg_r _ (n - 6)) by lia.
      destruct (Z.ltb_spec (n + 26) 32); [ | lia ].
      destruct (Z.testbit a n), (Z.testbit a (n + 26)); reflexivity.
    + rewrite (all_ones_bits (n - 6)) by lia.
      destruct (Z.ltb_spec (n - 6) 32); [ | lia ].
      destruct (Z.ltb_spec (n + 26) 32); [ lia | ].
      rewrite (Hi (n + 26)) by lia.
      destruct (Z.testbit a n), (Z.testbit a (n - 6)); reflexivity.
  - destruct (Z.ltb_spec (n + 26) 32); [ lia | ].
    rewrite (Hi n), (Hi (n + 26)) by lia. reflexivity.
Qed.

(** The first multiplication sends the twin to the complement. *)
Lemma twin_first_stage x :
  to_uint32 (Z.lxor (hash_twin x) 12345391 * 2654435769)
  = Z.lxor (to_uint32 (Z.lxor x 12345391 * 2654435769)) 4294967295.
Proof.
  unfold hash_twin. cbv zeta.
  set (a := to_uint32 (Z.lxor x 12345391 * 2654435769)).
  assert (Ia : in_uint32 (Z.lxor a 4294967295))
    by (apply lxor_uint32; [ apply to_uint32_range | unfold in_uint32; lia ]).
  rewrite Z.lxor_assoc, Z.lxor_nilpotent, Z.lxor_0_r.
  unfold to_uint32 at 1 2. rewrite Z.mul_mod_idemp_l by lia.
  replace (Z.lxor a 4294967295 * 340573321 * 2654435769)
    with (Z.lxor a 4294967295 + Z.lxor a 4294967295 * 210485888 * 2 ^ 32) by ring.
  rewrite Z.mod_add by lia. apply Z.mod_small. exact Ia.
Qed.

Lemma complement_differs a : Z.lxor a 4294967295 <> a.
Proof.
  intros E. assert (B : Z.testbit (Z.lxor a 4294967295) 0 = Z.testbit a 0) by (rewrite E; reflexivity).
  rewrite Z.lxor_spec, (all_ones_bits 0) in B by lia.
  destruct (Z.testbit a 0); discriminate.
Qed.

End HashTwinFacts.

(** X20.  [hash] is nowhere injective on 32-bit values: for every [x]
    there is another 32-bit value, [hash_twin x], with the same hash.  The
    xor-shift stage [x ^= (x << 6) ^ (x >> 26)] maps a value and its
    complement to the same result, and the multiplication before it is
    invertible modulo [2 ^ 32]. *)
Theorem hash_not_injective (x : Z) :
  in_uint32 (hash_twin x) /\
  hash_twin x <> to_uint32 x /\
  hash (hash_twin x) = hash x.
Proof.
  split; [ | split ].
  - unfold hash_twin. cbv zeta.
    apply HashFacts.lxor_uint32; [ apply HashFacts.to_uint32_range | unfold in_uint32; lia ].
  - intros E.
    pose proof (HashTwinFacts.twin_first_stage x) as T. rewrite E in T.
    apply (HashTwinFacts.complement_differs (to_uint32 (Z.lxor x 12345391 * 2654435769))).
    rewrite <- T. unfold to_uint32 at 1 3.
    rewrite <- (Z.mul_mod_idemp_l (Z.lxor (to_uint32 x) 12345391)) by lia.
    rewrite <- (Z.mul_mod_idemp_l (Z.lxor x 12345391)) by lia.
    do 2 f_equal.
    apply (HashFacts.lxor_to_uint32 x 12345391). unfold in_uint32. lia.
  - unfold hash. cbv zeta. rewrite !HashFacts.to_uint32_wrap_int64.
    pose proof (HashTwinFacts.twin_first_stage x) as T. unfold to_uint32 in T at 1 2.
    rewrite T.
    rewrite (HashTwinFacts.xor_shift_complement ((Z.lxor x 12345391 * 2654435769) mod 2 ^ 32))
      by apply HashFacts.to_uint32_range.
    reflexivity.
Qed.
